(** * Delphes to FCC-EDM conversion: genealogy graph and truth matching

    A shallow embedding of the converters of
    [SimDelphesInterface/src/DelphesSimulation.cpp]:

    - [ConvertMCParticles]  the genealogy graph builder (particles, shared
      production / decay vertices, the side table of vertex slots);
    - [ConvertParticles]    the electron converter with its direct truth match;
    - [ConvertPhotons]      the photon converter with its cascade truth match;
    - [ConvertJets]         the jet pass-through converter.

    Collections are lists, an object handle is the position of the object in
    its collection, and a C++ [int] is a [Z].  Floating-point fields are
    transcribed by this code and, for a printout, fed to [sqrt]; their
    carrier [double] is kept abstract. *)

From Stdlib Require Import ZArith String List Lia.
From stdpp Require Import base option list.

Local Open Scope Z_scope.

(** ** Status bits

    [ParticleStatus.h] is not part of the sources at hand; the six
    enumerators are the ones the converters name. *)
Inductive ParticleStatus : Set :=
  | Beam | Stable | Decayed
  | Matched | Unmatched | MatchInCascade.

(** The [Bits] member of a [BareParticle].  [new fcc::BareParticle()]
    value-initialises the structure, so a member that no statement assigns
    holds 0; [ValueInitialised] is that state, [Assigned s] the state after
    [Bits = ParticleStatus::s]. *)
Inductive BitsValue : Set :=
  | ValueInitialised
  | Assigned (s : ParticleStatus).

(** ** Machine integers *)

(** [TObject::GetUniqueID()] returns a [UInt_t]; [GetUniqueID()-1] is computed
    on 32 unsigned bits and then stored in an [int]. *)
Definition to_int (z : Z) : Z := (z + 2 ^ 31) mod 2 ^ 32 - 2 ^ 31.

Definition index_of_uid (uid : Z) : Z := to_int ((uid - 1) mod 2 ^ 32).

(** [v[i]] on a [std::vector], [At(i)] on a [TObjArray], [at(i)] on a
    collection: [None] stands for an access outside the container. *)
Definition vec_at {A : Type} (v : list A) (i : Z) : option A :=
  if i <? 0 then None else v !! Z.to_nat i.

Definition vec_set {A : Type} (v : list A) (i : Z) (x : A) : list A :=
  <[Z.to_nat i := x]> v.

(** The texts of the two diagnostics of the truth match. *)
Definition warning_electron : string :=
  "WARNING: Can't build relation from Electron/Muon to MC particle!".
Definition warning_photon : string :=
  "WARNING: Can't build relation to MC particle!".

(** ** Runs that leave a container

    The reconstructed-object converters hand indices to
    [colMCParticles->at] and read through the links of an association
    record.  An index outside the collection, or a read through a link that
    was never set, ends the run where it stands.  [Returned] carries the
    state of a run that went through, [Stopped] the state a run had reached
    when such an access ended it.  (The builder, whose collections nobody
    looks at after such an access, uses [None] for the same event.) *)
Inductive Progress (A : Type) : Type :=
  | Returned (a : A)
  | Stopped (a : A).

Arguments Returned {A} a.
Arguments Stopped {A} a.

Definition state_reached {A : Type} (r : Progress A) : A :=
  match r with
  | Returned a => a
  | Stopped a => a
  end.

(** The statements after a call that may stop the run. *)
Definition and_then {A : Type} (r : Progress A) (rest : A -> Progress A) : Progress A :=
  match r with
  | Returned a => rest a
  | Stopped a => Stopped a
  end.

(** ** The type of [size()]

    The electron converter compares [int idRefMCPart] with
    [colMCParticles->size()] directly.  The declaration of [size()] is in the
    event-data-model headers, which are not part of the sources at hand, and
    it decides what the comparison does with a negative [idRefMCPart]:
    with [int size()] the two are compared as they are; with an unsigned
    [size()] the usual arithmetic conversions first turn [idRefMCPart] into
    an unsigned value, [idRefMCPart + 2^32] for a negative one on 32 bits
    (on a wider unsigned type the outcome is the same for every collection
    of fewer than [2^31] particles). *)
Inductive SizeDeclaration : Set :=
  | SizeIsInt
  | SizeIsUnsigned.

Definition below_size (decl : SizeDeclaration) (idRefMCPart size : Z) : bool :=
  match decl with
  | SizeIsInt => idRefMCPart <? size
  | SizeIsUnsigned => idRefMCPart mod 2 ^ 32 <? size
  end.

Section Converters.

Context {double : Type}.

(** The conversion [int -> double] of the literals the code stores in
    floating-point members. *)
Variable double_of_int : Z -> double.

(** ** Input: Delphes objects *)

(** What the accessors [Px() Py() Pz() M()] of a [TLorentzVector] return. *)
Record FourMomentum := {
  Px : double; Py : double; Pz : double; M : double
}.

(** What the accessors [X() Y() Z() T()] of a [TLorentzVector] return. *)
Record FourPosition := {
  X : double; Y : double; Z_ : double; T : double
}.

(** An entry of a [GetCandidates()] array: its unique identifier and the
    unique identifiers of the entries of its own [GetCandidates()] array. *)
Record RefCandidate := {
  UniqueID : Z;
  RefCandidates : list Z
}.

Record Candidate := {
  PID : Z;
  Status : Z;
  Charge : Z;
  Momentum : FourMomentum;
  Position : FourPosition;
  M1 : Z; M2 : Z;
  D1 : Z; D2 : Z;
  Candidates : list RefCandidate
}.

(** A photon entry: the four-vector [P4()] and the reference array. *)
Record Photon := {
  PhotonP4 : FourMomentum;
  PhotonCandidates : list RefCandidate
}.

(** A jet entry: the components of [P4()] and the member [Mass]. *)
Record Jet := {
  JetP4 : FourPosition;
  JetMass : double
}.

(** ** Output: FCC event data model *)

Record Point := { ptX : double; ptY : double; ptZ : double }.

Record LorentzVector := {
  lvPx : double; lvPy : double; lvPz : double; lvMass : double
}.

Record BareParticle := {
  Type_ : Z;
  Status_ : Z;
  P4 : LorentzVector;
  Charge_ : Z;
  Vertex : Point;
  Bits : BitsValue
}.

Record GenVertex := { vPosition : Point; Ctau : double }.

(** A vertex handle is the position of the vertex in the vertex collection:
    two particles share a vertex instance when they hold the same handle. *)
Record MCParticle := {
  Core : BareParticle;
  StartVertex : option nat;
  EndVertex : option nat
}.

(** An association record.  [Rec] is the handle of the reconstructed
    particle, [Sim] the handle of the truth particle, that is the position
    [colMCParticles->at] was asked for and found; both are unset in a record
    that was only created. *)
Record Association := {
  Rec : option nat;
  Sim : option Z
}.

Record BareJet := { Area : double; jetCoreP4 : LorentzVector }.

Definition momentum_of (p : FourMomentum) : LorentzVector :=
  {| lvPx := Px p; lvPy := Py p; lvPz := Pz p; lvMass := M p |}.

Definition point_of (p : FourPosition) : Point :=
  {| ptX := X p; ptY := Y p; ptZ := Z_ p |}.

(** ** The genealogy graph builder: [ConvertMCParticles] *)

(** [m_vecPartProdVtxIDDecVtxID], [colMCParticles] and [colGenVertices]. *)
Record BuilderState := {
  vecPartProdVtxIDDecVtxID : list (Z * Z);
  colMCParticles : list MCParticle;
  colGenVertices : list GenVertex
}.

(** The first-match chain on [M1] and [D1]. *)
Definition genealogy_bits (cand : Candidate) : ParticleStatus :=
  if M1 cand =? -1 then Beam
  else if D1 cand =? -1 then Stable
  else Decayed.

Definition bare_of_candidate (cand : Candidate) (b : BitsValue) : BareParticle :=
  {| Type_ := PID cand;
     Status_ := Status cand;
     P4 := momentum_of (Momentum cand);
     Charge_ := Charge cand;
     Vertex := point_of (Position cand);
     Bits := b |}.

(** The [Core] the builder stores for a candidate. *)
Definition genealogy_core (cand : Candidate) : BareParticle :=
  bare_of_candidate cand (Assigned (genealogy_bits cand)).

Definition set_StartVertex (p : nat) (v : option nat)
    (col : list MCParticle) : list MCParticle :=
  alter (fun q => {| Core := Core q; StartVertex := v; EndVertex := EndVertex q |}) p col.

Definition set_EndVertex (p : nat) (v : option nat)
    (col : list MCParticle) : list MCParticle :=
  alter (fun q => {| Core := Core q; StartVertex := StartVertex q; EndVertex := v |}) p col.

(** [for (iMother = M1; iMother <= M2; iMother++)
       if (vec[iMother].second == -1) vec[iMother].second = j;]
    with [n] the number of iterations left. *)
Fixpoint mark_mothers (n : nat) (iMother j : Z)
    (vec : list (Z * Z)) : option (list (Z * Z)) :=
  match n with
  | O => Some vec
  | S n' =>
      s ← vec_at vec iMother;
      mark_mothers n' (iMother + 1) j
        (if s.2 =? -1 then vec_set vec iMother (s.1, j) else vec)
  end.

(** [for (iDaughter = D1; iDaughter <= D2; iDaughter++)
       if (iDaughter >= 0 && vec[iDaughter].second == -1) vec[iDaughter].first = j;] *)
Fixpoint mark_daughters (n : nat) (iDaughter j : Z)
    (vec : list (Z * Z)) : option (list (Z * Z)) :=
  match n with
  | O => Some vec
  | S n' =>
      vec' ← (if 0 <=? iDaughter then
                s ← vec_at vec iDaughter;
                Some (if s.2 =? -1 then vec_set vec iDaughter (j, s.2) else vec)
              else Some vec);
      mark_daughters n' (iDaughter + 1) j vec'
  end.

(** Number of iterations of [for (i = lo; i <= hi; i++)]. *)
Definition trip_count (lo hi : Z) : nat := Z.to_nat (hi - lo + 1).

(** The block under [if (cand->M1 != -1)]; [p] is the handle of the particle
    being filled and [idPartStartVertex] the slot read at the top of the
    iteration. *)
Definition production_vertex (cand : Candidate) (j : Z) (p : nat)
    (idPartStartVertex : Z) (st : BuilderState) : option BuilderState :=
  if M1 cand =? -1 then Some st
  else
    st1 ← (if negb (idPartStartVertex =? -1) then
             m ← vec_at (colMCParticles st) idPartStartVertex;
             Some {| vecPartProdVtxIDDecVtxID := vecPartProdVtxIDDecVtxID st;
                     colMCParticles := set_StartVertex p (EndVertex m) (colMCParticles st);
                     colGenVertices := colGenVertices st |}
           else
             let vertex := {| vPosition := point_of (Position cand);
                              Ctau := T (Position cand) |} in
             Some {| vecPartProdVtxIDDecVtxID := vecPartProdVtxIDDecVtxID st;
                     colMCParticles :=
                       set_StartVertex p (Some (length (colGenVertices st))) (colMCParticles st);
                     colGenVertices := colGenVertices st ++ [vertex] |});
    vec ← mark_mothers (trip_count (M1 cand) (M2 cand)) (M1 cand) j
            (vecPartProdVtxIDDecVtxID st1);
    Some {| vecPartProdVtxIDDecVtxID := vec;
            colMCParticles := colMCParticles st1;
            colGenVertices := colGenVertices st1 |}.

(** The block under [if (cand->D1 != -1)].  [Input->At(cand->D1)] is a null
    pointer when [D1] is outside the array; the pointer is dereferenced only
    where a new vertex is created. *)
Definition decay_vertex (Input : list Candidate) (cand : Candidate) (j : Z) (p : nat)
    (idPartEndVertex : Z) (st : BuilderState) : option BuilderState :=
  if D1 cand =? -1 then Some st
  else
    st1 ← (if negb (idPartEndVertex =? -1) then
             m ← vec_at (colMCParticles st) idPartEndVertex;
             Some {| vecPartProdVtxIDDecVtxID := vecPartProdVtxIDDecVtxID st;
                     colMCParticles := set_EndVertex p (StartVertex m) (colMCParticles st);
                     colGenVertices := colGenVertices st |}
           else
             daughter ← vec_at Input (D1 cand);
             let vertex := {| vPosition := point_of (Position daughter);
                              Ctau := T (Position cand) |} in
             Some {| vecPartProdVtxIDDecVtxID := vecPartProdVtxIDDecVtxID st;
                     colMCParticles :=
                       set_EndVertex p (Some (length (colGenVertices st))) (colMCParticles st);
                     colGenVertices := colGenVertices st ++ [vertex] |});
    vec ← mark_daughters (trip_count (D1 cand) (D2 cand)) (D1 cand) j
            (vecPartProdVtxIDDecVtxID st1);
    Some {| vecPartProdVtxIDDecVtxID := vec;
            colMCParticles := colMCParticles st1;
            colGenVertices := colGenVertices st1 |}.

(** One iteration of the main loop, for the candidate [cand] at position [j]
    ([m_allPartOutArray], which the loop reads [cand] from, is the array
    [execute] passes as [Input]; the printout of the unique identifier is
    left out). *)
Definition ConvertMCParticles_body (Input : list Candidate) (j : nat)
    (cand : Candidate) (st : BuilderState) : option BuilderState :=
  let p := length (colMCParticles st) in
  let particle := {| Core := genealogy_core cand;
                     StartVertex := None; EndVertex := None |} in
  s ← vec_at (vecPartProdVtxIDDecVtxID st) (Z.of_nat j);
  let idPartStartVertex := s.1 in
  let idPartEndVertex := s.2 in
  st1 ← production_vertex cand (Z.of_nat j) p idPartStartVertex
          {| vecPartProdVtxIDDecVtxID := vecPartProdVtxIDDecVtxID st;
             colMCParticles := colMCParticles st ++ [particle];
             colGenVertices := colGenVertices st |};
  decay_vertex Input cand (Z.of_nat j) p idPartEndVertex st1.

Fixpoint ConvertMCParticles_loop (Input todo : list Candidate) (j : nat)
    (st : BuilderState) : option BuilderState :=
  match todo with
  | [] => Some st
  | cand :: todo' =>
      st' ← ConvertMCParticles_body Input j cand st;
      ConvertMCParticles_loop Input todo' (S j) st'
  end.

(** [ConvertMCParticles(Input, colMCParticles, colGenVertices)]: the side
    table is sized to the input and filled with [-1], then the candidates are
    visited in increasing position.  [None] means that the run touched a
    container outside its bounds. *)
Definition ConvertMCParticles (Input : list Candidate)
    (colMC : list MCParticle) (colVtx : list GenVertex) : option BuilderState :=
  ConvertMCParticles_loop Input Input 0
    {| vecPartProdVtxIDDecVtxID := replicate (length Input) (-1, -1);
       colMCParticles := colMC;
       colGenVertices := colVtx |}.

(** ** The reconstructed-object converters *)

(** What [relation.Rec().Core()] and [relation.Sim().Core()] give on a record
    whose link was never set.  The accessors are in the event-data-model
    headers, which are not part of the sources at hand: [Some core] when the
    read yields a particle core, [None] when it is a read outside any
    object, which ends the run. *)
Variable unlinked_core : option BareParticle.

(** [sqrt(Px*Px + Py*Py + Pz*Pz + Mass*Mass)] in floating point. *)
Variable energy_of : LorentzVector -> double.

(** The line [ConvertParticles] prints for every electron, field by field. *)
Record ParticleReport := {
  repId : Z;
  repPdg : Z;
  repStat : Z;
  repBits : BitsValue;
  repPx : double; repPy : double; repPz : double;
  repE : double;
  repM : double;
  repVx : double; repVy : double; repVz : double;
  repRefId : Z;
  repRelIndex : Z;
  repSimE : double;
  repRecE : double
}.

(** What the two converters send to [std::cout], statement by statement. *)
Inductive Printed :=
  | Warning (text : string)
  | ElectronCount (entries : Z)
  | ParticleLine (line : ParticleReport).

Definition is_warning (p : Printed) : bool :=
  match p with
  | Warning _ => true
  | _ => false
  end.

(** The warnings among what has been printed. *)
Definition warnings_of (printed : list Printed) : list Printed :=
  filter (fun p => is_warning p = true) printed.

(** The collections [ConvertParticles] and [ConvertPhotons] write to: the
    particles (a particle is its [Core]), the association records, and what
    has been sent to [std::cout]. *)
Record RecoState := {
  colParticles : list BareParticle;
  ascColParticlesToMC : list Association;
  cout : list Printed
}.

Definition empty_relation : Association := {| Rec := None; Sim := None |}.

(** [for (int j = 0; j < Input->GetEntries(); j++) body], where the body may
    stop the run. *)
Fixpoint for_entries {A : Type} (body : nat -> A -> RecoState -> Progress RecoState)
    (todo : list A) (j : nat) (st : RecoState) : Progress RecoState :=
  match todo with
  | [] => Returned st
  | a :: todo' => and_then (body j a st) (for_entries body todo' (S j))
  end.

(** [relation.Rec().Core()]: the core of the particle the record links to. *)
Definition Rec_Core (st : RecoState) (relation : Association) : option BareParticle :=
  match Rec relation with
  | Some particle => colParticles st !! particle
  | None => unlinked_core
  end.

(** [relation.Sim().Core()]: the core of the truth particle the record links
    to. *)
Definition Sim_Core (colMC : list MCParticle) (relation : Association) : option BareParticle :=
  match Sim relation with
  | Some i => Core <$> vec_at colMC i
  | None => unlinked_core
  end.

(** The end of an iteration of [ConvertParticles]: the three energies are
    computed, the second and third through the links of the record, and the
    line is printed.  [particle] and [relation] are the handles created at
    the top of the iteration. *)
Definition print_particle (colMC : list MCParticle) (j : nat) (idRefMCPart : Z)
    (particle relation : nat) (st : RecoState) : Progress RecoState :=
  match colParticles st !! particle, ascColParticlesToMC st !! relation with
  | Some core, Some r =>
      match Rec_Core st r, Sim_Core colMC r with
      | Some recCore, Some simCore =>
          Returned
            {| colParticles := colParticles st;
               ascColParticlesToMC := ascColParticlesToMC st;
               cout := cout st ++
                 [ParticleLine
                    {| repId := Z.of_nat j + 1;
                       repPdg := Type_ core;
                       repStat := Status_ core;
                       repBits := Bits core;
                       repPx := lvPx (P4 core);
                       repPy := lvPy (P4 core);
                       repPz := lvPz (P4 core);
                       repE := energy_of (P4 core);
                       repM := lvMass (P4 core);
                       repVx := ptX (Vertex core);
                       repVy := ptY (Vertex core);
                       repVz := ptZ (Vertex core);
                       repRefId := idRefMCPart + 1;
                       repRelIndex := Z.of_nat relation;
                       repSimE := energy_of (P4 simCore);
                       repRecE := energy_of (P4 recCore) |}] |}
      | _, _ => Stopped st
      end
  | _, _ => Stopped st
  end.

(** The declaration of [size()] the electron converter is read with. *)
Variable size_declaration : SizeDeclaration.

(** One iteration of [ConvertParticles]: [colParticles->create()],
    [ascColParticlesToMC->create()], the match on the first entry of
    [cand->GetCandidates()], then the printout.  In the matched branch the
    status is stored and [Rec] is set before [colMCParticles->at] is
    called. *)
Definition ConvertParticles_body (colMC : list MCParticle) (j : nat) (cand : Candidate)
    (st : RecoState) : Progress RecoState :=
  let particle := length (colParticles st) in
  let relation := length (ascColParticlesToMC st) in
  let filled (b : ParticleStatus) (r : Association) (printed : list Printed) :=
    {| colParticles := colParticles st ++ [bare_of_candidate cand (Assigned b)];
       ascColParticlesToMC := ascColParticlesToMC st ++ [r];
       cout := cout st ++ printed |} in
  let idRefMCPart :=
    match Candidates cand with
    | refCand :: _ => index_of_uid (UniqueID refCand)
    | [] => -1
    end in
  and_then
    match Candidates cand with
    | refCand :: _ =>
        if below_size size_declaration idRefMCPart (Z.of_nat (length colMC)) then
          match vec_at colMC idRefMCPart with
          | Some _ =>
              Returned (filled Matched {| Rec := Some particle; Sim := Some idRefMCPart |} [])
          | None =>
              Stopped (filled Matched {| Rec := Some particle; Sim := None |} [])
          end
        else Returned (filled Unmatched empty_relation [Warning warning_electron])
    | [] => Returned (filled Unmatched empty_relation [Warning warning_electron])
    end
    (print_particle colMC j idRefMCPart particle relation).

(** [std::cout << "Electron: " << Input->GetEntries() << std::endl;] *)
Definition announce_entries (Input : list Candidate) (st : RecoState) : RecoState :=
  {| colParticles := colParticles st;
     ascColParticlesToMC := ascColParticlesToMC st;
     cout := cout st ++ [ElectronCount (Z.of_nat (length Input))] |}.

(** The run of [ConvertParticles] over the first [k] entries of [Input]. *)
Definition ConvertParticles_upto (k : nat) (Input : list Candidate)
    (colMC : list MCParticle) (st : RecoState) : Progress RecoState :=
  for_entries (ConvertParticles_body colMC) (take k Input) 0 (announce_entries Input st).

Definition ConvertParticles (Input : list Candidate)
    (colMC : list MCParticle) (st : RecoState) : Progress RecoState :=
  for_entries (ConvertParticles_body colMC) Input 0 (announce_entries Input st).

(** The inner counting loop over [ref2Particles]. *)
Definition count_cascade (nMCParticles : Z) (ref2Particles : list Z)
    (nRefInCascade : Z) : Z :=
  fold_left (fun n uid => if index_of_uid uid <? nMCParticles then n + 1 else n)
            ref2Particles nRefInCascade.

(** The first loop over [refParticles]: the pair
    [(nRefParticles, nRefInCascade)]. *)
Definition count_refs (nMCParticles : Z) (refParticles : list RefCandidate) : Z * Z :=
  fold_left
    (fun c r =>
       if index_of_uid (UniqueID r) <? nMCParticles then (c.1 + 1, c.2)
       else (c.1, count_cascade nMCParticles (RefCandidates r) c.2))
    refParticles (0, 0).

(** [indexMCPart = index; relation.Rec(particle);
     relation.Sim(colMCParticles->at(indexMCPart));]
    on the loop state [(indexMCPart, relation)]: [Rec] is set before [at] is
    called, [Sim] only when [at] found the particle. *)
Definition link_to (colMC : list MCParticle) (particle : nat) (index : Z)
    (s : Z * Association) : Progress (Z * Association) :=
  match vec_at colMC index with
  | Some _ => Returned (index, {| Rec := Some particle; Sim := Some index |})
  | None => Stopped (index, {| Rec := Some particle; Sim := Sim s.2 |})
  end.

(** The inner linking loop. *)
Fixpoint link_cascade (colMC : list MCParticle) (particle : nat) (ref2Particles : list Z)
    (s : Z * Association) : Progress (Z * Association) :=
  match ref2Particles with
  | [] => Returned s
  | uid :: ref2Particles' =>
      let index := index_of_uid uid in
      if index <? Z.of_nat (length colMC) then
        and_then (link_to colMC particle index s) (link_cascade colMC particle ref2Particles')
      else link_cascade colMC particle ref2Particles' s
  end.

(** The second loop over [refParticles], from the loop state [s]. *)
Fixpoint link_refs_from (colMC : list MCParticle) (particle : nat)
    (refParticles : list RefCandidate) (s : Z * Association) : Progress (Z * Association) :=
  match refParticles with
  | [] => Returned s
  | r :: refParticles' =>
      let index := index_of_uid (UniqueID r) in
      and_then
        (if index <? Z.of_nat (length colMC) then link_to colMC particle index s
         else link_cascade colMC particle (RefCandidates r) s)
        (link_refs_from colMC particle refParticles')
  end.

Definition link_refs (colMC : list MCParticle) (particle : nat)
    (refParticles : list RefCandidate) (relation : Association) : Progress (Z * Association) :=
  link_refs_from colMC particle refParticles (-1, relation).

(** The status decided after the counting loop, and whether the warning is
    printed. *)
Definition photon_bits (nRefParticles nRefInCascade : Z) : BitsValue * bool :=
  if negb (nRefParticles + nRefInCascade =? 1) then (Assigned Unmatched, true)
  else if negb (nRefInCascade =? 0) then (Assigned MatchInCascade, false)
  else (ValueInitialised, false).

Definition bare_of_photon (cand : Photon) (b : BitsValue) : BareParticle :=
  {| Type_ := -1;
     Status_ := -1;
     P4 := momentum_of (PhotonP4 cand);
     Charge_ := 0;
     Vertex := {| ptX := double_of_int (-1);
                  ptY := double_of_int (-1);
                  ptZ := double_of_int (-1) |};
     Bits := b |}.

(** One iteration of [ConvertPhotons]: the status and the warning are
    settled before the linking loop runs. *)
Definition ConvertPhotons_body (colMC : list MCParticle) (cand : Photon)
    (st : RecoState) : Progress RecoState :=
  let particle := length (colParticles st) in
  let nMCParticles := Z.of_nat (length colMC) in
  let refParticles := PhotonCandidates cand in
  let c := count_refs nMCParticles refParticles in
  let b := photon_bits c.1 c.2 in
  let filled (relation : Association) :=
    {| colParticles := colParticles st ++ [bare_of_photon cand b.1];
       ascColParticlesToMC := ascColParticlesToMC st ++ [relation];
       cout := if b.2 then cout st ++ [Warning warning_photon] else cout st |} in
  match link_refs colMC particle refParticles empty_relation with
  | Returned l => Returned (filled l.2)
  | Stopped l => Stopped (filled l.2)
  end.

Definition ConvertPhotons (Input : list Photon)
    (colMC : list MCParticle) (st : RecoState) : Progress RecoState :=
  for_entries (fun _ cand => ConvertPhotons_body colMC cand) Input 0 st.

(** ** The jet converter *)

Definition ConvertJets_body (cand : Jet) (colJets : list BareJet) : list BareJet :=
  colJets ++
  [{| Area := double_of_int (-1);
      jetCoreP4 := {| lvPx := X (JetP4 cand);
                      lvPy := Y (JetP4 cand);
                      lvPz := Z_ (JetP4 cand);
                      lvMass := JetMass cand |} |}].

Definition ConvertJets (Input : list Jet) (colJets : list BareJet) : list BareJet :=
  fold_left (fun col cand => ConvertJets_body cand col) Input colJets.

(** ** Reference notions used to state the properties *)

(** A decremented identifier designates a truth particle when it lies in
    [0, N). *)
Definition truth_index (N i : Z) : bool := (0 <=? i) && (i <? N).

(** The indices the photon loops find below [N], in the order in which the
    loops meet them: the decremented identifier of a first-level entry when
    it is below [N], otherwise the decremented identifiers of its
    second-level entries that are.  These are the indices the counting loop
    counts and the linking loop hands to [colMCParticles->at]; the loops test
    no lower bound, so an index below 0 is among them. *)
Definition indices_below (N : Z) (refParticles : list RefCandidate) : list Z :=
  flat_map
    (fun r =>
       if index_of_uid (UniqueID r) <? N then [index_of_uid (UniqueID r)]
       else filter (fun i => i < N) (map index_of_uid (RefCandidates r)))
    refParticles.

(** The hits as the specification words them, on the identifiers as they
    are, decremented by one: a direct hit is a first-level entry whose
    decremented identifier lies in [0, N); the cascade hits are the
    second-level entries with that property below the other first-level
    entries. *)
Definition direct_hit_list (N : Z) (refParticles : list RefCandidate) : list RefCandidate :=
  filter (fun r => truth_index N (UniqueID r - 1) = true) refParticles.

Definition cascade_hit_list (N : Z) (refParticles : list RefCandidate) : list Z :=
  flat_map
    (fun r =>
       if truth_index N (UniqueID r - 1) then []
       else filter (fun i => truth_index N i = true)
                   (map (fun uid => uid - 1) (RefCandidates r)))
    refParticles.

Definition direct_hits (N : Z) (refParticles : list RefCandidate) : nat :=
  length (direct_hit_list N refParticles).

Definition cascade_hits (N : Z) (refParticles : list RefCandidate) : nat :=
  length (cascade_hit_list N refParticles).

(** The truth hits of a reference list, direct and cascade, in the order of
    the list. *)
Definition truth_hits (N : Z) (refParticles : list RefCandidate) : list Z :=
  flat_map
    (fun r =>
       if truth_index N (UniqueID r - 1) then [UniqueID r - 1]
       else filter (fun i => truth_index N i = true)
                   (map (fun uid => uid - 1) (RefCandidates r)))
    refParticles.

(** Identifiers in the engine's 1-based numbering: the decremented value is a
    non-negative [int]. *)
Definition one_based (uid : Z) : Prop := 1 <= uid <= 2 ^ 31.

Definition refs_one_based (refParticles : list RefCandidate) : Prop :=
  Forall (fun r => one_based (UniqueID r) /\ Forall one_based (RefCandidates r)) refParticles.

(** The calls [relation.Rec(particle); relation.Sim(colMCParticles->at(i))]
    for the indices of a list, in order. *)
Fixpoint link_all (colMC : list MCParticle) (particle : nat) (indices : list Z)
    (s : Z * Association) : Progress (Z * Association) :=
  match indices with
  | [] => Returned s
  | i :: indices' => and_then (link_to colMC particle i s) (link_all colMC particle indices')
  end.


(** A slot of the side table holds [-1] or the position of a particle created
    before position [b]. *)
Definition slot_below (b : Z) (s : Z * Z) : Prop :=
  (s.1 = -1 \/ 0 <= s.1 < b) /\ (s.2 = -1 \/ 0 <= s.2 < b).

(** The ranges the builder indexes its tables with stay inside an input of
    [n] candidates. *)
Definition ranges_in_bounds (n : Z) (cand : Candidate) : Prop :=
  (M1 cand = -1 \/ (0 <= M1 cand /\ M2 cand < n)) /\
  (D1 cand = -1 \/ (0 <= D1 cand < n /\ D2 cand < n)).

(** The loop invariant of the builder before the candidate at position [j]
    is visited: the side table has one slot per candidate, its slots name
    particles already created, and the cores created so far are those of the
    first [j] candidates. *)
Definition builder_invariant (Input : list Candidate) (j : nat) (st : BuilderState) : Prop :=
  length (vecPartProdVtxIDDecVtxID st) = length Input /\
  Forall (slot_below (Z.of_nat j)) (vecPartProdVtxIDDecVtxID st) /\
  Core <$> colMCParticles st = genealogy_core <$> take j Input.

End Converters.

(** ** Sample events

    Concrete Delphes objects, with [Z] standing in for [double], on which the
    converters are run. *)

Definition sample_momentum : @FourMomentum Z :=
  {| Px := 1; Py := 2; Pz := 3; M := 4 |}.

(** A truth candidate with the given mother range, daughter range, position
    [(x, x, x)] and time [t]. *)
Definition genealogy_candidate (m1 m2 d1 d2 x t : Z) : @Candidate Z :=
  {| PID := 22; Status := 1; Charge := 0; Momentum := sample_momentum;
     Position := {| X := x; Y := x; Z_ := x; T := t |};
     M1 := m1; M2 := m2; D1 := d1; D2 := d2; Candidates := [] |}.

Definition reference (uid : Z) (sub : list Z) : RefCandidate :=
  {| UniqueID := uid; RefCandidates := sub |}.

Definition electron_with (refs : list RefCandidate) : @Candidate Z :=
  {| PID := 11; Status := 1; Charge := -1; Momentum := sample_momentum;
     Position := {| X := 0; Y := 0; Z_ := 0; T := 0 |};
     M1 := -1; M2 := -1; D1 := -1; D2 := -1; Candidates := refs |}.

Definition photon_with (refs : list RefCandidate) : @Photon Z :=
  {| PhotonP4 := sample_momentum; PhotonCandidates := refs |}.

Definition sample_jet (x m : Z) : @Jet Z :=
  {| JetP4 := {| X := x; Y := x + 1; Z_ := x + 2; T := x + 3 |}; JetMass := m |}.

(** The state of the builder, started on fresh collections, after the first
    [k] iterations of its loop. *)
Definition after_iterations (Input : list (@Candidate Z)) (k : nat) : option (@BuilderState Z) :=
  ConvertMCParticles_loop Input (take k Input) 0
    {| vecPartProdVtxIDDecVtxID := replicate (length Input) (-1, -1);
       colMCParticles := [];
       colGenVertices := [] |}.

(** Two siblings at positions 0 and 1 with mother range [2, 2], and their
    mother at position 2 with daughter range [0, 1]. *)
Definition siblings_first : list (@Candidate Z) :=
  [ genealogy_candidate 2 2 (-1) (-1) 10 100;
    genealogy_candidate 2 2 (-1) (-1) 10 100;
    genealogy_candidate (-1) (-1) 0 1 5 50 ].

(** The same family with the mother at position 0. *)
Definition mother_first : list (@Candidate Z) :=
  [ genealogy_candidate (-1) (-1) 1 2 5 50;
    genealogy_candidate 0 0 (-1) (-1) 10 100;
    genealogy_candidate 0 0 (-1) (-1) 10 100 ].

(** A mother (position [(5,5,5)], time 50) and its only daughter (position
    [(10,10,10)], time 100), in both orders. *)
Definition mother_then_daughter : list (@Candidate Z) :=
  [ genealogy_candidate (-1) (-1) 1 1 5 50;
    genealogy_candidate 0 0 (-1) (-1) 10 100 ].

Definition daughter_then_mother : list (@Candidate Z) :=
  [ genealogy_candidate 1 1 (-1) (-1) 10 100;
    genealogy_candidate (-1) (-1) 0 0 5 50 ].

(** A chain 1 -> 2 -> 0: the candidate at position 1 decays into the one at
    position 2, which decays into the one at position 0. *)
Definition grand_daughter_first : list (@Candidate Z) :=
  [ genealogy_candidate 2 2 (-1) (-1) 20 200;
    genealogy_candidate (-1) (-1) 2 2 5 50;
    genealogy_candidate 1 1 0 0 10 100 ].

(** A truth collection of [n] particles. *)
Definition truth_particles (n : nat) : list (@MCParticle Z) :=
  replicate n {| Core := bare_of_candidate (genealogy_candidate (-1) (-1) (-1) (-1) 0 0)
                                          (Assigned Beam);
                 StartVertex := None; EndVertex := None |}.

Definition fresh_reco : @RecoState Z :=
  {| colParticles := []; ascColParticlesToMC := []; cout := [] |}.

(** A stand-in for the energy on [Z]. *)
Definition sample_energy (p : @LorentzVector Z) : Z :=
  lvPx p + lvPy p + lvPz p + lvMass p.

(** The electron converter run on one electron with the reference list
    [refs], against ten truth particles and fresh collections, for a
    declaration of [size()] and a reading of the unset links. *)
Definition electron_run (decl : SizeDeclaration) (unlinked : option (@BareParticle Z))
    (refs : list RefCandidate) : Progress (@RecoState Z) :=
  ConvertParticles unlinked sample_energy decl [electron_with refs] (truth_particles 10)
    fresh_reco.

(** The photon converter run on one photon with the reference list [refs],
    against ten truth particles and fresh collections. *)
Definition photon_run (refs : list RefCandidate) : Progress (@RecoState Z) :=
  ConvertPhotons id [photon_with refs] (truth_particles 10) fresh_reco.

(** * Further parts of the conversion module *)

(** Whether a [Bits] member holds [Unmatched]. *)
Definition is_unmatched (b : BitsValue) : bool :=
  match b with
  | Assigned Unmatched => true
  | _ => false
  end.

Section MoreConverters.

Context {double : Type}.
Variable double_of_int : Z -> double.

(** ** The missing-energy converter: [ConvertMET] *)

(** A Delphes [MissingET] entry: the members [MET] and [Phi] the converter
    reads. *)
Record MissingET := { MET : double; Phi : double }.

(** An [fcc::MET] object, with the two members the converter sets. *)
Record METObject := { Pt : double; Phi_ : double }.

Definition ConvertMET_body (cand : MissingET) (colMET : list METObject) : list METObject :=
  colMET ++ [{| Pt := MET cand; Phi_ := Phi cand |}].

Definition ConvertMET (Input : list MissingET) (colMET : list METObject) : list METObject :=
  fold_left (fun col cand => ConvertMET_body cand col) Input colMET.

End MoreConverters.

Definition sample_met (m p : Z) : @MissingET Z := {| MET := m; Phi := p |}.

Section GraphNotions.

Context {double : Type}.

(** ** Well-formedness of the particle and vertex graph *)

(** An entry of the side table that is not [-1] names a particle of [col]
    that holds the vertex the entry stands for: the end vertex for a
    production entry, the start vertex for a decay entry. *)
Definition names_end_vertex (col : list (@MCParticle double)) (id : Z) : Prop :=
  id <> -1 ->
  exists (m : nat) particle,
    id = Z.of_nat m /\ col !! m = Some particle /\ is_Some (EndVertex particle).

Definition names_start_vertex (col : list (@MCParticle double)) (id : Z) : Prop :=
  id <> -1 ->
  exists (d : nat) particle,
    id = Z.of_nat d /\ col !! d = Some particle /\ is_Some (StartVertex particle).

Definition slot_resolved (col : list (@MCParticle double)) (s : Z * Z) : Prop :=
  names_end_vertex col s.1 /\ names_start_vertex col s.2.

(** A vertex handle, when set, is a position of the vertex collection. *)
Definition handle_valid (nv : nat) (h : option nat) : Prop :=
  forall v, h = Some v -> (v < nv)%nat.

(** The vertex [v] is the start or the end vertex of some particle. *)
Definition vertex_referenced (col : list (@MCParticle double)) (v : nat) : Prop :=
  exists (i : nat) particle,
    col !! i = Some particle /\
    (StartVertex particle = Some v \/ EndVertex particle = Some v).

(** What the builder keeps true of its three containers at every point of
    its run. *)
Definition graph_invariant (st : @BuilderState double) : Prop :=
  Forall (slot_resolved (colMCParticles st)) (vecPartProdVtxIDDecVtxID st) /\
  (forall i particle,
     colMCParticles st !! i = Some particle ->
     handle_valid (length (colGenVertices st)) (StartVertex particle) /\
     handle_valid (length (colGenVertices st)) (EndVertex particle)) /\
  (forall v, (v < length (colGenVertices st))%nat ->
     vertex_referenced (colMCParticles st) v).

(** A particle carries a start vertex exactly when its candidate has a mother
    range, and an end vertex exactly when it has a daughter range. *)
Definition sides_match (particle : @MCParticle double) (cand : @Candidate double) : Prop :=
  (StartVertex particle = None <-> M1 cand = -1) /\
  (EndVertex particle = None <-> D1 cand = -1).

(** The number of vertex sides the candidates ask for: one per mother range
    and one per daughter range. *)
Definition requested_sides (Input : list (@Candidate double)) : nat :=
  Nat.add (length (filter (fun cand => M1 cand <> -1) Input))
          (length (filter (fun cand => D1 cand <> -1) Input)).

End GraphNotions.

Section GraphLoop.

Context {double : Type}.

(** What holds before the candidate at position [j] is visited: the graph
    invariant, one particle per candidate visited so far with the vertex
    sides its candidate asks for, and no more vertices than sides asked
    for. *)
Definition builder_graph_state (Input : list (@Candidate double)) (j : nat)
    (st : @BuilderState double) : Prop :=
  graph_invariant st /\
  Forall2 sides_match (colMCParticles st) (take j Input) /\
  (length (colGenVertices st) <= requested_sides (take j Input))%nat.

End GraphLoop.

Section ExecuteModel.

Context {double : Type}.
Variable double_of_int : Z -> double.
Variable unlinked_core : option (@BareParticle double).
Variable energy_of : @LorentzVector double -> double.
Variable size_declaration : SizeDeclaration.

(** ** The conversion of one event: [DelphesSimulation::execute] *)








End ExecuteModel.


(** * The smearing of generated particles: [SimG4SmearGenParticles] *)

Section SmearGenParticles.

(** The carriers of [float] and [double] values, the state of the smearing
    tool, and the members of a particle that [execute] never reads. *)
Context {float double ToolState Others : Type}.

Record Vector3f := { vx : float; vy : float; vz : float }.

Record Hep3Vector := { hx : double; hy : double; hz : double }.

(** An [edm4hep::MCParticle], with the members [execute] reads or writes. *)
Record EdmMCParticle := {
  getCharge : float;
  getPDG : Z;
  getMomentum : Vector3f;
  others : Others
}.

(** The comparison [getCharge() != 0]. *)
Variable nonzero : float -> bool.

(** The conversions between [float] and [double]. *)
Variable double_of_float : float -> double.
Variable float_of_double : double -> float.

(** [m_smearTool->smearMomentum(mom, pdg)]: the tool changes [mom] in place
    and its own state; its status code is ignored. *)
Variable smearMomentum : ToolState -> Hep3Vector -> Z -> ToolState * Hep3Vector.

(** The test that keeps a particle. *)
Definition kept (m_simTracker : bool) (MCparticle : EdmMCParticle) : bool :=
  nonzero (getCharge MCparticle) || (getPDG MCparticle =? -211) || negb m_simTracker.

(** The clone of [MCparticle] with its momentum smeared. *)
Definition smeared (tool : ToolState) (MCparticle : EdmMCParticle) : ToolState * EdmMCParticle :=
  let edm_mom := getMomentum MCparticle in
  let mom := {| hx := double_of_float (vx edm_mom);
                hy := double_of_float (vy edm_mom);
                hz := double_of_float (vz edm_mom) |} in
  let r := smearMomentum tool mom (getPDG MCparticle) in
  (r.1,
   {| getCharge := getCharge MCparticle;
      getPDG := getPDG MCparticle;
      getMomentum := {| vx := float_of_double (hx r.2);
                        vy := float_of_double (hy r.2);
                        vz := float_of_double (hz r.2) |};
      others := others MCparticle |}).

(** The state of the loop: the output collection, the counter [n_part] and
    the state of the tool. *)
Record SmearState := {
  particles : list EdmMCParticle;
  n_part : Z;
  smearTool : ToolState
}.

Definition SmearGenParticles_body (m_simTracker : bool) (MCparticle : EdmMCParticle)
    (s : SmearState) : SmearState :=
  if kept m_simTracker MCparticle then
    let r := smeared (smearTool s) MCparticle in
    {| particles := particles s ++ [r.2]; n_part := n_part s + 1; smearTool := r.1 |}
  else s.

(** [SimG4SmearGenParticles::execute]: the output collection is created
    empty and [n_part] starts at 0. *)
Definition SmearGenParticles_execute (m_simTracker : bool) (coll : list EdmMCParticle)
    (tool : ToolState) : SmearState :=
  fold_left (fun s MCparticle => SmearGenParticles_body m_simTracker MCparticle s) coll
    {| particles := []; n_part := 0; smearTool := tool |}.

(** Two particles that differ at most in their momentum. *)
Definition same_but_momentum (a b : EdmMCParticle) : Prop :=
  getCharge a = getCharge b /\ getPDG a = getPDG b /\ others a = others b.

End SmearGenParticles.

(** A sample collection: an electron, a photon, a negative pion recorded
    with charge 0, and a smearing tool that counts its calls and doubles
    every component. *)
Definition sample_generated : list (@EdmMCParticle Z nat) :=
  [ {| getCharge := -1; getPDG := 11; getMomentum := {| vx := 1; vy := 2; vz := 3 |};
       others := 0%nat |};
    {| getCharge := 0; getPDG := 22; getMomentum := {| vx := 4; vy := 5; vz := 6 |};
       others := 1%nat |};
    {| getCharge := 0; getPDG := -211; getMomentum := {| vx := 7; vy := 8; vz := 9 |};
       others := 2%nat |} ].

Definition sample_smearing (calls : nat) (mom : @Hep3Vector Z) (pdg : Z) : nat * @Hep3Vector Z :=
  (S calls, {| hx := 2 * hx mom; hy := 2 * hy mom; hz := 2 * hz mom |}).

Definition sample_nonzero (charge : Z) : bool := negb (charge =? 0).

(** * The Papas algorithm: [PapasAlg::execute] *)










Section MothersFirst.

Context {double : Type}.

(** ** Genealogies listed mothers first *)

(** Every candidate with a mother range names a single mother, listed before
    it, whose daughter range contains it; every candidate with a daughter
    range lists its daughters after itself, inside the array, and each of
    them names it as its mother. *)
Definition mothers_first (Input : list (@Candidate double)) : Prop :=
  forall (j : nat) cand,
    Input !! j = Some cand ->
    (M1 cand <> -1 ->
     M2 cand = M1 cand /\ 0 <= M1 cand < Z.of_nat j /\
     exists mother,
       Input !! Z.to_nat (M1 cand) = Some mother /\
       D1 mother <> -1 /\ D1 mother <= Z.of_nat j <= D2 mother) /\
    (D1 cand <> -1 ->
     Z.of_nat j < D1 cand < Z.of_nat (length Input) /\
     D2 cand < Z.of_nat (length Input) /\
     forall (d : nat) daughter,
       D1 cand <= Z.of_nat d <= D2 cand -> Input !! d = Some daughter ->
       M1 daughter = Z.of_nat j).

(** The production entry the side table holds for a candidate once the
    candidates before position [j] have been visited: its mother, when the
    mother has been visited. *)
Definition expected_production (j : nat) (cand : @Candidate double) : Z :=
  if decide (0 <= M1 cand < Z.of_nat j) then M1 cand else -1.

(** The vertices the decay block creates for the candidates of [l], in
    order: one for every candidate with a daughter range, at the position of
    its first daughter and with the candidate's own time. *)
Definition decay_vertices (Input l : list (@Candidate double)) : list (@GenVertex double) :=
  omap (fun cand =>
          if decide (D1 cand <> -1) then
            daughter ← vec_at Input (D1 cand);
            Some {| vPosition := point_of (Position daughter); Ctau := T (Position cand) |}
          else None) l.

(** What holds before the candidate at position [j] of a mothers-first input
    is visited. *)
Definition family_state (Input : list (@Candidate double)) (j : nat)
    (st : @BuilderState double) : Prop :=
  length (vecPartProdVtxIDDecVtxID st) = length Input /\
  length (colMCParticles st) = j /\
  (forall (i : nat) s cand,
     vecPartProdVtxIDDecVtxID st !! i = Some s -> Input !! i = Some cand ->
     s.1 = expected_production j cand /\ ((j <= i)%nat -> s.2 = -1)) /\
  (forall (i : nat) particle cand,
     colMCParticles st !! i = Some particle -> Input !! i = Some cand ->
     (D1 cand <> -1 ->
      EndVertex particle = Some (length (decay_vertices Input (take i Input)))) /\
     (M1 cand <> -1 ->
      is_Some (StartVertex particle) /\
      exists mother,
        colMCParticles st !! Z.to_nat (M1 cand) = Some mother /\
        EndVertex mother = StartVertex particle)) /\
  colGenVertices st = decay_vertices Input (take j Input) /\
  length (colGenVertices st) =
    length (filter (fun cand => D1 cand <> -1) (take j Input)).

End MothersFirst.

(** A mother whose daughter range [1, 5] runs past the end of a two-entry
    candidate array. *)
Definition daughters_past_the_end : list (@Candidate Z) :=
  [ genealogy_candidate (-1) (-1) 1 5 5 50;
    genealogy_candidate 0 0 (-1) (-1) 10 100 ].

(** Two generations, mothers first: the candidate at position 0 decays into
    those at positions 1 and 2, and the one at position 1 into the one at
    position 3. *)
Definition two_generations : list (@Candidate Z) :=
  [ genealogy_candidate (-1) (-1) 1 2 5 50;
    genealogy_candidate 0 0 3 3 10 100;
    genealogy_candidate 0 0 (-1) (-1) 10 100;
    genealogy_candidate 1 1 (-1) (-1) 20 200 ].

(** * Properties *)

(** ** Machine integers and container accesses *)

Lemma index_of_uid_one_based (uid : Z) :
  one_based uid -> index_of_uid uid = uid - 1.
Proof.
  unfold one_based, index_of_uid, to_int. intros [Hlo Hhi].
  rewrite (Z.mod_small (uid - 1)) by lia.
  rewrite Z.mod_small by lia. lia.
Qed.




Lemma vec_at_in_range {A : Type} (v : list A) (i : Z) :
  0 <= i < Z.of_nat (length v) -> exists x, vec_at v i = Some x.
Proof.
  intros [Hlo Hhi]. unfold vec_at.
  destruct (Z.ltb_spec i 0) as [?|_]; [lia|].
  destruct (lookup_lt_is_Some_2 v (Z.to_nat i)) as [x Hx]; [lia|eauto].
Qed.

Lemma vec_at_lookup {A : Type} (v : list A) (i : Z) (x : A) :
  vec_at v i = Some x -> v !! Z.to_nat i = Some x.
Proof. unfold vec_at. destruct (i <? 0); [discriminate|auto]. Qed.

(** [at(i)] finds an element exactly when [i] lies in [0, size). *)
Lemma vec_at_Some_range {A : Type} (v : list A) (i : Z) (x : A) :
  vec_at v i = Some x -> 0 <= i < Z.of_nat (length v).
Proof.
  unfold vec_at. destruct (Z.ltb_spec i 0) as [|Hi]; [discriminate|].
  intros Hx. apply lookup_lt_Some in Hx. lia.
Qed.


(** ** Hit counting and linking of the photon converter *)

Lemma truth_index_one_based (N uid : Z) :
  one_based uid -> truth_index N (uid - 1) = (index_of_uid uid <? N).
Proof.
  intros H. rewrite (index_of_uid_one_based uid H). unfold truth_index, one_based in *.
  destruct (Z.leb_spec 0 (uid - 1)); [done|lia].
Qed.

Lemma truth_index_bounds (N i : Z) : truth_index N i = true <-> 0 <= i < N.
Proof. unfold truth_index. rewrite andb_true_iff, Z.leb_le, Z.ltb_lt. done. Qed.

Lemma filter_below_one_based (N : Z) (uids : list Z) :
  Forall one_based uids ->
  filter (fun i => i < N) (map index_of_uid uids) =
  filter (fun i => truth_index N i = true) (map (fun uid => uid - 1) uids).
Proof.
  induction 1 as [|uid uids Huid _ IH]; [done|].
  cbn [map]. rewrite !filter_cons, IH, (truth_index_one_based N uid Huid).
  rewrite (index_of_uid_one_based uid Huid).
  destruct (Z.ltb_spec (uid - 1) N); repeat case_decide; done || lia.
Qed.

Lemma count_cascade_length (N : Z) (ref2Particles : list Z) (n : Z) :
  count_cascade N ref2Particles n =
  n + Z.of_nat (length (filter (fun i => i < N) (map index_of_uid ref2Particles))).
Proof.
  unfold count_cascade. revert n.
  induction ref2Particles as [|uid l IH]; intros n; cbn [fold_left map]; [simpl; lia|].
  rewrite IH, filter_cons.
  destruct (Z.ltb_spec (index_of_uid uid) N); case_decide; try lia; simpl length; lia.
Qed.

Lemma count_refs_acc (N : Z) (refParticles : list RefCandidate) (a b : Z) :
  refs_one_based refParticles ->
  fold_left
    (fun c r =>
       if index_of_uid (UniqueID r) <? N then (c.1 + 1, c.2)
       else (c.1, count_cascade N (RefCandidates r) c.2))
    refParticles (a, b) =
  (a + Z.of_nat (direct_hits N refParticles), b + Z.of_nat (cascade_hits N refParticles)).
Proof.
  unfold direct_hits, cascade_hits, direct_hit_list, cascade_hit_list.
  intros Hrefs. revert a b.
  induction Hrefs as [|r refs [Hr Hsub] _ IH]; intros a b.
  - cbn. f_equal; lia.
  - cbn [fold_left fst snd flat_map].
    rewrite filter_cons, (truth_index_one_based N _ Hr).
    destruct (Z.ltb_spec (index_of_uid (UniqueID r)) N) as [Hlt|Hge].
    + rewrite decide_True by done. rewrite IH. cbn [length app]. f_equal; lia.
    + rewrite decide_False by done. rewrite IH, count_cascade_length.
      rewrite (filter_below_one_based N _ Hsub), length_app. f_equal; lia.
Qed.

(** The counters of the first loop are the specification's hit counts, for
    identifiers in the 1-based numbering. *)
Lemma count_refs_hits (N : Z) (refParticles : list RefCandidate) :
  refs_one_based refParticles ->
  count_refs N refParticles =
  (Z.of_nat (direct_hits N refParticles), Z.of_nat (cascade_hits N refParticles)).
Proof. intros H. unfold count_refs. by rewrite count_refs_acc. Qed.

(** For identifiers in the 1-based numbering the indices the loops find
    below [N] are the truth hits. *)
Lemma indices_below_one_based (N : Z) (refParticles : list RefCandidate) :
  refs_one_based refParticles ->
  indices_below N refParticles = truth_hits N refParticles.
Proof.
  unfold indices_below, truth_hits.
  induction 1 as [|r refs [Hr Hsub] _ IH]; [done|].
  cbn [flat_map]. rewrite IH, (truth_index_one_based N _ Hr).
  rewrite (index_of_uid_one_based _ Hr).
  destruct (UniqueID r - 1 <? N); [done|].
  by rewrite (filter_below_one_based N _ Hsub).
Qed.

(** The truth hits are the direct and the cascade hits together. *)
Lemma truth_hits_length (N : Z) (refParticles : list RefCandidate) :
  length (truth_hits N refParticles) =
  (direct_hits N refParticles + cascade_hits N refParticles)%nat.
Proof.
  unfold truth_hits, direct_hits, cascade_hits, direct_hit_list, cascade_hit_list.
  induction refParticles as [|r refs IH]; [done|].
  cbn [flat_map]. rewrite filter_cons, !length_app, IH.
  destruct (truth_index N (UniqueID r - 1)).
  - rewrite decide_True by done. cbn. lia.
  - rewrite decide_False by done. lia.
Qed.

(** Without a direct hit the truth hits are the cascade hits. *)
Lemma truth_hits_cascade (N : Z) (refParticles : list RefCandidate) :
  direct_hits N refParticles = 0%nat ->
  truth_hits N refParticles = cascade_hit_list N refParticles.
Proof.
  unfold direct_hits, direct_hit_list, truth_hits, cascade_hit_list.
  induction refParticles as [|r refs IH]; [done|].
  cbn [flat_map]. rewrite filter_cons.
  destruct (truth_index N (UniqueID r - 1)).
  - rewrite decide_True by done. done.
  - rewrite decide_False by done. intros H0. by rewrite IH.
Qed.

Lemma truth_hits_range (N : Z) (refParticles : list RefCandidate) :
  Forall (fun i => 0 <= i < N) (truth_hits N refParticles).
Proof.
  unfold truth_hits. apply Forall_forall. intros i Hi.
  apply list_elem_of_In, in_flat_map in Hi. destruct Hi as (r & _ & Hi).
  destruct (truth_index N (UniqueID r - 1)) eqn:Hr.
  - destruct Hi as [<-|[]]. by apply truth_index_bounds.
  - apply list_elem_of_In, list_elem_of_filter in Hi. destruct Hi as [Hi _].
    by apply truth_index_bounds.
Qed.

(** A cascade hit is the decremented identifier of a second-level entry of a
    first-level entry that is no direct hit. *)
Lemma cascade_hit_list_origin (N : Z) (refParticles : list RefCandidate) (i : Z) :
  In i (cascade_hit_list N refParticles) ->
  0 <= i < N /\
  exists r uid,
    In r refParticles /\ truth_index N (UniqueID r - 1) = false /\
    In uid (RefCandidates r) /\ i = uid - 1.
Proof.
  unfold cascade_hit_list. rewrite in_flat_map. intros (r & Hr & Hi).
  destruct (truth_index N (UniqueID r - 1)) eqn:Hdirect; [done|].
  apply list_elem_of_In, list_elem_of_filter in Hi.
  destruct Hi as [Hi Hin]. apply list_elem_of_fmap in Hin.
  destruct Hin as (uid & -> & Huid).
  split; [by apply truth_index_bounds|].
  exists r, uid. split; [done|]. split; [done|]. split; [|done].
  by apply list_elem_of_In.
Qed.

Lemma count_refs_total (N : Z) (refParticles : list RefCandidate) :
  (count_refs N refParticles).1 + (count_refs N refParticles).2 =
  Z.of_nat (length (indices_below N refParticles)).
Proof.
  unfold count_refs, indices_below.
  assert (forall refs a b,
    let c := fold_left
      (fun c r =>
         if index_of_uid (UniqueID r) <? N then (c.1 + 1, c.2)
         else (c.1, count_cascade N (RefCandidates r) c.2)) refs (a, b) in
    c.1 + c.2 = a + b + Z.of_nat (length (flat_map
      (fun r => if index_of_uid (UniqueID r) <? N then [index_of_uid (UniqueID r)]
                else filter (fun i => i < N) (map index_of_uid (RefCandidates r))) refs))) as H.
  { induction refs as [|r refs IH]; intros a b; [cbn; lia|].
    cbn [fold_left flat_map fst snd]. rewrite length_app.
    destruct (Z.ltb_spec (index_of_uid (UniqueID r)) N).
    - cbn zeta in IH. rewrite IH. simpl length. lia.
    - cbn zeta in IH. rewrite IH, count_cascade_length. lia. }
  specialize (H refParticles 0 0). cbn zeta in H. rewrite H. lia.
Qed.

Lemma count_refs_first_level (N : Z) (refParticles : list RefCandidate) :
  (count_refs N refParticles).1 =
  Z.of_nat (length (filter (fun r => index_of_uid (UniqueID r) < N) refParticles)).
Proof.
  unfold count_refs.
  assert (forall refs a b,
    (fold_left
       (fun c r =>
          if index_of_uid (UniqueID r) <? N then (c.1 + 1, c.2)
          else (c.1, count_cascade N (RefCandidates r) c.2)) refs (a, b)).1 =
    a + Z.of_nat (length (filter (fun r => index_of_uid (UniqueID r) < N) refs))) as H.
  { induction refs as [|r refs IH]; intros a b; [cbn; lia|].
    cbn [fold_left fst snd]. rewrite filter_cons.
    destruct (Z.ltb_spec (index_of_uid (UniqueID r)) N).
    - rewrite decide_True by done. rewrite IH. cbn [length]. lia.
    - rewrite decide_False by lia. apply IH. }
  rewrite H. lia.
Qed.

Lemma count_refs_cascade_nonneg (N : Z) (refParticles : list RefCandidate) :
  0 <= (count_refs N refParticles).2.
Proof.
  unfold count_refs.
  assert (forall l a b, 0 <= b ->
    0 <= (fold_left
       (fun c r =>
          if index_of_uid (UniqueID r) <? N then (c.1 + 1, c.2)
          else (c.1, count_cascade N (RefCandidates r) c.2)) l (a, b)).2) as H.
  { induction l as [|r l IH]; intros a b Hb; [done|].
    cbn [fold_left fst snd]. destruct (_ <? N); apply IH; [done|].
    rewrite count_cascade_length. lia. }
  apply H. lia.
Qed.

Lemma indices_below_below (N : Z) (refParticles : list RefCandidate) :
  Forall (fun i => i < N) (indices_below N refParticles).
Proof.
  unfold indices_below. apply Forall_forall. intros i Hi.
  apply list_elem_of_In, in_flat_map in Hi. destruct Hi as (r & _ & Hi).
  destruct (Z.ltb_spec (index_of_uid (UniqueID r)) N).
  - destruct Hi as [<-|[]]. done.
  - apply list_elem_of_In, list_elem_of_filter in Hi. by destruct Hi.
Qed.

Lemma indices_below_nonneg (N : Z) (refParticles : list RefCandidate) :
  refs_one_based refParticles ->
  Forall (fun i => 0 <= i) (indices_below N refParticles).
Proof.
  intros Hone. rewrite (indices_below_one_based N _ Hone).
  eapply Forall_impl; [apply truth_hits_range|]. intros i Hi. cbn in Hi. lia.
Qed.

Section Linking.

Context {double : Type}.

Implicit Types (colMC : list (@MCParticle double)) (s : Z * Association).

Lemma link_all_app colMC (particle : nat) (l1 l2 : list Z) s :
  link_all colMC particle (l1 ++ l2) s =
  and_then (link_all colMC particle l1 s) (link_all colMC particle l2).
Proof.
  revert s. induction l1 as [|i l1 IH]; intros s; [done|].
  cbn [app link_all]. destruct (link_to colMC particle i s); cbn [and_then]; [apply IH|done].
Qed.

(** The inner loop makes the calls for the second-level indices below the
    size. *)
Lemma link_cascade_calls colMC (particle : nat) (ref2Particles : list Z) s :
  link_cascade colMC particle ref2Particles s =
  link_all colMC particle
    (filter (fun i => i < Z.of_nat (length colMC)) (map index_of_uid ref2Particles)) s.
Proof.
  revert s. induction ref2Particles as [|uid l IH]; intros s; [done|].
  cbn [link_cascade map]. rewrite filter_cons.
  destruct (Z.ltb_spec (index_of_uid uid) (Z.of_nat (length colMC))).
  - rewrite decide_True by done. cbn [link_all].
    destruct (link_to colMC particle (index_of_uid uid) s); cbn [and_then]; [apply IH|done].
  - rewrite decide_False by lia. apply IH.
Qed.

(** The linking loop makes the calls for the indices below the size, in the
    order of [indices_below]. *)
Lemma link_refs_from_calls colMC (particle : nat) (refParticles : list RefCandidate) s :
  link_refs_from colMC particle refParticles s =
  link_all colMC particle (indices_below (Z.of_nat (length colMC)) refParticles) s.
Proof.
  revert s. induction refParticles as [|r refs IH]; intros s; [done|].
  cbn [link_refs_from indices_below flat_map]. rewrite link_all_app.
  destruct (Z.ltb_spec (index_of_uid (UniqueID r)) (Z.of_nat (length colMC))).
  - cbn [link_all].
    destruct (link_to colMC particle (index_of_uid (UniqueID r)) s); cbn [and_then];
      [apply IH|done].
  - rewrite link_cascade_calls.
    destruct (link_all colMC particle _ s); cbn [and_then]; [apply IH|done].
Qed.

(** Calls for indices inside the collection all return, and leave the record
    linked to the last of them. *)
Lemma link_all_inside colMC (particle : nat) (indices : list Z) s :
  Forall (fun i => 0 <= i < Z.of_nat (length colMC)) indices ->
  link_all colMC particle indices s =
  Returned match last indices with
           | Some i => (i, {| Rec := Some particle; Sim := Some i |})
           | None => s
           end.
Proof.
  intros Hin. revert s. induction Hin as [|i l Hi _ IH]; intros s; [done|].
  cbn [link_all]. unfold link_to.
  destruct (vec_at_in_range colMC i Hi) as [x ->]. cbn [and_then].
  rewrite IH, last_cons. by destruct (last l).
Qed.


End Linking.

Section Properties.

Context {double : Type}.
Variable double_of_int : Z -> double.

Implicit Types (cand : @Candidate double) (st : @BuilderState double).

(** ** The jet converter *)

Lemma ConvertJets_snoc (Input : list (@Jet double)) (cand : @Jet double) colJets :
  ConvertJets double_of_int (Input ++ [cand]) colJets =
  ConvertJets_body double_of_int cand (ConvertJets double_of_int Input colJets).
Proof. unfold ConvertJets. by rewrite fold_left_app. Qed.

Lemma ConvertJets_length (Input : list (@Jet double)) colJets :
  length (ConvertJets double_of_int Input colJets) = (length colJets + length Input)%nat.
Proof.
  induction Input as [|cand Input IH] using rev_ind.
  - simpl. lia.
  - rewrite ConvertJets_snoc. unfold ConvertJets_body.
    rewrite !length_app, IH. simpl. lia.
Qed.

Lemma ConvertJets_prefix (Input : list (@Jet double)) colJets (i : nat) :
  (i < length colJets)%nat ->
  ConvertJets double_of_int Input colJets !! i = colJets !! i.
Proof.
  intros Hi. induction Input as [|cand Input IH] using rev_ind; [done|].
  rewrite ConvertJets_snoc. unfold ConvertJets_body.
  rewrite lookup_app_l; [done|]. rewrite ConvertJets_length. lia.
Qed.

(** C9.  The jet converter appends exactly one jet per entry of the input
    array (the collection grows by the length of the input and keeps what it
    held), and the jet emitted for entry [j] carries the entry's [P4()]
    components as [Px, Py, Pz], its [Mass], and the area [-1]. *)
Theorem ConvertJets_one_jet_per_entry (Input : list (@Jet double)) (colJets : list BareJet) :
  length (ConvertJets double_of_int Input colJets) = (length colJets + length Input)%nat /\
  (forall i, (i < length colJets)%nat ->
     ConvertJets double_of_int Input colJets !! i = colJets !! i) /\
  (forall (j : nat) (cand : @Jet double),
     Input !! j = Some cand ->
     exists jet,
       ConvertJets double_of_int Input colJets !! (length colJets + j)%nat = Some jet /\
       lvPx (jetCoreP4 jet) = X (JetP4 cand) /\
       lvPy (jetCoreP4 jet) = Y (JetP4 cand) /\
       lvPz (jetCoreP4 jet) = Z_ (JetP4 cand) /\
       lvMass (jetCoreP4 jet) = JetMass cand /\
       Area jet = double_of_int (-1)).
Proof.
  split; [apply ConvertJets_length|]. split; [intros; by apply ConvertJets_prefix|].
  induction Input as [|last Input IH] using rev_ind; intros j cand Hj.
  - by rewrite lookup_nil in Hj.
  - rewrite ConvertJets_snoc. unfold ConvertJets_body.
    destruct (decide (j < length Input)%nat) as [Hlt|Hge].
    + rewrite lookup_app_l in Hj by done.
      destruct (IH j cand Hj) as (jet & Hjet & Hrest).
      exists jet. split; [|exact Hrest].
      rewrite lookup_app_l; [done|]. rewrite ConvertJets_length. lia.
    + assert (j = length Input) as ->.
      { apply lookup_lt_Some in Hj. rewrite length_app in Hj. simpl in Hj. lia. }
      rewrite list_lookup_middle in Hj by done. injection Hj as ->.
      eexists. split.
      * apply list_lookup_middle. by rewrite ConvertJets_length.
      * simpl. done.
Qed.

(** ** The genealogy graph builder *)

Lemma slot_below_mono (b b' : Z) (s : Z * Z) :
  b <= b' -> slot_below b s -> slot_below b' s.
Proof. unfold slot_below. lia. Qed.

Lemma set_StartVertex_Core (p : nat) (v : option nat) (col : list (@MCParticle double)) :
  Core <$> set_StartVertex p v col = Core <$> col.
Proof.
  unfold set_StartVertex. revert p.
  induction col as [|q col IH]; intros [|p]; try done.
  cbn. f_equal. apply IH.
Qed.

Lemma set_EndVertex_Core (p : nat) (v : option nat) (col : list (@MCParticle double)) :
  Core <$> set_EndVertex p v col = Core <$> col.
Proof.
  unfold set_EndVertex. revert p.
  induction col as [|q col IH]; intros [|p]; try done.
  cbn. f_equal. apply IH.
Qed.

Lemma mark_mothers_in_bounds (n : nat) (iMother j b : Z) (vec : list (Z * Z)) :
  0 <= iMother -> iMother + Z.of_nat n <= Z.of_nat (length vec) ->
  0 <= j < b -> Forall (slot_below b) vec ->
  exists vec', mark_mothers n iMother j vec = Some vec' /\
               length vec' = length vec /\ Forall (slot_below b) vec'.
Proof.
  revert iMother vec.
  induction n as [|n IH]; intros iMother vec Hlo Hhi Hj Hvec; [by exists vec|].
  destruct (vec_at_in_range vec iMother) as [s Hs]; [lia|].
  cbn [mark_mothers]. rewrite Hs. cbn [mbind option_bind].
  assert (slot_below b s) as [Hs1 Hs2].
  { eapply Forall_lookup_1; [exact Hvec|]. by apply vec_at_lookup. }
  destruct (s.2 =? -1).
  - destruct (IH (iMother + 1) (vec_set vec iMother (s.1, j))) as (vec' & Hrun & Hlen & Hall).
    + lia.
    + unfold vec_set. rewrite length_insert. lia.
    + done.
    + unfold vec_set. apply Forall_insert; [done|]. split; simpl; [done|lia].
    + exists vec'. split; [done|]. split; [|done].
      rewrite Hlen. unfold vec_set. by rewrite length_insert.
  - apply IH; [lia|lia|done|done].
Qed.

Lemma mark_daughters_in_bounds (n : nat) (iDaughter j b : Z) (vec : list (Z * Z)) :
  iDaughter + Z.of_nat n <= Z.of_nat (length vec) ->
  0 <= j < b -> Forall (slot_below b) vec ->
  exists vec', mark_daughters n iDaughter j vec = Some vec' /\
               length vec' = length vec /\ Forall (slot_below b) vec'.
Proof.
  revert iDaughter vec.
  induction n as [|n IH]; intros iDaughter vec Hhi Hj Hvec; [by exists vec|].
  cbn [mark_daughters].
  destruct (Z.leb_spec 0 iDaughter) as [Hlo|Hneg].
  - destruct (vec_at_in_range vec iDaughter) as [s Hs]; [lia|].
    rewrite Hs. cbn [mbind option_bind].
    assert (slot_below b s) as [Hs1 Hs2].
    { eapply Forall_lookup_1; [exact Hvec|]. by apply vec_at_lookup. }
    destruct (s.2 =? -1).
    + destruct (IH (iDaughter + 1) (vec_set vec iDaughter (j, s.2))) as (vec' & Hrun & Hlen & Hall).
      * unfold vec_set. rewrite length_insert. lia.
      * done.
      * unfold vec_set. apply Forall_insert; [done|]. split; simpl; [lia|done].
      * exists vec'. split; [done|]. split; [|done].
        rewrite Hlen. unfold vec_set. by rewrite length_insert.
    + apply IH; [lia|done|done].
  - cbn [mbind option_bind]. apply IH; [lia|done|done].
Qed.

Lemma production_vertex_in_bounds cand (j b : Z) (p : nat) (idPartStartVertex : Z) st :
  (M1 cand = -1 \/
   (0 <= M1 cand /\ M2 cand < Z.of_nat (length (vecPartProdVtxIDDecVtxID st)))) ->
  (idPartStartVertex = -1 \/
   0 <= idPartStartVertex < Z.of_nat (length (colMCParticles st))) ->
  0 <= j < b -> Forall (slot_below b) (vecPartProdVtxIDDecVtxID st) ->
  exists st', production_vertex cand j p idPartStartVertex st = Some st' /\
    length (vecPartProdVtxIDDecVtxID st') = length (vecPartProdVtxIDDecVtxID st) /\
    Forall (slot_below b) (vecPartProdVtxIDDecVtxID st') /\
    Core <$> colMCParticles st' = Core <$> colMCParticles st.
Proof.
  intros HM Hid Hj Hvec. unfold production_vertex.
  destruct (Z.eqb_spec (M1 cand) (-1)) as [|HM1]; [by exists st|].
  destruct HM as [|[HM1lo HM2]]; [done|].
  assert (exists vec', mark_mothers (trip_count (M1 cand) (M2 cand)) (M1 cand) j
                         (vecPartProdVtxIDDecVtxID st) = Some vec' /\
            length vec' = length (vecPartProdVtxIDDecVtxID st) /\
            Forall (slot_below b) vec') as (vec' & Hrun & Hlen & Hall).
  { destruct (trip_count (M1 cand) (M2 cand)) as [|k] eqn:Hk; [by eexists|].
    rewrite <- Hk. apply mark_mothers_in_bounds; [done| |done|done].
    unfold trip_count in *. lia. }
  destruct (Z.eqb_spec idPartStartVertex (-1)) as [|Hne]; cbn [negb].
  - cbn [mbind option_bind vecPartProdVtxIDDecVtxID]. rewrite Hrun.
    eexists. split; [done|]. cbn. by rewrite set_StartVertex_Core.
  - destruct Hid as [|Hid]; [done|].
    destruct (vec_at_in_range (colMCParticles st) idPartStartVertex) as [m Hm]; [done|].
    rewrite Hm. cbn [mbind option_bind vecPartProdVtxIDDecVtxID]. rewrite Hrun.
    eexists. split; [done|]. cbn. by rewrite set_StartVertex_Core.
Qed.

Lemma decay_vertex_in_bounds (Input : list (@Candidate double)) cand (j b : Z) (p : nat)
    (idPartEndVertex : Z) st :
  length (vecPartProdVtxIDDecVtxID st) = length Input ->
  (D1 cand = -1 \/
   (0 <= D1 cand < Z.of_nat (length Input) /\ D2 cand < Z.of_nat (length Input))) ->
  (idPartEndVertex = -1 \/
   0 <= idPartEndVertex < Z.of_nat (length (colMCParticles st))) ->
  0 <= j < b -> Forall (slot_below b) (vecPartProdVtxIDDecVtxID st) ->
  exists st', decay_vertex Input cand j p idPartEndVertex st = Some st' /\
    length (vecPartProdVtxIDDecVtxID st') = length (vecPartProdVtxIDDecVtxID st) /\
    Forall (slot_below b) (vecPartProdVtxIDDecVtxID st') /\
    Core <$> colMCParticles st' = Core <$> colMCParticles st.
Proof.
  intros Hn HD Hid Hj Hvec. unfold decay_vertex.
  destruct (Z.eqb_spec (D1 cand) (-1)) as [|HD1]; [by exists st|].
  destruct HD as [|[HD1lo HD2]]; [done|].
  assert (exists vec', mark_daughters (trip_count (D1 cand) (D2 cand)) (D1 cand) j
                         (vecPartProdVtxIDDecVtxID st) = Some vec' /\
            length vec' = length (vecPartProdVtxIDDecVtxID st) /\
            Forall (slot_below b) vec') as (vec' & Hrun & Hlen & Hall).
  { destruct (trip_count (D1 cand) (D2 cand)) as [|k] eqn:Hk; [by eexists|].
    rewrite <- Hk. apply mark_daughters_in_bounds; [|done|done].
    unfold trip_count in *. lia. }
  destruct (Z.eqb_spec idPartEndVertex (-1)) as [|Hne]; cbn [negb].
  - destruct (vec_at_in_range Input (D1 cand)) as [daughter Hd]; [done|].
    rewrite Hd. cbn [mbind option_bind vecPartProdVtxIDDecVtxID]. rewrite Hrun.
    eexists. split; [done|]. cbn. by rewrite set_EndVertex_Core.
  - destruct Hid as [|Hid]; [done|].
    destruct (vec_at_in_range (colMCParticles st) idPartEndVertex) as [m Hm]; [done|].
    rewrite Hm. cbn [mbind option_bind vecPartProdVtxIDDecVtxID]. rewrite Hrun.
    eexists. split; [done|]. cbn. by rewrite set_EndVertex_Core.
Qed.

Lemma ConvertMCParticles_body_invariant (Input : list (@Candidate double)) (j : nat) cand st :
  Input !! j = Some cand ->
  ranges_in_bounds (Z.of_nat (length Input)) cand ->
  builder_invariant Input j st ->
  exists st', ConvertMCParticles_body Input j cand st = Some st' /\
              builder_invariant Input (S j) st'.
Proof.
  intros Hj [HM HD] (Hlen & Hvec & Hcore).
  pose proof (lookup_lt_Some _ _ _ Hj) as Hjn.
  assert (length (colMCParticles st) = j) as Hcol.
  { rewrite <- (length_fmap Core), Hcore, length_fmap, length_take. lia. }
  unfold ConvertMCParticles_body.
  destruct (vec_at_in_range (vecPartProdVtxIDDecVtxID st) (Z.of_nat j)) as [s Hs]; [lia|].
  rewrite Hs. cbn [mbind option_bind].
  assert (slot_below (Z.of_nat j) s) as [Hs1 Hs2].
  { eapply Forall_lookup_1; [exact Hvec|]. by apply vec_at_lookup. }
  set (st0 := {| vecPartProdVtxIDDecVtxID := vecPartProdVtxIDDecVtxID st;
                 colMCParticles := colMCParticles st ++ _;
                 colGenVertices := colGenVertices st |}).
  destruct (production_vertex_in_bounds cand (Z.of_nat j) (Z.of_nat (S j))
              (length (colMCParticles st)) s.1 st0)
    as (st1 & Hrun1 & Hlen1 & Hvec1 & Hcore1).
  { subst st0; cbn. rewrite Hlen. done. }
  { subst st0; cbn. rewrite length_app. simpl. lia. }
  { lia. }
  { subst st0; cbn. eapply Forall_impl; [exact Hvec|].
    intros x. apply slot_below_mono. lia. }
  rewrite Hrun1. cbn [mbind option_bind].
  assert (length (colMCParticles st1) = S j) as Hcol1.
  { rewrite <- (length_fmap Core), Hcore1. subst st0; cbn.
    rewrite length_fmap, length_app. simpl. lia. }
  destruct (decay_vertex_in_bounds Input cand (Z.of_nat j) (Z.of_nat (S j))
              (length (colMCParticles st)) s.2 st1)
    as (st2 & Hrun2 & Hlen2 & Hvec2 & Hcore2).
  { rewrite Hlen1. subst st0; cbn. done. }
  { done. }
  { lia. }
  { lia. }
  { done. }
  exists st2. split; [done|]. split; [|split; [done|]].
  - rewrite Hlen2, Hlen1. subst st0; cbn. done.
  - rewrite Hcore2, Hcore1. subst st0; cbn.
    rewrite fmap_app, Hcore. by rewrite (take_S_r _ _ _ Hj), fmap_app.
Qed.

Lemma ConvertMCParticles_loop_invariant (Input todo : list (@Candidate double)) (j : nat) st :
  drop j Input = todo -> (j <= length Input)%nat ->
  Forall (ranges_in_bounds (Z.of_nat (length Input))) Input ->
  builder_invariant Input j st ->
  exists st', ConvertMCParticles_loop Input todo j st = Some st' /\
              builder_invariant Input (length Input) st'.
Proof.
  revert j st. induction todo as [|cand todo IH]; intros j st Hdrop Hle Hok Hinv.
  - exists st. split; [done|].
    apply drop_nil_inv in Hdrop.
    by replace (length Input) with j by lia.
  - assert (Input !! j = Some cand) as Hj.
    { rewrite <- (Nat.add_0_r j), <- lookup_drop, Hdrop. done. }
    pose proof (lookup_lt_Some _ _ _ Hj) as Hjn.
    destruct (ConvertMCParticles_body_invariant Input j cand st) as (st' & Hrun & Hinv');
      [done| |done|].
    { eapply Forall_lookup_1; [exact Hok|exact Hj]. }
    cbn [ConvertMCParticles_loop]. rewrite Hrun. cbn [mbind option_bind].
    apply IH; [|lia|done|done].
    rewrite (drop_S _ _ _ Hj) in Hdrop. by injection Hdrop.
Qed.

(** The vertex branches only touch the vertex handles of the particles. *)
Lemma production_vertex_Core cand (j : Z) (p : nat) (idPartStartVertex : Z) st st' :
  production_vertex cand j p idPartStartVertex st = Some st' ->
  Core <$> colMCParticles st' = Core <$> colMCParticles st.
Proof.
  unfold production_vertex.
  destruct (M1 cand =? -1); [by intros [= <-]|].
  destruct (negb (idPartStartVertex =? -1)).
  - destruct (vec_at (colMCParticles st) idPartStartVertex) as [m|]; cbn; [|done].
    destruct (mark_mothers _ _ _ _); cbn; [|done].
    intros [= <-]. cbn. apply set_StartVertex_Core.
  - cbn. destruct (mark_mothers _ _ _ _); cbn; [|done].
    intros [= <-]. cbn. apply set_StartVertex_Core.
Qed.

Lemma decay_vertex_Core (Input : list (@Candidate double)) cand (j : Z) (p : nat)
    (idPartEndVertex : Z) st st' :
  decay_vertex Input cand j p idPartEndVertex st = Some st' ->
  Core <$> colMCParticles st' = Core <$> colMCParticles st.
Proof.
  unfold decay_vertex.
  destruct (D1 cand =? -1); [by intros [= <-]|].
  destruct (negb (idPartEndVertex =? -1)).
  - destruct (vec_at (colMCParticles st) idPartEndVertex) as [m|]; cbn; [|done].
    destruct (mark_daughters _ _ _ _); cbn; [|done].
    intros [= <-]. cbn. apply set_EndVertex_Core.
  - destruct (vec_at Input (D1 cand)) as [daughter|]; cbn; [|done].
    destruct (mark_daughters _ _ _ _); cbn; [|done].
    intros [= <-]. cbn. apply set_EndVertex_Core.
Qed.

(** An iteration that completes has appended the core of its candidate and
    left the cores before it untouched. *)
Lemma ConvertMCParticles_body_Core (Input : list (@Candidate double)) (j : nat) cand st st' :
  ConvertMCParticles_body Input j cand st = Some st' ->
  Core <$> colMCParticles st' = (Core <$> colMCParticles st) ++ [genealogy_core cand].
Proof.
  unfold ConvertMCParticles_body.
  destruct (vec_at (vecPartProdVtxIDDecVtxID st) (Z.of_nat j)) as [s|]; cbn; [|done].
  destruct (production_vertex _ _ _ _ _) as [st1|] eqn:H1; cbn; [|done].
  intros H2. apply decay_vertex_Core in H2. apply production_vertex_Core in H1.
  rewrite H2, H1. cbn. by rewrite fmap_app.
Qed.

Lemma ConvertMCParticles_loop_Core (Input todo : list (@Candidate double)) (j : nat) st st' :
  ConvertMCParticles_loop Input todo j st = Some st' ->
  Core <$> colMCParticles st' = (Core <$> colMCParticles st) ++ (genealogy_core <$> todo).
Proof.
  revert j st. induction todo as [|cand todo IH]; intros j st.
  - intros [= <-]. by rewrite app_nil_r.
  - cbn [ConvertMCParticles_loop].
    destruct (ConvertMCParticles_body Input j cand st) as [st1|] eqn:H1; cbn; [|done].
    intros H2. apply IH in H2. apply ConvertMCParticles_body_Core in H1.
    rewrite H2, H1, <- app_assoc. done.
Qed.

(** C6.  The builder runs to completion on every input whose mother and
    daughter ranges stay inside the candidate array, and whenever it runs to
    completion it has emitted one particle per candidate, in input order,
    whose status bit is chosen by first match on the candidate: [Beam] when
    [M1] is [-1] (whatever the daughter range), else [Stable] when [D1] is
    [-1], else [Decayed]. *)
Theorem genealogy_status_first_match (Input : list (@Candidate double)) :
  (Forall (ranges_in_bounds (Z.of_nat (length Input))) Input ->
   is_Some (ConvertMCParticles Input [] [])) /\
  (forall st,
     ConvertMCParticles Input [] [] = Some st ->
     length (colMCParticles st) = length Input /\
     forall (j : nat) cand,
       Input !! j = Some cand ->
       exists particle,
         colMCParticles st !! j = Some particle /\
         (M1 cand = -1 -> Bits (Core particle) = Assigned Beam) /\
         (M1 cand <> -1 -> D1 cand = -1 -> Bits (Core particle) = Assigned Stable) /\
         (M1 cand <> -1 -> D1 cand <> -1 -> Bits (Core particle) = Assigned Decayed)).
Proof.
  split.
  - intros Hok. unfold ConvertMCParticles.
    destruct (ConvertMCParticles_loop_invariant Input Input 0
                {| vecPartProdVtxIDDecVtxID := replicate (length Input) (-1, -1);
                   colMCParticles := []; colGenVertices := [] |})
      as (st & Hrun & _); [done|lia|done| |by exists st].
    unfold builder_invariant. cbn. split; [by rewrite length_replicate|].
    split; [|done]. apply Forall_replicate. split; by left.
  - intros st Hrun. apply ConvertMCParticles_loop_Core in Hrun. cbn in Hrun.
    split; [by rewrite <- (length_fmap Core), Hrun, length_fmap|].
    intros j cand Hj.
    assert ((Core <$> colMCParticles st) !! j = Some (genealogy_core cand)) as Hc.
    { by rewrite Hrun, list_lookup_fmap, Hj. }
    rewrite list_lookup_fmap in Hc.
    destruct (colMCParticles st !! j) as [particle|]; [|done].
    injection Hc as Hc. exists particle. split; [done|].
    rewrite Hc. unfold genealogy_core, genealogy_bits. cbn.
    destruct (Z.eqb_spec (M1 cand) (-1)); destruct (Z.eqb_spec (D1 cand) (-1)); done.
Qed.

End Properties.

(** ** What one step of the builder creates *)

(** The daughter loop only writes at the positions it visits. *)
Lemma mark_daughters_before (n : nat) (iDaughter j : Z) (vec vec' : list (Z * Z)) (k : nat) :
  mark_daughters n iDaughter j vec = Some vec' ->
  Z.of_nat k < iDaughter ->
  vec' !! k = vec !! k.
Proof.
  revert iDaughter vec.
  induction n as [|n IH]; intros iDaughter vec Hrun Hk; [by injection Hrun as <-|].
  cbn [mark_daughters] in Hrun.
  destruct (Z.leb_spec 0 iDaughter); cbn [mbind option_bind] in Hrun;
    [|by apply (IH (iDaughter + 1)); [|lia]].
  destruct (vec_at vec iDaughter) as [s0|]; [|done].
  cbn [mbind option_bind] in Hrun.
  destruct (s0.2 =? -1).
  - rewrite (IH _ _ Hrun) by lia.
    unfold vec_set. apply list_lookup_insert_ne. lia.
  - apply (IH _ _ Hrun). lia.
Qed.

(** Within the daughter range, a slot whose decay entry is unknown gets [j]
    as its production entry. *)
Lemma mark_daughters_marks (n : nat) (iDaughter j : Z) (vec vec' : list (Z * Z))
    (k : nat) (s : Z * Z) :
  mark_daughters n iDaughter j vec = Some vec' ->
  iDaughter <= Z.of_nat k < iDaughter + Z.of_nat n ->
  vec !! k = Some s -> s.2 = -1 ->
  vec' !! k = Some (j, -1).
Proof.
  revert iDaughter vec.
  induction n as [|n IH]; intros iDaughter vec Hrun Hk Hs Hunknown; [lia|].
  cbn [mark_daughters] in Hrun.
  destruct (Z.leb_spec 0 iDaughter); cbn [mbind option_bind] in Hrun;
    [|by apply (IH (iDaughter + 1) vec); [|lia| |]].
  destruct (vec_at vec iDaughter) as [s0|] eqn:Hs0; [|done].
  cbn [mbind option_bind] in Hrun.
  apply vec_at_lookup in Hs0.
  destruct (decide (Z.of_nat k = iDaughter)) as [Heq|Hne].
  - assert (Z.to_nat iDaughter = k) as Hk' by lia. rewrite Hk' in Hs0.
    assert (s0 = s) as -> by congruence.
    rewrite Hunknown in Hrun. cbn [Z.eqb] in Hrun.
    rewrite (mark_daughters_before _ _ _ _ _ k Hrun) by lia.
    unfold vec_set. rewrite Hk'.
    apply list_lookup_insert_eq. by eapply lookup_lt_Some.
  - destruct (s0.2 =? -1).
    + apply (IH _ _ Hrun); [lia| |done].
      unfold vec_set. rewrite list_lookup_insert_ne by lia. done.
    + apply (IH _ _ Hrun); [lia|done|done].
Qed.

Section BuilderSteps.

Context {double : Type}.

Implicit Types (cand : @Candidate double) (st : @BuilderState double).

(** A candidate with a mother range whose production slot is unknown always
    gets a vertex of its own, at its own position and time. *)
Lemma production_vertex_creates cand (j : Z) (p : nat) st st' :
  M1 cand <> -1 ->
  production_vertex cand j p (-1) st = Some st' ->
  colGenVertices st' =
    colGenVertices st ++
    [{| vPosition := point_of (Position cand); Ctau := T (Position cand) |}] /\
  colMCParticles st' =
    set_StartVertex p (Some (length (colGenVertices st))) (colMCParticles st).
Proof.
  intros HM. unfold production_vertex.
  destruct (Z.eqb_spec (M1 cand) (-1)); [done|].
  cbn.
  destruct (mark_mothers (trip_count (M1 cand) (M2 cand)) (M1 cand) j
              (vecPartProdVtxIDDecVtxID st)); cbn; [|done].
  intros [= <-]. done.
Qed.

(** A candidate with a daughter range whose decay slot is unknown gets a new
    end vertex: its position is the position of the first daughter, its time
    is the time of the candidate itself. *)
Lemma decay_vertex_creates (Input : list (@Candidate double)) cand (j : Z) (p : nat) st st' :
  D1 cand <> -1 ->
  decay_vertex Input cand j p (-1) st = Some st' ->
  exists daughter,
    vec_at Input (D1 cand) = Some daughter /\
    colGenVertices st' =
      colGenVertices st ++
      [{| vPosition := point_of (Position daughter); Ctau := T (Position cand) |}] /\
    colMCParticles st' =
      set_EndVertex p (Some (length (colGenVertices st))) (colMCParticles st).
Proof.
  intros HD. unfold decay_vertex.
  destruct (Z.eqb_spec (D1 cand) (-1)); [done|].
  cbn.
  destruct (vec_at Input (D1 cand)) as [daughter|]; cbn; [|done].
  destruct (mark_daughters (trip_count (D1 cand) (D2 cand)) (D1 cand) j
              (vecPartProdVtxIDDecVtxID st)); cbn; [|done].
  intros [= <-]. by exists daughter.
Qed.

(** The daughter loop leaves alone every slot whose decay entry is known,
    whatever its production entry. *)
Lemma mark_daughters_skips_known_decay (n : nat) (iDaughter j : Z)
    (vec vec' : list (Z * Z)) (i : nat) (s : Z * Z) :
  mark_daughters n iDaughter j vec = Some vec' ->
  vec !! i = Some s -> s.2 <> -1 ->
  vec' !! i = Some s.
Proof.
  revert iDaughter vec.
  induction n as [|n IH]; intros iDaughter vec Hrun Hi Hs; [by injection Hrun as <-|].
  cbn [mark_daughters] in Hrun.
  destruct (0 <=? iDaughter); cbn [mbind option_bind] in Hrun; [|by eapply IH].
  destruct (vec_at vec iDaughter) as [s0|] eqn:Hs0; [|done].
  cbn [mbind option_bind] in Hrun.
  destruct (Z.eqb_spec s0.2 (-1)) as [Hunknown|]; [|by eapply IH].
  eapply IH; [exact Hrun| |exact Hs].
  unfold vec_set. rewrite list_lookup_insert_ne; [done|].
  intros <-. apply vec_at_lookup in Hs0. congruence.
Qed.

End BuilderSteps.

(** ** Loops that create one particle and one association record per entry *)

Section EntryLoops.

Context {double A : Type}.
Variable body : nat -> A -> @RecoState double -> Progress (@RecoState double).

Hypothesis body_appends : forall j a st,
  exists particle relation printed,
    colParticles (state_reached (body j a st)) = colParticles st ++ [particle] /\
    ascColParticlesToMC (state_reached (body j a st)) =
      ascColParticlesToMC st ++ [relation] /\
    cout (state_reached (body j a st)) = cout st ++ printed.

Lemma for_entries_app (l1 l2 : list A) (j : nat) st :
  for_entries body (l1 ++ l2) j st =
  and_then (for_entries body l1 j st) (for_entries body l2 (j + length l1)).
Proof.
  revert j st. induction l1 as [|a l1 IH]; intros j st.
  - cbn. by rewrite Nat.add_0_r.
  - cbn [app for_entries length].
    destruct (body j a st) as [s1|s1]; cbn [and_then]; [|done].
    rewrite IH. by replace (S j + length l1)%nat with (j + S (length l1))%nat by lia.
Qed.

(** A run only appends: one particle and one record for every entry it
    started on, all of them when it returns. *)
Lemma for_entries_grows (todo : list A) (j : nat) st :
  exists particles relations printed,
    colParticles (state_reached (for_entries body todo j st)) =
      colParticles st ++ particles /\
    ascColParticlesToMC (state_reached (for_entries body todo j st)) =
      ascColParticlesToMC st ++ relations /\
    cout (state_reached (for_entries body todo j st)) = cout st ++ printed /\
    length relations = length particles /\
    (length particles <= length todo)%nat /\
    (forall out, for_entries body todo j st = Returned out ->
                 length particles = length todo).
Proof.
  revert j st. induction todo as [|a todo IH]; intros j st.
  - exists [], [], []. cbn. by rewrite !app_nil_r.
  - cbn [for_entries].
    destruct (body_appends j a st) as (p & r & w & Hp & Hr & Hw).
    destruct (body j a st) as [s1|s1]; cbn [and_then state_reached] in *.
    + destruct (IH (S j) s1) as (ps & rs & ws & Hps & Hrs & Hws & Hlen & Hle & Hall).
      exists (p :: ps), (r :: rs), (w ++ ws).
      rewrite Hps, Hrs, Hws, Hp, Hr, Hw, <- !app_assoc. cbn.
      split; [done|]. split; [done|]. split; [done|]. split; [lia|]. split; [lia|].
      intros out Hout. by rewrite (Hall out Hout).
    + exists [p], [r], w. cbn. split; [done|]. split; [done|]. split; [done|].
      split; [done|]. split; [lia|]. intros out Hout. done.
Qed.


(** What the iteration on the entry at position [k] appends is found, in the
    collections the run leaves, at the position [k] after what the
    collections held; an iteration that stops ends the run. *)
Lemma for_entries_at (Input : list A) (j : nat) st (k : nat) (a : A) before :
  Input !! k = Some a ->
  for_entries body (take k Input) j st = Returned before ->
  for_entries body (take (S k) Input) j st = body (j + k) a before /\
  length (colParticles before) = (length (colParticles st) + k)%nat /\
  length (ascColParticlesToMC before) = (length (ascColParticlesToMC st) + k)%nat /\
  colParticles (state_reached (for_entries body Input j st))
    !! (length (colParticles st) + k)%nat =
    last (colParticles (state_reached (body (j + k) a before))) /\
  ascColParticlesToMC (state_reached (for_entries body Input j st))
    !! (length (ascColParticlesToMC st) + k)%nat =
    last (ascColParticlesToMC (state_reached (body (j + k) a before))) /\
  (forall after, body (j + k) a before = Stopped after ->
                 for_entries body Input j st = Stopped after) /\
  (forall out, for_entries body Input j st = Returned out ->
               exists after, body (j + k) a before = Returned after).
Proof.
  intros Hk Hbefore.
  pose proof (lookup_lt_Some _ _ _ Hk) as Hkn.
  assert (length (take k Input) = k) as Htake by (rewrite length_take; lia).
  assert (for_entries body (take (S k) Input) j st = body (j + k) a before) as Hafter.
  { rewrite (take_S_r _ _ _ Hk), for_entries_app, Hbefore, Htake. cbn.
    by destruct (body (j + k) a before). }
  destruct (for_entries_grows (take k Input) j st)
    as (ps & rs & ws & Hps & Hrs & _ & Hlen & _ & Hall).
  rewrite Hbefore in Hps, Hrs. cbn [state_reached] in Hps, Hrs.
  specialize (Hall before Hbefore). rewrite Htake in Hall.
  assert (length (colParticles before) = (length (colParticles st) + k)%nat) as L1.
  { rewrite Hps, length_app. lia. }
  assert (length (ascColParticlesToMC before) = (length (ascColParticlesToMC st) + k)%nat)
    as L2.
  { rewrite Hrs, length_app. lia. }
  split; [done|]. split; [done|]. split; [done|].
  assert (for_entries body Input j st =
          and_then (body (j + k) a before)
                   (for_entries body (drop (S k) Input) (j + S k))) as Hrun.
  { rewrite <- (take_drop (S k) Input) at 1. rewrite for_entries_app, Hafter.
    rewrite length_take. by replace (S k `min` length Input)%nat with (S k) by lia. }
  destruct (body_appends (j + k) a before) as (p & r & w & Hp & Hr & _).
  rewrite Hrun, Hp, Hr, !last_snoc.
  destruct (body (j + k) a before) as [s1|s1]; cbn [and_then state_reached] in *.
  - destruct (for_entries_grows (drop (S k) Input) (j + S k) s1)
      as (ps' & rs' & ws' & -> & -> & _).
    rewrite Hp, Hr, <- L1, <- L2, <- !app_assoc.
    split; [by apply list_lookup_middle|]. split; [by apply list_lookup_middle|].
    split; [done|]. intros out _. by exists s1.
  - rewrite Hp, Hr, <- L1, <- L2.
    split; [by apply list_lookup_middle|]. split; [by apply list_lookup_middle|].
    split; [by intros after [= <-]|]. done.
Qed.

(** A particle found at the position [k] after what the collection held was
    appended by the iteration on the entry at position [k]: the run has gone
    through the entries before it. *)
Lemma for_entries_reached (Input : list A) (j : nat) st (k : nat) p :
  colParticles (state_reached (for_entries body Input j st))
    !! (length (colParticles st) + k)%nat = Some p ->
  exists a before,
    Input !! k = Some a /\ for_entries body (take k Input) j st = Returned before.
Proof.
  revert j st k. induction Input as [|a Input IH]; intros j st k Hp.
  - cbn in Hp. apply lookup_lt_Some in Hp. lia.
  - destruct k as [|k]; [by exists a, st|].
    cbn [for_entries] in Hp.
    destruct (body_appends j a st) as (p0 & r0 & w0 & Hp0 & _).
    cbn [take for_entries lookup].
    destruct (body j a st) as [s1|s1]; cbn [and_then state_reached] in *.
    + apply (IH (S j) s1 k).
      rewrite Hp0, length_app. cbn.
      by replace (length (colParticles st) + 1 + k)%nat
        with (length (colParticles st) + S k)%nat by lia.
    + rewrite Hp0 in Hp. apply lookup_lt_Some in Hp. rewrite length_app in Hp.
      cbn in Hp. lia.
Qed.

End EntryLoops.

Section RecoProperties.

Context {double : Type}.
Variable double_of_int : Z -> double.
Variable unlinked_core : option (@BareParticle double).
Variable energy_of : @LorentzVector double -> double.
Variable size_declaration : SizeDeclaration.

Implicit Types (colMC : list (@MCParticle double)) (st : @RecoState double).

Local Abbreviation electron_body :=
  (ConvertParticles_body unlinked_core energy_of size_declaration).
Local Abbreviation electrons := (ConvertParticles unlinked_core energy_of size_declaration).
Local Abbreviation electrons_upto :=
  (ConvertParticles_upto unlinked_core energy_of size_declaration).
Local Abbreviation photons := (ConvertPhotons double_of_int).

(** ** The electron converter *)

(** One iteration of the electron converter, case by case.  The particle and
    the record are appended in every case; the status is [Unmatched], with
    the warning and a record without links, when there is no reference or
    the first one is not below the size; otherwise it is [Matched], and the
    record is linked to the truth particle when [at] finds it, while the run
    stops with [Rec] set and [Sim] unset when it does not. *)
Lemma ConvertParticles_body_cases colMC (j : nat) (cand : @Candidate double) st :
  let particle := length (colParticles st) in
  let N := Z.of_nat (length colMC) in
  exists b r printed,
    state_reached (electron_body colMC j cand st) =
      {| colParticles := colParticles st ++ [bare_of_candidate cand (Assigned b)];
         ascColParticlesToMC := ascColParticlesToMC st ++ [r];
         cout := cout st ++ printed |} /\
    warnings_of printed =
      (if is_unmatched (Assigned b) then [Warning warning_electron] else []) /\
    ((b = Unmatched /\ r = empty_relation /\
      (Candidates cand = [] \/
       exists refCand rest,
         Candidates cand = refCand :: rest /\
         below_size size_declaration (index_of_uid (UniqueID refCand)) N = false) /\
      (is_Some unlinked_core -> exists out, electron_body colMC j cand st = Returned out) /\
      (unlinked_core = None -> exists out, electron_body colMC j cand st = Stopped out)) \/
     (b = Matched /\
      exists refCand rest,
        Candidates cand = refCand :: rest /\
        below_size size_declaration (index_of_uid (UniqueID refCand)) N = true /\
        ((0 <= index_of_uid (UniqueID refCand) < N /\
          r = {| Rec := Some particle; Sim := Some (index_of_uid (UniqueID refCand)) |} /\
          exists out, electron_body colMC j cand st = Returned out) \/
         (~ 0 <= index_of_uid (UniqueID refCand) < N /\
          r = {| Rec := Some particle; Sim := None |} /\
          exists out, electron_body colMC j cand st = Stopped out)))).
Proof.
  intros particle N.
  assert (forall core r printed,
    r = empty_relation ->
    let st1 := {| colParticles := colParticles st ++ [core];
                  ascColParticlesToMC := ascColParticlesToMC st ++ [r];
                  cout := cout st ++ printed |} in
    exists more,
      cout (state_reached
              (print_particle unlinked_core energy_of colMC j
                 match Candidates cand with
                 | refCand :: _ => index_of_uid (UniqueID refCand)
                 | [] => -1
                 end particle (length (ascColParticlesToMC st)) st1)) =
        cout st ++ printed ++ more /\
      warnings_of more = [] /\
      colParticles (state_reached
              (print_particle unlinked_core energy_of colMC j
                 match Candidates cand with
                 | refCand :: _ => index_of_uid (UniqueID refCand)
                 | [] => -1
                 end particle (length (ascColParticlesToMC st)) st1)) =
        colParticles st1 /\
      ascColParticlesToMC (state_reached
              (print_particle unlinked_core energy_of colMC j
                 match Candidates cand with
                 | refCand :: _ => index_of_uid (UniqueID refCand)
                 | [] => -1
                 end particle (length (ascColParticlesToMC st)) st1)) =
        ascColParticlesToMC st1 /\
      (is_Some unlinked_core ->
       exists out, print_particle unlinked_core energy_of colMC j
                 match Candidates cand with
                 | refCand :: _ => index_of_uid (UniqueID refCand)
                 | [] => -1
                 end particle (length (ascColParticlesToMC st)) st1 = Returned out) /\
      (unlinked_core = None ->
       exists out, print_particle unlinked_core energy_of colMC j
                 match Candidates cand with
                 | refCand :: _ => index_of_uid (UniqueID refCand)
                 | [] => -1
                 end particle (length (ascColParticlesToMC st)) st1 = Stopped out)) as Hunlinked.
  { intros core r printed -> st1. unfold print_particle. subst st1 particle.
    cbn [colParticles ascColParticlesToMC cout].
    rewrite !list_lookup_middle by done.
    unfold Rec_Core, Sim_Core. cbn [Rec Sim empty_relation].
    destruct unlinked_core as [c|].
    - eexists [_]. cbn [state_reached cout colParticles ascColParticlesToMC].
      rewrite <- app_assoc. split; [done|]. split; [done|]. split; [done|].
      split; [done|]. split; [by eexists|]. intros ?; done.
    - exists []. cbn [state_reached cout colParticles ascColParticlesToMC].
      rewrite app_nil_r. split; [done|]. split; [done|]. split; [done|].
      split; [done|]. split; [by intros [? ?]|]. by eexists. }
  unfold ConvertParticles_body. fold particle N.
  destruct (Candidates cand) as [|refCand rest] eqn:Hrefs.
  - cbn [and_then].
    destruct (Hunlinked (bare_of_candidate cand (Assigned Unmatched)) empty_relation
                [Warning warning_electron] eq_refl)
      as (more & Hc & Hw & Hp & Hr & Hsome & Hnone).
    exists Unmatched, empty_relation, (Warning warning_electron :: more).
    split.
    { destruct (state_reached _) as [ps rs cs]. cbn in Hc, Hp, Hr. by subst. }
    split; [unfold warnings_of in *; by rewrite filter_cons, decide_True, Hw by done|].
    left. split; [done|]. split; [done|]. split; [by left|]. by split.
  - destruct (below_size size_declaration (index_of_uid (UniqueID refCand)) N) eqn:Hbelow.
    + destruct (vec_at colMC (index_of_uid (UniqueID refCand))) as [mc|] eqn:Hat;
        cbn [and_then].
      * pose proof (vec_at_Some_range _ _ _ Hat) as Hrange.
        unfold print_particle. cbn [colParticles ascColParticlesToMC cout].
        subst particle. rewrite !list_lookup_middle by done.
        unfold Rec_Core, Sim_Core. cbn [Rec Sim colParticles].
        rewrite list_lookup_middle by done. rewrite Hat. cbn [fmap option_fmap option_map].
        exists Matched. eexists. eexists [_].
        cbn [state_reached app]. rewrite app_nil_r.
        split; [done|]. split; [done|]. right. split; [done|].
        exists refCand, rest. split; [done|]. split; [done|]. left.
        split; [done|]. split; [done|]. by eexists.
      * exists Matched. eexists. exists []. cbn [state_reached].
        split; [done|]. split; [done|]. right. split; [done|].
        exists refCand, rest. split; [done|]. split; [done|]. right. split.
        { intros Hrange. destruct (vec_at_in_range colMC _ Hrange) as [x Hx]. congruence. }
        split; [done|]. by eexists.
    + cbn [and_then].
      destruct (Hunlinked (bare_of_candidate cand (Assigned Unmatched)) empty_relation
                  [Warning warning_electron] eq_refl)
        as (more & Hc & Hw & Hp & Hr & Hsome & Hnone).
      exists Unmatched, empty_relation, (Warning warning_electron :: more).
      split.
      { destruct (state_reached _) as [ps rs cs]. cbn in Hc, Hp, Hr. by subst. }
      split; [unfold warnings_of in *; by rewrite filter_cons, decide_True, Hw by done|].
      left. split; [done|]. split; [done|]. split; [|by split].
      right. by exists refCand, rest.
Qed.


Lemma ConvertParticles_body_appends colMC (j : nat) (cand : @Candidate double) st :
  exists particle relation printed,
    colParticles (state_reached (electron_body colMC j cand st)) =
      colParticles st ++ [particle] /\
    ascColParticlesToMC (state_reached (electron_body colMC j cand st)) =
      ascColParticlesToMC st ++ [relation] /\
    cout (state_reached (electron_body colMC j cand st)) = cout st ++ printed.
Proof.
  destruct (ConvertParticles_body_cases colMC j cand st) as (b & r & printed & -> & _).
  by eexists _, _, _.
Qed.

(** What iteration [j] of [ConvertParticles] writes, read in the collections
    the run leaves, once the run has gone through the entries before [j]. *)
Lemma ConvertParticles_at (Input : list (@Candidate double)) colMC st (j : nat) cand before :
  Input !! j = Some cand ->
  electrons_upto j Input colMC st = Returned before ->
  let iteration := electron_body colMC j cand before in
  electrons_upto (S j) Input colMC st = iteration /\
  length (colParticles before) = (length (colParticles st) + j)%nat /\
  length (ascColParticlesToMC before) = (length (ascColParticlesToMC st) + j)%nat /\
  colParticles (state_reached (electrons Input colMC st))
    !! (length (colParticles st) + j)%nat = last (colParticles (state_reached iteration)) /\
  ascColParticlesToMC (state_reached (electrons Input colMC st))
    !! (length (ascColParticlesToMC st) + j)%nat =
    last (ascColParticlesToMC (state_reached iteration)) /\
  (forall after, iteration = Stopped after -> electrons Input colMC st = Stopped after) /\
  (forall out, electrons Input colMC st = Returned out ->
               exists after, iteration = Returned after).
Proof.
  intros Hj Hbefore iteration.
  exact (for_entries_at (electron_body colMC) (ConvertParticles_body_appends colMC)
           Input 0 (announce_entries Input st) j cand before Hj Hbefore).
Qed.



(** ** The photon converter *)

(** One iteration of the photon converter: the status decided from the two
    counters, the warning, and the record the calls of the linking loop
    leave; the iteration returns exactly when those calls do. *)
Lemma ConvertPhotons_body_reached colMC (cand : @Photon double) st :
  let particle := length (colParticles st) in
  let N := Z.of_nat (length colMC) in
  let refs := PhotonCandidates cand in
  let b := photon_bits (count_refs N refs).1 (count_refs N refs).2 in
  let calls := link_all colMC particle (indices_below N refs) (-1, empty_relation) in
  let reached :=
    {| colParticles := colParticles st ++ [bare_of_photon double_of_int cand b.1];
       ascColParticlesToMC := ascColParticlesToMC st ++ [(state_reached calls).2];
       cout := if b.2 then cout st ++ [Warning warning_photon] else cout st |} in
  ConvertPhotons_body double_of_int colMC cand st =
    match calls with
    | Returned _ => Returned reached
    | Stopped _ => Stopped reached
    end.
Proof.
  cbn zeta. unfold ConvertPhotons_body, link_refs. rewrite link_refs_from_calls.
  by destruct (link_all _ _ _ _).
Qed.

Lemma ConvertPhotons_body_appends colMC (j : nat) (cand : @Photon double) st :
  exists particle relation printed,
    colParticles (state_reached (ConvertPhotons_body double_of_int colMC cand st)) =
      colParticles st ++ [particle] /\
    ascColParticlesToMC (state_reached (ConvertPhotons_body double_of_int colMC cand st)) =
      ascColParticlesToMC st ++ [relation] /\
    cout (state_reached (ConvertPhotons_body double_of_int colMC cand st)) =
      cout st ++ printed.
Proof.
  rewrite ConvertPhotons_body_reached.
  destruct (link_all _ _ _ _); cbn [state_reached colParticles ascColParticlesToMC cout];
    destruct (photon_bits _ _).2; eexists _, _, _;
    (split; [done|]); (split; [done|]); try done; by rewrite app_nil_r.
Qed.

(** What the photon converter stores for the photon at position [j], once
    the run has gone through the photons before it. *)
Lemma ConvertPhotons_stores (Input : list (@Photon double)) colMC st (j : nat) cand before :
  Input !! j = Some cand ->
  photons (take j Input) colMC st = Returned before ->
  let N := Z.of_nat (length colMC) in
  let refs := PhotonCandidates cand in
  let out := state_reached (photons Input colMC st) in
  let after := photons (take (S j) Input) colMC st in
  let particle := (length (colParticles st) + j)%nat in
  let record := (length (ascColParticlesToMC st) + j)%nat in
  let b := photon_bits (count_refs N refs).1 (count_refs N refs).2 in
  let calls := link_all colMC particle (indices_below N refs) (-1, empty_relation) in
  colParticles out !! particle = Some (bare_of_photon double_of_int cand b.1) /\
  ascColParticlesToMC out !! record = Some (state_reached calls).2 /\
  cout (state_reached after) =
    (if b.2 then cout before ++ [Warning warning_photon] else cout before) /\
  (forall s, calls = Returned s -> exists s', after = Returned s') /\
  (forall s, calls = Stopped s ->
     photons Input colMC st = Stopped out /\ after = Stopped out).
Proof.
  intros Hj Hbefore. cbn zeta.
  destruct (for_entries_at (fun _ c => ConvertPhotons_body double_of_int colMC c)
              (ConvertPhotons_body_appends colMC) Input 0 st j cand before Hj Hbefore)
    as (Hafter & L1 & L2 & Hp & Hr & Hstop & _).
  fold (photons Input colMC st) in Hp, Hr, Hstop.
  fold (photons (take (S j) Input) colMC st) in Hafter.
  cbn [Nat.add] in Hafter, Hp, Hr, Hstop.
  rewrite ConvertPhotons_body_reached, L1 in Hafter, Hp, Hr, Hstop.
  rewrite Hafter.
  destruct (link_all colMC (length (colParticles st) + j)
              (indices_below (Z.of_nat (length colMC)) (PhotonCandidates cand))
              (-1, empty_relation)) as [s|s];
    cbn [state_reached colParticles ascColParticlesToMC cout] in *;
    rewrite last_snoc in Hp; rewrite last_snoc in Hr.
  - split; [done|]. split; [done|]. split; [done|]. split; [by eexists|]. done.
  - split; [done|]. split; [done|]. split; [done|]. split; [done|]. intros s' _.
    rewrite (Hstop _ eq_refl). done.
Qed.

(** The record of a photon whose loops hand only indices inside the
    collection to [at]: linked to the last of them. *)
Lemma link_all_last colMC (particle : nat) (indices : list Z) :
  Forall (fun i => i < Z.of_nat (length colMC)) indices ->
  Forall (fun i => 0 <= i) indices ->
  link_all colMC particle indices (-1, empty_relation) =
  Returned match last indices with
           | Some i => (i, {| Rec := Some particle; Sim := Some i |})
           | None => (-1, empty_relation)
           end.
Proof.
  intros Hbelow Hnonneg. apply link_all_inside.
  apply Forall_forall. intros i Hi.
  pose proof (proj1 (Forall_forall _ _) Hbelow i Hi).
  pose proof (proj1 (Forall_forall _ _) Hnonneg i Hi). cbn in *. lia.
Qed.

(** C2.  A photon with two or more truth hits, on identifiers in the 1-based
    numbering: the status bit is [Unmatched], and the photon nevertheless
    holds an association, its record linking it to the truth particle of the
    last hit. *)
Theorem unmatched_photon_keeps_an_association (Input : list (@Photon double)) colMC st
    (j : nat) cand before :
  Input !! j = Some cand ->
  photons (take j Input) colMC st = Returned before ->
  refs_one_based (PhotonCandidates cand) ->
  (2 <= direct_hits (Z.of_nat (length colMC)) (PhotonCandidates cand) +
        cascade_hits (Z.of_nat (length colMC)) (PhotonCandidates cand))%nat ->
  let N := Z.of_nat (length colMC) in
  let out := state_reached (photons Input colMC st) in
  let particle := (length (colParticles st) + j)%nat in
  let record := (length (ascColParticlesToMC st) + j)%nat in
  exists p i,
    colParticles out !! particle = Some p /\
    Bits p = Assigned Unmatched /\
    last (truth_hits N (PhotonCandidates cand)) = Some i /\
    0 <= i < N /\
    ascColParticlesToMC out !! record = Some {| Rec := Some particle; Sim := Some i |} /\
    exists s, photons (take (S j) Input) colMC st = Returned s.
Proof.
  intros Hj Hbefore Hone Hhits. cbn zeta.
  destruct (ConvertPhotons_stores Input colMC st j cand before Hj Hbefore)
    as (Hp & Hr & _ & Hret & _).
  cbn zeta in Hp, Hr, Hret.
  rewrite (count_refs_hits _ _ Hone) in Hp. cbn [fst snd] in Hp.
  rewrite link_all_last in Hr, Hret
    by (apply indices_below_below || by apply indices_below_nonneg).
  rewrite (indices_below_one_based _ _ Hone) in Hr, Hret.
  pose proof (truth_hits_range (Z.of_nat (length colMC)) (PhotonCandidates cand)) as Hrange.
  pose proof (truth_hits_length (Z.of_nat (length colMC)) (PhotonCandidates cand)) as Hlen.
  destruct (truth_hits (Z.of_nat (length colMC)) (PhotonCandidates cand))
    as [|i hits _] using rev_ind; [cbn in Hlen; lia|].
  rewrite last_snoc in *. cbn [state_reached snd] in Hr.
  rewrite Forall_app, Forall_singleton in Hrange. destruct Hrange as [_ Hi].
  eexists _, i. split; [exact Hp|]. split.
  { cbn [bare_of_photon Bits]. unfold photon_bits.
    destruct (Z.eqb_spec (Z.of_nat (direct_hits (Z.of_nat (length colMC))
                                      (PhotonCandidates cand)) +
                          Z.of_nat (cascade_hits (Z.of_nat (length colMC))
                                      (PhotonCandidates cand))) 1); [lia|done]. }
  split; [done|]. split; [done|]. split; [exact Hr|]. by eapply Hret.
Qed.


End RecoProperties.

(** * The converters on sample events *)

(** ** Builder *)

(** C1.  On the family of [siblings_first] (two siblings with the identical
    mother range [2, 2], listed before their mother) the builder creates two
    vertices: the siblings hold different start vertices, and only the first
    sibling's vertex becomes the mother's end vertex. *)
Theorem siblings_before_mother_get_distinct_vertices :
  (M1 <$> siblings_first) = [2; 2; -1] /\
  (M2 <$> siblings_first) = [2; 2; -1] /\
  exists st,
    ConvertMCParticles siblings_first [] [] = Some st /\
    (StartVertex <$> colMCParticles st) = [Some 0%nat; Some 1%nat; None] /\
    (EndVertex <$> colMCParticles st) = [None; None; Some 0%nat] /\
    length (colGenVertices st) = 2%nat.
Proof.
  split; [reflexivity|]. split; [reflexivity|].
  eexists. split; [vm_compute; reflexivity|]. vm_compute. repeat split.
Qed.

(** With the mother listed first the same family shares one vertex. *)
Lemma siblings_after_mother_share_vertex :
  exists st,
    ConvertMCParticles mother_first [] [] = Some st /\
    (StartVertex <$> colMCParticles st) = [None; Some 0%nat; Some 0%nat] /\
    (EndVertex <$> colMCParticles st) = [Some 0%nat; None; None] /\
    length (colGenVertices st) = 1%nat.
Proof. eexists. split; [vm_compute; reflexivity|]. vm_compute. repeat split. Qed.

(** C7.  When the mother is visited first, the end vertex created for it has
    the position of its first daughter, [(10, 10, 10)], but the time of the
    mother itself, 50, not the daughter's time 100.  When the daughter is
    visited first the same vertex is created by the production branch, with
    the daughter's position and the daughter's time. *)
Theorem decay_vertex_ctau_is_the_mothers_time :
  (exists st,
     ConvertMCParticles mother_then_daughter [] [] = Some st /\
     (EndVertex <$> colMCParticles st) = [Some 0%nat; None] /\
     colGenVertices st =
       [{| vPosition := {| ptX := 10; ptY := 10; ptZ := 10 |}; Ctau := 50 |}]) /\
  (exists st,
     ConvertMCParticles daughter_then_mother [] [] = Some st /\
     (EndVertex <$> colMCParticles st) = [None; Some 0%nat] /\
     colGenVertices st =
       [{| vPosition := {| ptX := 10; ptY := 10; ptZ := 10 |}; Ctau := 100 |}]).
Proof.
  split; eexists; (split; [vm_compute; reflexivity|]); vm_compute; repeat split.
Qed.

(** C8.  In [grand_daughter_first] the candidate at position 1 has the
    daughter range [2, 2].  Before it is visited the production slot of
    position 2 is unknown ([-1]) while its decay slot is known (set by the
    grand-daughter at position 0); after it is visited the production slot of
    position 2 is still unknown.  The candidate at position 2 then creates a
    vertex of its own instead of reusing the end vertex of its mother. *)
Theorem daughter_with_known_decay_slot_is_not_marked :
  (D1 <$> grand_daughter_first) !! 1%nat = Some 2 /\
  (D2 <$> grand_daughter_first) !! 1%nat = Some 2 /\
  (st ← after_iterations grand_daughter_first 1; vecPartProdVtxIDDecVtxID st !! 2%nat)
    = Some (-1, 0) /\
  (st ← after_iterations grand_daughter_first 2; vecPartProdVtxIDDecVtxID st !! 2%nat)
    = Some (-1, 0) /\
  exists st,
    ConvertMCParticles grand_daughter_first [] [] = Some st /\
    (EndVertex <$> colMCParticles st) !! 1%nat = Some (Some 1%nat) /\
    (StartVertex <$> colMCParticles st) !! 2%nat = Some (Some 2%nat) /\
    length (colGenVertices st) = 3%nat.
Proof.
  split; [reflexivity|]. split; [reflexivity|].
  split; [vm_compute; reflexivity|]. split; [vm_compute; reflexivity|].
  eexists. split; [vm_compute; reflexivity|]. vm_compute. repeat split.
Qed.

(** C6, witness: the family of [mother_first]. *)
Lemma genealogy_status_first_match_witness :
  Forall (ranges_in_bounds (Z.of_nat (length mother_first))) mother_first /\
  exists st,
    ConvertMCParticles mother_first [] [] = Some st /\
    length (colMCParticles st) = length mother_first /\
    forall (j : nat) cand,
      mother_first !! j = Some cand ->
      exists particle,
        colMCParticles st !! j = Some particle /\
        (M1 cand = -1 -> Bits (Core particle) = Assigned Beam) /\
        (M1 cand <> -1 -> D1 cand = -1 -> Bits (Core particle) = Assigned Stable) /\
        (M1 cand <> -1 -> D1 cand <> -1 -> Bits (Core particle) = Assigned Decayed).
Proof.
  assert (Forall (ranges_in_bounds (Z.of_nat (length mother_first))) mother_first) as H.
  { unfold mother_first.
    repeat (apply Forall_cons_2; [unfold ranges_in_bounds; cbn; lia|]).
    apply Forall_nil_2. }
  split; [exact H|].
  destruct (genealogy_status_first_match mother_first) as [Htotal Hbits].
  destruct (Htotal H) as [st Hst].
  exists st. split; [exact Hst|]. exact (Hbits st Hst).
Defined.

(** C9, witness: two jets appended to an empty collection. *)
Lemma ConvertJets_one_jet_per_entry_witness :
  [sample_jet 1 7; sample_jet 4 9] !! 1%nat = Some (sample_jet 4 9) /\
  length (ConvertJets id [sample_jet 1 7; sample_jet 4 9] []) = 2%nat /\
  exists jet,
    ConvertJets id [sample_jet 1 7; sample_jet 4 9] [] !! 1%nat = Some jet /\
    lvPx (jetCoreP4 jet) = 4 /\ lvPy (jetCoreP4 jet) = 5 /\ lvPz (jetCoreP4 jet) = 6 /\
    lvMass (jetCoreP4 jet) = 9 /\ Area jet = -1.
Proof.
  split; [reflexivity|].
  destruct (ConvertJets_one_jet_per_entry id [sample_jet 1 7; sample_jet 4 9] [])
    as (Hlen & _ & Hjets).
  split; [exact Hlen|].
  exact (Hjets 1%nat (sample_jet 4 9) eq_refl).
Defined.

(** ** Electrons *)

(** The electron converter on single electrons, against ten truth particles:
    the identifier 6 designates truth particle 5; the identifier 13 is beyond
    the collection; with the identifier 0 the decremented index is [-1], and
    the unsigned reading of the comparison with [size()] sends it to the
    unmatched branch.  Reads through unset links are taken to yield a core
    here. *)
Lemma electron_first_reference_readings :
  (exists out,
     electron_run SizeIsInt (Some (genealogy_core (electron_with []))) [reference 6 []] =
       Returned out /\
     (Bits <$> colParticles out) = [Assigned Matched] /\
     ascColParticlesToMC out = [{| Rec := Some 0%nat; Sim := Some 5 |}] /\
     warnings_of (cout out) = []) /\
  (exists out,
     electron_run SizeIsInt (Some (genealogy_core (electron_with []))) [reference 13 []] =
       Returned out /\
     (Bits <$> colParticles out) = [Assigned Unmatched] /\
     ascColParticlesToMC out = [{| Rec := None; Sim := None |}] /\
     warnings_of (cout out) = [Warning warning_electron]) /\
  (index_of_uid 0 = -1 /\
   exists out,
     electron_run SizeIsUnsigned (Some (genealogy_core (electron_with []))) [reference 0 []] =
       Returned out /\
     (Bits <$> colParticles out) = [Assigned Unmatched] /\
     ascColParticlesToMC out = [{| Rec := None; Sim := None |}] /\
     warnings_of (cout out) = [Warning warning_electron]).
Proof.
  split; [|split; [|split; [reflexivity|]]];
    (eexists; split; [vm_compute; reflexivity|]); vm_compute; repeat split.
Qed.


(** ** Photons *)

(** C3.  A photon with two direct truth hits (identifiers 4 and 5, truth
    particles 3 and 4 of 10): [direct + cascade] is 2, the status bit is
    [Unmatched] and the diagnostic is printed, yet the association record
    links the photon to truth particle 4, the last hit.  The same happens
    with one direct and one cascade hit.  Both runs return. *)
Theorem ambiguous_photon_is_unmatched_but_linked :
  (direct_hits 10 [reference 4 []; reference 5 []] = 2%nat /\
   cascade_hits 10 [reference 4 []; reference 5 []] = 0%nat /\
   exists out,
     photon_run [reference 4 []; reference 5 []] = Returned out /\
     (Bits <$> colParticles out) = [Assigned Unmatched] /\
     cout out = [Warning warning_photon] /\
     ascColParticlesToMC out = [{| Rec := Some 0%nat; Sim := Some 4 |}]) /\
  (direct_hits 10 [reference 4 []; reference 41 [8]] = 1%nat /\
   cascade_hits 10 [reference 4 []; reference 41 [8]] = 1%nat /\
   exists out,
     photon_run [reference 4 []; reference 41 [8]] = Returned out /\
     (Bits <$> colParticles out) = [Assigned Unmatched] /\
     cout out = [Warning warning_photon] /\
     ascColParticlesToMC out = [{| Rec := Some 0%nat; Sim := Some 7 |}]).
Proof.
  split; (split; [reflexivity|]); (split; [reflexivity|]);
    (eexists; split; [vm_compute; reflexivity|]); vm_compute; repeat split.
Qed.

(** A photon without any truth hit is [Unmatched] with a record without
    links. *)
Lemma photon_without_hit_is_unlinked :
  exists out,
    photon_run [reference 41 [50]] = Returned out /\
    (Bits <$> colParticles out) = [Assigned Unmatched] /\
    cout out = [Warning warning_photon] /\
    ascColParticlesToMC out = [{| Rec := None; Sim := None |}].
Proof. eexists. split; [vm_compute; reflexivity|]. vm_compute. repeat split. Qed.

(** C2, witness: the identifiers 4 and 5 are two direct hits; the photon is
    [Unmatched] and linked to truth particle 4. *)
Lemma unmatched_photon_keeps_an_association_witness :
  ([photon_with [reference 4 []; reference 5 []]] !! 0%nat =
     Some (photon_with [reference 4 []; reference 5 []]) /\
   refs_one_based [reference 4 []; reference 5 []] /\
   (2 <= direct_hits 10 [reference 4 []; reference 5 []] +
         cascade_hits 10 [reference 4 []; reference 5 []])%nat) /\
  exists p,
    colParticles (state_reached (photon_run [reference 4 []; reference 5 []])) !! 0%nat =
      Some p /\
    Bits p = Assigned Unmatched /\
    ascColParticlesToMC (state_reached (photon_run [reference 4 []; reference 5 []]))
      !! 0%nat = Some {| Rec := Some 0%nat; Sim := Some 4 |}.
Proof.
  assert (refs_one_based [reference 4 []; reference 5 []]) as Hone.
  { repeat (apply Forall_cons_2;
              [split; [unfold one_based; cbn; lia|apply Forall_nil_2]|]).
    apply Forall_nil_2. }
  assert (2 <= direct_hits 10 [reference 4 []; reference 5 []] +
               cascade_hits 10 [reference 4 []; reference 5 []])%nat as Hhits.
  { vm_compute. lia. }
  split; [split; [reflexivity|split; [exact Hone|exact Hhits]]|].
  destruct (unmatched_photon_keeps_an_association id
              [photon_with [reference 4 []; reference 5 []]] (truth_particles 10)
              fresh_reco 0%nat _ fresh_reco eq_refl eq_refl Hone Hhits)
    as (p & i & Hp & Hb & Hlast & _ & Hr & _).
  vm_compute in Hlast. injection Hlast as <-.
  exists p. split; [exact Hp|]. split; [exact Hb|exact Hr].
Defined.



(** * Further properties of the conversion module *)

(** ** The missing-energy converter *)

Section METProperties.

Context {double : Type}.

Lemma ConvertMET_snoc (Input : list (@MissingET double)) cand colMET :
  ConvertMET (Input ++ [cand]) colMET = ConvertMET_body cand (ConvertMET Input colMET).
Proof. unfold ConvertMET. by rewrite fold_left_app. Qed.

Lemma ConvertMET_appends (Input : list (@MissingET double)) colMET :
  ConvertMET Input colMET =
  colMET ++ ((fun cand => {| Pt := MET cand; Phi_ := Phi cand |}) <$> Input).
Proof.
  induction Input as [|cand Input IH] using rev_ind; [by rewrite app_nil_r|].
  rewrite ConvertMET_snoc, IH. unfold ConvertMET_body.
  by rewrite fmap_app, app_assoc.
Qed.

(** X1.  The missing-energy converter appends one object per entry of the
    input array, in input order, after what the collection already held; the
    object for entry [j] carries the entry's [MET] as [Pt] and its [Phi]; an
    empty input leaves the collection as it was. *)
Theorem ConvertMET_one_object_per_entry (Input : list (@MissingET double))
    (colMET : list METObject) :
  length (ConvertMET Input colMET) = (length colMET + length Input)%nat /\
  (forall i, (i < length colMET)%nat -> ConvertMET Input colMET !! i = colMET !! i) /\
  (forall (j : nat) cand,
     Input !! j = Some cand ->
     exists met,
       ConvertMET Input colMET !! (length colMET + j)%nat = Some met /\
       Pt met = MET cand /\ Phi_ met = Phi cand) /\
  (Input = [] -> ConvertMET Input colMET = colMET).
Proof.
  rewrite ConvertMET_appends. split; [by rewrite length_app, length_fmap|].
  split; [intros i Hi; by apply lookup_app_l|]. split.
  - intros j cand Hj. eexists. split.
    + rewrite lookup_app_r by lia.
      replace (length colMET + j - length colMET)%nat with j by lia.
      by rewrite list_lookup_fmap, Hj.
    + done.
  - intros ->. by rewrite app_nil_r.
Qed.

End METProperties.

(** X1, witness: two entries appended to an empty collection. *)
Lemma ConvertMET_one_object_per_entry_witness :
  [sample_met 30 1; sample_met 45 2] !! 1%nat = Some (sample_met 45 2) /\
  exists met,
    ConvertMET [sample_met 30 1; sample_met 45 2] [] !! 1%nat = Some met /\
    Pt met = 45 /\ Phi_ met = 2.
Proof.
  split; [reflexivity|].
  destruct (ConvertMET_one_object_per_entry [sample_met 30 1; sample_met 45 2] [])
    as (_ & _ & Hobj & _).
  exact (Hobj 1%nat (sample_met 45 2) eq_refl).
Defined.

(** ** Status, diagnostics and links of the reconstructed-object converters *)

Section RecoStatus.

Context {double : Type}.
Variable double_of_int : Z -> double.
Variable unlinked_core : option (@BareParticle double).
Variable energy_of : @LorentzVector double -> double.
Variable size_declaration : SizeDeclaration.

Implicit Types (colMC : list (@MCParticle double)) (st : @RecoState double).

Local Abbreviation electron_body :=
  (ConvertParticles_body unlinked_core energy_of size_declaration).
Local Abbreviation electrons := (ConvertParticles unlinked_core energy_of size_declaration).
Local Abbreviation electrons_upto :=
  (ConvertParticles_upto unlinked_core energy_of size_declaration).
Local Abbreviation photons := (ConvertPhotons double_of_int).

(** X2.  The status of a photon, in a run that has gone through the photons
    before it, is decided by the number of indices its loops find below the
    truth-particle count alone: it is [Unmatched], with one warning printed,
    exactly when that number differs from 1; with exactly one such index it
    is [MatchInCascade] when no first-level reference is below the count,
    and keeps the value-initialised bits when one is.  No photon is ever
    given [Matched].  The status and the warning are settled before the
    linking loop runs: they hold as well when that loop ends the run. *)
Theorem photon_status_by_hit_count (Input : list (@Photon double)) colMC st (j : nat)
    cand before :
  Input !! j = Some cand ->
  photons (take j Input) colMC st = Returned before ->
  let N := Z.of_nat (length colMC) in
  let refs := PhotonCandidates cand in
  let out := state_reached (photons Input colMC st) in
  let after := state_reached (photons (take (S j) Input) colMC st) in
  exists p,
    colParticles out !! (length (colParticles st) + j)%nat = Some p /\
    (Bits p = Assigned Unmatched <-> length (indices_below N refs) <> 1%nat) /\
    (Bits p = Assigned MatchInCascade <->
       length (indices_below N refs) = 1%nat /\
       filter (fun r => index_of_uid (UniqueID r) < N) refs = []) /\
    (Bits p = ValueInitialised <->
       length (indices_below N refs) = 1%nat /\
       filter (fun r => index_of_uid (UniqueID r) < N) refs <> []) /\
    Bits p <> Assigned Matched /\
    cout after =
      (if is_unmatched (Bits p) then cout before ++ [Warning warning_photon]
       else cout before).
Proof.
  intros Hj Hbefore N refs out after.
  destruct (ConvertPhotons_stores double_of_int Input colMC st j cand before Hj Hbefore)
    as (Hp & _ & Hw & _).
  fold N refs out after in Hp, Hw.
  pose proof (count_refs_total N refs) as Htot.
  pose proof (count_refs_first_level N refs) as Hfirst.
  pose proof (count_refs_cascade_nonneg N refs) as Hcas.
  exists (bare_of_photon double_of_int cand
            (photon_bits (count_refs N refs).1 (count_refs N refs).2).1).
  split; [exact Hp|]. rewrite Hw. cbn [Bits bare_of_photon]. unfold photon_bits.
  destruct (filter (fun r => index_of_uid (UniqueID r) < N) refs) as [|r0 l0] eqn:Hfilter;
    cbn [length] in Hfirst;
    destruct (Z.eqb_spec ((count_refs N refs).1 + (count_refs N refs).2) 1) as [H1|H1];
    destruct (Z.eqb_spec (count_refs N refs).2 0) as [H0|H0]; cbn;
    repeat split; try done; try lia; try (intros [? ?]; done || lia);
    try (intros ?; lia).
Qed.

(** X15.  On identifiers in the 1-based numbering, for a photon in a run that
    has gone through the photons before it.  With exactly one direct hit and
    no cascade hit the photon is linked to the truth particle of that hit,
    the identifier of the reference less one, and no status is assigned (the
    bits keep their value-initialised content).  With no direct hit and
    exactly one cascade hit the status bit is [MatchInCascade] and the
    photon is linked to the truth particle of that second-level entry, its
    identifier less one.  The iteration returns in both cases. *)
Theorem photon_cascade_precedence (Input : list (@Photon double)) colMC st (j : nat)
    cand before :
  Input !! j = Some cand ->
  photons (take j Input) colMC st = Returned before ->
  refs_one_based (PhotonCandidates cand) ->
  let N := Z.of_nat (length colMC) in
  let refs := PhotonCandidates cand in
  let out := state_reached (photons Input colMC st) in
  let particle := (length (colParticles st) + j)%nat in
  let record := (length (ascColParticlesToMC st) + j)%nat in
  (exists s, photons (take (S j) Input) colMC st = Returned s) /\
  (direct_hits N refs = 1%nat -> cascade_hits N refs = 0%nat ->
     exists p r,
       colParticles out !! particle = Some p /\
       Bits p = ValueInitialised /\
       direct_hit_list N refs = [r] /\
       0 <= UniqueID r - 1 < N /\
       ascColParticlesToMC out !! record =
         Some {| Rec := Some particle; Sim := Some (UniqueID r - 1) |}) /\
  (direct_hits N refs = 0%nat -> cascade_hits N refs = 1%nat ->
     exists p r uid,
       colParticles out !! particle = Some p /\
       Bits p = Assigned MatchInCascade /\
       In r refs /\ In uid (RefCandidates r) /\
       cascade_hit_list N refs = [uid - 1] /\
       0 <= uid - 1 < N /\
       ascColParticlesToMC out !! record =
         Some {| Rec := Some particle; Sim := Some (uid - 1) |}).
Proof.
  intros Hj Hbefore Hone N refs out particle record.
  destruct (ConvertPhotons_stores double_of_int Input colMC st j cand before Hj Hbefore)
    as (Hp & Hr & _ & Hret & _).
  fold N refs out particle record in Hp, Hr, Hret.
  rewrite (count_refs_hits N refs Hone) in Hp. cbn [fst snd] in Hp.
  rewrite link_all_last in Hr, Hret
    by (apply indices_below_below || by apply indices_below_nonneg).
  rewrite (indices_below_one_based N refs Hone) in Hr, Hret.
  split; [by eapply Hret|]. split; intros Hd Hc; rewrite Hd, Hc in Hp.
  - assert (truth_hits N refs = map (fun r => UniqueID r - 1) (direct_hit_list N refs))
      as Hhits.
    { clear -Hc. unfold cascade_hits, cascade_hit_list, truth_hits, direct_hit_list in *.
      induction refs as [|r refs IH]; [done|].
      cbn [flat_map] in *. rewrite filter_cons.
      rewrite length_app in Hc.
      destruct (truth_index N (UniqueID r - 1)).
      - rewrite decide_True by done. cbn. f_equal. apply IH. cbn in Hc. lia.
      - rewrite decide_False by done.
        destruct (filter _ _) as [|? ?]; [|cbn in Hc; lia].
        cbn. apply IH. cbn in Hc. lia. }
    unfold direct_hits in Hd.
    destruct (direct_hit_list N refs) as [|r [|r' l]] eqn:Hlist; try done.
    rewrite Hhits in Hr. cbn in Hr.
    assert (r ∈ direct_hit_list N refs) as Hin by (rewrite Hlist; by left).
    unfold direct_hit_list in Hin. apply list_elem_of_filter in Hin as [Hidx _].
    apply truth_index_bounds in Hidx.
    eexists _, r. split; [exact Hp|]. done.
  - unfold cascade_hits in Hc.
    destruct (cascade_hit_list N refs) as [|i [|i' l]] eqn:Hlist; try done.
    destruct (cascade_hit_list_origin N refs i) as (Hi & r & uid & Hr1 & _ & Huid & ->).
    { rewrite Hlist. by left. }
    rewrite (truth_hits_cascade N refs Hd), Hlist in Hr. cbn in Hr.
    eexists _, r, uid. split; [exact Hp|]. done.
Qed.

End RecoStatus.
Section RecoDiagnostics.

Context {double : Type}.
Variable double_of_int : Z -> double.
Variable unlinked_core : option (@BareParticle double).
Variable energy_of : @LorentzVector double -> double.
Variable size_declaration : SizeDeclaration.

Implicit Types (colMC : list (@MCParticle double)) (st : @RecoState double).

Local Abbreviation electron_body :=
  (ConvertParticles_body unlinked_core energy_of size_declaration).
Local Abbreviation electrons := (ConvertParticles unlinked_core energy_of size_declaration).
Local Abbreviation electrons_upto :=
  (ConvertParticles_upto unlinked_core energy_of size_declaration).
Local Abbreviation photons := (ConvertPhotons double_of_int).

(** The particles a run appended to a collection that held [n] of them. *)
Local Abbreviation appended n col := (drop n col).



(** What a sequence of calls of the linking loop leaves in the record. *)
Lemma link_all_record colMC (particle : nat) (indices : list Z) (s : Z * Association) :
  (forall h, Rec s.2 = Some h -> h = particle) ->
  (forall i, Sim s.2 = Some i ->
             0 <= i < Z.of_nat (length colMC) /\ Rec s.2 = Some particle) ->
  (Rec s.2 = None <-> Sim s.2 = None) ->
  let r := (state_reached (link_all colMC particle indices s)).2 in
  (forall h, Rec r = Some h -> h = particle) /\
  (forall i, Sim r = Some i -> 0 <= i < Z.of_nat (length colMC) /\ Rec r = Some particle) /\
  (forall s', link_all colMC particle indices s = Returned s' ->
              (Rec r = None <-> Sim r = None)) /\
  (forall s', link_all colMC particle indices s = Stopped s' -> Rec r = Some particle).
Proof.
  revert s. induction indices as [|i indices IH]; intros s H1 H2 H3; cbn zeta.
  - cbn. split; [done|]. split; [done|]. split; [done|]. done.
  - cbn [link_all]. unfold link_to.
    destruct (vec_at colMC i) as [x|] eqn:Hat; cbn [and_then].
    + apply IH; cbn.
      * by intros h [= <-].
      * intros i' [= <-]. split; [by eapply vec_at_Some_range|done].
      * done.
    + cbn. split; [by intros h [= <-]|]. split.
      * intros i' Hi'. split; [by apply H2|done].
      * split; [done|]. done.
Qed.

(** X4.  The links of an association record, for an object in a run that has
    gone through the objects before it, in both converters: a [Rec] that is
    set is the handle of the particle created in the same iteration; a [Sim]
    that is set is an index of the truth collection, in [0, N), and then
    [Rec] is set too; and when the iteration returns, [Rec] and [Sim] are
    set together or not at all.  A photon iteration that stops leaves [Rec]
    set. *)
Theorem association_links_well_formed :
  (forall (Input : list (@Candidate double)) colMC st (j : nat) cand before,
     Input !! j = Some cand ->
     electrons_upto j Input colMC st = Returned before ->
     let particle := (length (colParticles st) + j)%nat in
     exists r,
       ascColParticlesToMC (state_reached (electrons Input colMC st))
         !! (length (ascColParticlesToMC st) + j)%nat = Some r /\
       (forall h, Rec r = Some h -> h = particle) /\
       (forall i, Sim r = Some i ->
                  0 <= i < Z.of_nat (length colMC) /\ Rec r = Some particle) /\
       ((exists s, electrons_upto (S j) Input colMC st = Returned s) ->
        (Rec r = None <-> Sim r = None))) /\
  (forall (Input : list (@Photon double)) colMC st (j : nat) cand before,
     Input !! j = Some cand ->
     photons (take j Input) colMC st = Returned before ->
     let particle := (length (colParticles st) + j)%nat in
     exists r,
       ascColParticlesToMC (state_reached (photons Input colMC st))
         !! (length (ascColParticlesToMC st) + j)%nat = Some r /\
       (forall h, Rec r = Some h -> h = particle) /\
       (forall i, Sim r = Some i ->
                  0 <= i < Z.of_nat (length colMC) /\ Rec r = Some particle) /\
       ((exists s, photons (take (S j) Input) colMC st = Returned s) ->
        (Rec r = None <-> Sim r = None)) /\
       ((exists s, photons (take (S j) Input) colMC st = Stopped s) ->
        Rec r = Some particle)).
Proof.
  split; intros Input colMC st j cand before Hj Hbefore; cbn zeta.
  - destruct (ConvertParticles_at unlinked_core energy_of size_declaration
                Input colMC st j cand before Hj Hbefore)
      as (Hafter & L1 & _ & _ & Hr & _).
    cbn zeta in Hafter, Hr. rewrite Hr, Hafter.
    destruct (ConvertParticles_body_cases unlinked_core energy_of size_declaration
                colMC j cand before) as (b & r & printed & Hreached & _ & Hcases).
    cbn zeta in Hcases. rewrite Hreached. cbn [ascColParticlesToMC]. rewrite last_snoc.
    exists r. split; [done|]. rewrite L1 in Hcases.
    destruct Hcases as [(_ & -> & _)
                       |(_ & refCand & rest & _ & _ &
                         [(Hin & -> & _)|(_ & -> & s' & Hs')])]; cbn.
    + split; [done|]. split; [done|]. done.
    + split; [by intros h [= <-]|]. split; [by intros i [= <-]|]. done.
    + split; [by intros h [= <-]|]. split; [done|].
      intros [s Hs]. congruence.
  - destruct (ConvertPhotons_stores double_of_int Input colMC st j cand before Hj Hbefore)
      as (_ & Hr & _ & Hret & Hstop).
    cbn zeta in Hr, Hret, Hstop. rewrite Hr.
    destruct (link_all_record colMC (length (colParticles st) + j)
                (indices_below (Z.of_nat (length colMC)) (PhotonCandidates cand))
                (-1, empty_relation)) as (H1 & H2 & H3 & H4); [done|done|done|].
    cbn zeta in H1, H2, H3, H4.
    eexists. split; [done|]. split; [exact H1|]. split; [exact H2|]. split.
    + intros [s Hs].
      destruct (link_all colMC _ _ _) as [l|l] eqn:Hcalls; [by apply (H3 l)|].
      destruct (Hstop l eq_refl) as [_ Hafter]. congruence.
    + intros [s Hs].
      destruct (link_all colMC _ _ _) as [l|l] eqn:Hcalls; [|by apply (H4 l)].
      destruct (Hret l eq_refl) as [s' Hs']. congruence.
Qed.

(** X5.  Both converters transcribe the kinematics of the object they
    convert, for an object in a run that has gone through the objects before
    it, whether its own iteration returns or stops: an electron's particle
    carries the candidate's [PID], [Status], [Charge], momentum components,
    mass and position; a photon's particle carries the photon's momentum
    components and mass, and the fixed values type [-1], status [-1], charge
    [0] and vertex [(-1, -1, -1)]. *)
Theorem reconstructed_cores_are_transcribed :
  (forall (Input : list (@Candidate double)) colMC st (j : nat) cand before,
     Input !! j = Some cand ->
     electrons_upto j Input colMC st = Returned before ->
     exists p,
       colParticles (state_reached (electrons Input colMC st))
         !! (length (colParticles st) + j)%nat = Some p /\
       Type_ p = PID cand /\ Status_ p = Status cand /\ Charge_ p = Charge cand /\
       P4 p = {| lvPx := Px (Momentum cand); lvPy := Py (Momentum cand);
                 lvPz := Pz (Momentum cand); lvMass := M (Momentum cand) |} /\
       Vertex p = {| ptX := X (Position cand); ptY := Y (Position cand);
                     ptZ := Z_ (Position cand) |}) /\
  (forall (Input : list (@Photon double)) colMC st (j : nat) cand before,
     Input !! j = Some cand ->
     photons (take j Input) colMC st = Returned before ->
     exists p,
       colParticles (state_reached (photons Input colMC st))
         !! (length (colParticles st) + j)%nat = Some p /\
       Type_ p = -1 /\ Status_ p = -1 /\ Charge_ p = 0 /\
       P4 p = {| lvPx := Px (PhotonP4 cand); lvPy := Py (PhotonP4 cand);
                 lvPz := Pz (PhotonP4 cand); lvMass := M (PhotonP4 cand) |} /\
       Vertex p = {| ptX := double_of_int (-1); ptY := double_of_int (-1);
                     ptZ := double_of_int (-1) |}).
Proof.
  split; intros Input colMC st j cand before Hj Hbefore.
  - destruct (ConvertParticles_at unlinked_core energy_of size_declaration
                Input colMC st j cand before Hj Hbefore)
      as (_ & _ & _ & Hp & _).
    cbn zeta in Hp. rewrite Hp.
    destruct (ConvertParticles_body_cases unlinked_core energy_of size_declaration
                colMC j cand before) as (b & r & printed & -> & _).
    cbn [colParticles]. rewrite last_snoc. eexists. split; [done|]. cbn. done.
  - destruct (ConvertPhotons_stores double_of_int Input colMC st j cand before Hj Hbefore)
      as (Hp & _).
    cbn zeta in Hp. rewrite Hp. eexists. split; [done|]. cbn. done.
Qed.

End RecoDiagnostics.
(** ** Well-formedness of the graph the builder leaves *)

Section GraphProperties.

Context {double : Type}.

Implicit Types (cand : @Candidate double) (st : @BuilderState double)
  (col : list (@MCParticle double)).

Lemma mark_mothers_Forall (P : Z * Z -> Prop) (n : nat) (iMother j : Z)
    (vec vec' : list (Z * Z)) :
  (forall s, P s -> P (s.1, j)) ->
  Forall P vec -> mark_mothers n iMother j vec = Some vec' -> Forall P vec'.
Proof.
  intros HP. revert iMother vec.
  induction n as [|n IH]; intros iMother vec Hvec Hrun; [by injection Hrun as <-|].
  cbn [mark_mothers] in Hrun.
  destruct (vec_at vec iMother) as [s|] eqn:Hs; [|done].
  cbn [mbind option_bind] in Hrun.
  eapply IH; [|exact Hrun].
  destruct (s.2 =? -1); [|done].
  unfold vec_set. apply Forall_insert; [done|]. apply HP.
  eapply Forall_lookup_1; [exact Hvec|]. by apply vec_at_lookup.
Qed.

Lemma mark_daughters_Forall (P : Z * Z -> Prop) (n : nat) (iDaughter j : Z)
    (vec vec' : list (Z * Z)) :
  (forall s, P s -> P (j, s.2)) ->
  Forall P vec -> mark_daughters n iDaughter j vec = Some vec' -> Forall P vec'.
Proof.
  intros HP. revert iDaughter vec.
  induction n as [|n IH]; intros iDaughter vec Hvec Hrun; [by injection Hrun as <-|].
  cbn [mark_daughters] in Hrun.
  destruct (0 <=? iDaughter); cbn [mbind option_bind] in Hrun; [|by eapply IH].
  destruct (vec_at vec iDaughter) as [s|] eqn:Hs; [|done].
  cbn [mbind option_bind] in Hrun.
  eapply IH; [|exact Hrun].
  destruct (s.2 =? -1); [|done].
  unfold vec_set. apply Forall_insert; [done|]. apply HP.
  eapply Forall_lookup_1; [exact Hvec|]. by apply vec_at_lookup.
Qed.

(** Setting a vertex handle of one particle to a vertex keeps every resolved
    slot resolved. *)
Lemma slot_resolved_set_StartVertex col (p v : nat) (s : Z * Z) :
  slot_resolved col s -> slot_resolved (set_StartVertex p (Some v) col) s.
Proof.
  unfold set_StartVertex. intros [He Hs]. split.
  - intros Hne. destruct (He Hne) as (m & q & -> & Hq & Hend).
    destruct (decide (p = m)) as [->|Hpm].
    + eexists m, _. split; [done|]. rewrite list_lookup_alter_eq, Hq. done.
    + exists m, q. by rewrite list_lookup_alter_ne.
  - intros Hne. destruct (Hs Hne) as (d & q & -> & Hq & Hstart).
    destruct (decide (p = d)) as [->|Hpd].
    + eexists d, _. split; [done|]. rewrite list_lookup_alter_eq, Hq. done.
    + exists d, q. by rewrite list_lookup_alter_ne.
Qed.

Lemma slot_resolved_set_EndVertex col (p v : nat) (s : Z * Z) :
  slot_resolved col s -> slot_resolved (set_EndVertex p (Some v) col) s.
Proof.
  unfold set_EndVertex. intros [He Hs]. split.
  - intros Hne. destruct (He Hne) as (m & q & -> & Hq & Hend).
    destruct (decide (p = m)) as [->|Hpm].
    + eexists m, _. split; [done|]. rewrite list_lookup_alter_eq, Hq. done.
    + exists m, q. by rewrite list_lookup_alter_ne.
  - intros Hne. destruct (Hs Hne) as (d & q & -> & Hq & Hstart).
    destruct (decide (p = d)) as [->|Hpd].
    + eexists d, _. split; [done|]. rewrite list_lookup_alter_eq, Hq. done.
    + exists d, q. by rewrite list_lookup_alter_ne.
Qed.

Lemma slot_resolved_snoc col (x : @MCParticle double) (s : Z * Z) :
  slot_resolved col s -> slot_resolved (col ++ [x]) s.
Proof.
  intros [He Hs]. split.
  - intros Hne. destruct (He Hne) as (m & q & -> & Hq & Hend).
    exists m, q. split; [done|]. split; [by apply lookup_app_l_Some|done].
  - intros Hne. destruct (Hs Hne) as (d & q & -> & Hq & Hstart).
    exists d, q. split; [done|]. split; [by apply lookup_app_l_Some|done].
Qed.

(** Giving the particle [p], which has no start vertex yet, the start vertex
    [v] and then running the mother loop keeps the invariant. *)
Lemma graph_invariant_set_start st (p : nat) (q : @MCParticle double) (v : nat)
    (vtx' : list (@GenVertex double)) (vec' : list (Z * Z)) (n : nat) (iMother : Z) :
  graph_invariant st ->
  colMCParticles st !! p = Some q -> StartVertex q = None ->
  (length (colGenVertices st) <= length vtx')%nat ->
  (v < length vtx')%nat ->
  (forall v0, (v0 < length vtx')%nat -> (v0 < length (colGenVertices st))%nat \/ v0 = v) ->
  mark_mothers n iMother (Z.of_nat p) (vecPartProdVtxIDDecVtxID st) = Some vec' ->
  graph_invariant
    {| vecPartProdVtxIDDecVtxID := vec';
       colMCParticles := set_StartVertex p (Some v) (colMCParticles st);
       colGenVertices := vtx' |}.
Proof.
  intros (Hslots & Hvalid & Href) Hq Hnone Hle Hv Hnew Hrun.
  assert (set_StartVertex p (Some v) (colMCParticles st) !! p =
          Some {| Core := Core q; StartVertex := Some v; EndVertex := EndVertex q |}) as Hp.
  { unfold set_StartVertex. by rewrite list_lookup_alter_eq, Hq. }
  split; [|split]; cbn.
  - eapply mark_mothers_Forall; [|exact (Forall_impl _ _ _ Hslots
                                           (slot_resolved_set_StartVertex _ p v))|exact Hrun].
    intros s [He _]. split; [exact He|].
    intros _. eexists p, _. split; [done|]. split; [exact Hp|]. by eexists.
  - intros i particle Hi.
    destruct (decide (i = p)) as [->|Hip].
    + rewrite Hp in Hi. injection Hi as <-. cbn. split.
      * intros v0 [= <-]. done.
      * intros v0 Hv0. destruct (Hvalid p q Hq) as [_ H]. specialize (H v0 Hv0). lia.
    + unfold set_StartVertex in Hi. rewrite list_lookup_alter_ne in Hi by done.
      destruct (Hvalid i particle Hi) as [H1 H2].
      split; intros v0 Hv0; [specialize (H1 v0 Hv0)|specialize (H2 v0 Hv0)]; lia.
  - intros v0 Hv0. destruct (Hnew v0 Hv0) as [Hold| ->].
    + destruct (Href v0 Hold) as (i & particle & Hi & Hor).
      destruct (decide (i = p)) as [->|Hip].
      * eexists p, _. split; [exact Hp|]. cbn.
        rewrite Hq in Hi. injection Hi as <-.
        destruct Hor as [Hor|Hor]; [congruence|by right].
      * exists i, particle. split; [|done].
        unfold set_StartVertex. by rewrite list_lookup_alter_ne.
    + eexists p, _. split; [exact Hp|]. by left.
Qed.

Lemma graph_invariant_set_end st (p : nat) (q : @MCParticle double) (v : nat)
    (vtx' : list (@GenVertex double)) (vec' : list (Z * Z)) (n : nat) (iDaughter : Z) :
  graph_invariant st ->
  colMCParticles st !! p = Some q -> EndVertex q = None ->
  (length (colGenVertices st) <= length vtx')%nat ->
  (v < length vtx')%nat ->
  (forall v0, (v0 < length vtx')%nat -> (v0 < length (colGenVertices st))%nat \/ v0 = v) ->
  mark_daughters n iDaughter (Z.of_nat p) (vecPartProdVtxIDDecVtxID st) = Some vec' ->
  graph_invariant
    {| vecPartProdVtxIDDecVtxID := vec';
       colMCParticles := set_EndVertex p (Some v) (colMCParticles st);
       colGenVertices := vtx' |}.
Proof.
  intros (Hslots & Hvalid & Href) Hq Hnone Hle Hv Hnew Hrun.
  assert (set_EndVertex p (Some v) (colMCParticles st) !! p =
          Some {| Core := Core q; StartVertex := StartVertex q; EndVertex := Some v |}) as Hp.
  { unfold set_EndVertex. by rewrite list_lookup_alter_eq, Hq. }
  split; [|split]; cbn.
  - eapply mark_daughters_Forall; [|exact (Forall_impl _ _ _ Hslots
                                             (slot_resolved_set_EndVertex _ p v))|exact Hrun].
    intros s [_ Hs]. split; [|exact Hs].
    intros _. eexists p, _. split; [done|]. split; [exact Hp|]. by eexists.
  - intros i particle Hi.
    destruct (decide (i = p)) as [->|Hip].
    + rewrite Hp in Hi. injection Hi as <-. cbn. split.
      * intros v0 Hv0. destruct (Hvalid p q Hq) as [H _]. specialize (H v0 Hv0). lia.
      * intros v0 [= <-]. done.
    + unfold set_EndVertex in Hi. rewrite list_lookup_alter_ne in Hi by done.
      destruct (Hvalid i particle Hi) as [H1 H2].
      split; intros v0 Hv0; [specialize (H1 v0 Hv0)|specialize (H2 v0 Hv0)]; lia.
  - intros v0 Hv0. destruct (Hnew v0 Hv0) as [Hold| ->].
    + destruct (Href v0 Hold) as (i & particle & Hi & Hor).
      destruct (decide (i = p)) as [->|Hip].
      * eexists p, _. split; [exact Hp|]. cbn.
        rewrite Hq in Hi. injection Hi as <-.
        destruct Hor as [Hor|Hor]; [by left|congruence].
      * exists i, particle. split; [|done].
        unfold set_EndVertex. by rewrite list_lookup_alter_ne.
    + eexists p, _. split; [exact Hp|]. by right.
Qed.

(** The production branch keeps the invariant; it sets the start vertex of
    [p] exactly when the candidate has a mother range, and creates at most
    one vertex. *)
Lemma production_vertex_graph cand (p : nat) (idPartStartVertex : Z) st st1
    (q : @MCParticle double) :
  graph_invariant st ->
  colMCParticles st !! p = Some q -> StartVertex q = None ->
  names_end_vertex (colMCParticles st) idPartStartVertex ->
  production_vertex cand (Z.of_nat p) p idPartStartVertex st = Some st1 ->
  graph_invariant st1 /\
  ((M1 cand = -1 /\ st1 = st) \/
   (M1 cand <> -1 /\
    exists v, colMCParticles st1 = set_StartVertex p (Some v) (colMCParticles st) /\
              (length (colGenVertices st) <= length (colGenVertices st1)
               <= length (colGenVertices st) + 1)%nat)).
Proof.
  intros Hinv Hq Hnone Hid. unfold production_vertex.
  destruct (Z.eqb_spec (M1 cand) (-1)) as [HM|HM]; [intros [= <-]; by split; [|left]|].
  destruct (Z.eqb_spec idPartStartVertex (-1)) as [->|Hne]; cbn [negb].
  - cbn [mbind option_bind vecPartProdVtxIDDecVtxID colMCParticles colGenVertices].
    destruct (mark_mothers _ _ _ _) as [vec'|] eqn:Hrun; cbn; [|done].
    intros [= <-]. split.
    + eapply (graph_invariant_set_start st p q); try done.
      * rewrite length_app. cbn. lia.
      * rewrite length_app. cbn. lia.
      * intros v0. rewrite length_app. cbn. lia.
    + right. split; [done|]. eexists. split; [done|]. cbn. rewrite length_app. cbn. lia.
  - destruct (Hid Hne) as (m & particle & -> & Hm & [v Hv]).
    unfold vec_at. destruct (Z.ltb_spec (Z.of_nat m) 0); [lia|].
    rewrite Nat2Z.id, Hm.
    cbn [mbind option_bind vecPartProdVtxIDDecVtxID colMCParticles colGenVertices].
    destruct (mark_mothers _ _ _ _) as [vec'|] eqn:Hrun; cbn; [|done].
    intros [= <-]. rewrite Hv. split.
    + eapply (graph_invariant_set_start st p q); try done.
      * destruct Hinv as (_ & Hvalid & _). destruct (Hvalid m particle Hm) as [_ Hvm].
        by apply Hvm.
      * intros v0 Hv0. by left.
    + right. split; [done|]. eexists. split; [done|]. cbn. lia.
Qed.

Lemma decay_vertex_graph (Input : list (@Candidate double)) cand (p : nat)
    (idPartEndVertex : Z) st st1 (q : @MCParticle double) :
  graph_invariant st ->
  colMCParticles st !! p = Some q -> EndVertex q = None ->
  names_start_vertex (colMCParticles st) idPartEndVertex ->
  decay_vertex Input cand (Z.of_nat p) p idPartEndVertex st = Some st1 ->
  graph_invariant st1 /\
  ((D1 cand = -1 /\ st1 = st) \/
   (D1 cand <> -1 /\
    exists v, colMCParticles st1 = set_EndVertex p (Some v) (colMCParticles st) /\
              (length (colGenVertices st) <= length (colGenVertices st1)
               <= length (colGenVertices st) + 1)%nat)).
Proof.
  intros Hinv Hq Hnone Hid. unfold decay_vertex.
  destruct (Z.eqb_spec (D1 cand) (-1)) as [HD|HD]; [intros [= <-]; by split; [|left]|].
  destruct (Z.eqb_spec idPartEndVertex (-1)) as [->|Hne]; cbn [negb].
  - destruct (vec_at Input (D1 cand)) as [daughter|]; cbn [mbind option_bind]; [|done].
    cbn [vecPartProdVtxIDDecVtxID colMCParticles colGenVertices].
    destruct (mark_daughters _ _ _ _) as [vec'|] eqn:Hrun; cbn; [|done].
    intros [= <-]. split.
    + eapply (graph_invariant_set_end st p q); try done.
      * rewrite length_app. cbn. lia.
      * rewrite length_app. cbn. lia.
      * intros v0. rewrite length_app. cbn. lia.
    + right. split; [done|]. eexists. split; [done|]. cbn. rewrite length_app. cbn. lia.
  - destruct (Hid Hne) as (d & particle & -> & Hd & [v Hv]).
    unfold vec_at. destruct (Z.ltb_spec (Z.of_nat d) 0); [lia|].
    rewrite Nat2Z.id, Hd.
    cbn [mbind option_bind vecPartProdVtxIDDecVtxID colMCParticles colGenVertices].
    destruct (mark_daughters _ _ _ _) as [vec'|] eqn:Hrun; cbn; [|done].
    intros [= <-]. rewrite Hv. split.
    + eapply (graph_invariant_set_end st p q); try done.
      * destruct Hinv as (_ & Hvalid & _). destruct (Hvalid d particle Hd) as [Hvd _].
        by apply Hvd.
      * intros v0 Hv0. by left.
    + right. split; [done|]. eexists. split; [done|]. cbn. lia.
Qed.

Lemma set_StartVertex_snoc col (x : @MCParticle double) (v : option nat) :
  set_StartVertex (length col) v (col ++ [x]) =
  col ++ [{| Core := Core x; StartVertex := v; EndVertex := EndVertex x |}].
Proof. unfold set_StartVertex. induction col as [|y col IH]; cbn; [done|by f_equal]. Qed.

Lemma set_EndVertex_snoc col (x : @MCParticle double) (v : option nat) :
  set_EndVertex (length col) v (col ++ [x]) =
  col ++ [{| Core := Core x; StartVertex := StartVertex x; EndVertex := v |}].
Proof. unfold set_EndVertex. induction col as [|y col IH]; cbn; [done|by f_equal]. Qed.

Lemma graph_invariant_snoc st (x : @MCParticle double) :
  graph_invariant st -> StartVertex x = None -> EndVertex x = None ->
  graph_invariant
    {| vecPartProdVtxIDDecVtxID := vecPartProdVtxIDDecVtxID st;
       colMCParticles := colMCParticles st ++ [x];
       colGenVertices := colGenVertices st |}.
Proof.
  intros (Hslots & Hvalid & Href) Hs He. split; [|split]; cbn.
  - eapply Forall_impl; [exact Hslots|]. intros s. apply slot_resolved_snoc.
  - intros i particle Hi. apply lookup_app_Some in Hi.
    destruct Hi as [Hi|[_ Hi]]; [by apply (Hvalid i)|].
    apply list_lookup_singleton_Some in Hi. destruct Hi as [_ <-].
    rewrite Hs, He. by split.
  - intros v Hv. destruct (Href v Hv) as (i & particle & Hi & Hor).
    exists i, particle. split; [by apply lookup_app_l_Some|done].
Qed.

(** One iteration of the builder keeps the graph invariant, appends one
    particle whose vertex sides are those its candidate asks for, and
    creates at most one vertex per side asked for. *)
Lemma ConvertMCParticles_body_graph (Input : list (@Candidate double)) (j : nat) cand st st' :
  graph_invariant st -> length (colMCParticles st) = j ->
  ConvertMCParticles_body Input j cand st = Some st' ->
  graph_invariant st' /\
  (exists particle,
     colMCParticles st' = colMCParticles st ++ [particle] /\ sides_match particle cand) /\
  (length (colGenVertices st') <=
   length (colGenVertices st) + requested_sides [cand])%nat.
Proof.
  intros Hinv Hlen. unfold ConvertMCParticles_body.
  destruct (vec_at (vecPartProdVtxIDDecVtxID st) (Z.of_nat j)) as [s|] eqn:Hs;
    cbn [mbind option_bind]; [|done].
  assert (slot_resolved (colMCParticles st) s) as Hres.
  { destruct Hinv as (Hslots & _). eapply Forall_lookup_1; [exact Hslots|].
    by apply vec_at_lookup. }
  set (x := {| Core := genealogy_core cand; StartVertex := None; EndVertex := None |}).
  set (st0 := {| vecPartProdVtxIDDecVtxID := vecPartProdVtxIDDecVtxID st;
                 colMCParticles := colMCParticles st ++ [x];
                 colGenVertices := colGenVertices st |}).
  rewrite Hlen.
  destruct (production_vertex cand (Z.of_nat j) j s.1 st0) as [st1|] eqn:Hrun1;
    cbn [mbind option_bind]; [|done].
  intros Hrun2.
  assert (graph_invariant st0) as Hinv0 by (by apply graph_invariant_snoc).
  assert (colMCParticles st0 !! j = Some x) as Hx.
  { subst st0. cbn. rewrite <- Hlen. by apply list_lookup_middle. }
  destruct (production_vertex_graph cand j s.1 st0 st1 x Hinv0 Hx eq_refl) as (Hinv1 & Hcase1);
    [apply (slot_resolved_snoc _ x) in Hres; by destruct Hres|exact Hrun1|].
  assert (exists sv, colMCParticles st1 =
                       colMCParticles st ++
                       [{| Core := genealogy_core cand; StartVertex := sv; EndVertex := None |}] /\
                     (sv = None <-> M1 cand = -1) /\
                     names_start_vertex (colMCParticles st1) s.2 /\
                     (length (colGenVertices st1) <=
                      length (colGenVertices st) +
                      length (filter (fun c => M1 c <> (-1)%Z) [cand]))%nat)
    as (sv & Hcol1 & Hsv & Hname & Hcount1).
  { destruct Hcase1 as [[HM ->]|(HM & v & Hcol & Hvtx)].
    - exists None. split; [done|]. split; [done|]. split.
      + apply (slot_resolved_snoc _ x) in Hres. by destruct Hres.
      + subst st0. cbn. lia.
    - exists (Some v). split; [|split; [done|split]].
      + rewrite Hcol. subst st0. cbn. rewrite <- Hlen. apply set_StartVertex_snoc.
      + rewrite Hcol. apply (slot_resolved_snoc _ x) in Hres.
        apply (slot_resolved_set_StartVertex _ j v) in Hres. by destruct Hres.
      + subst st0. cbn in Hvtx. rewrite filter_cons, decide_True by done. cbn. lia. }
  assert (colMCParticles st1 !! j =
          Some {| Core := genealogy_core cand; StartVertex := sv; EndVertex := None |}) as Hx1.
  { rewrite Hcol1, <- Hlen. by apply list_lookup_middle. }
  destruct (decay_vertex_graph Input cand j s.2 st1 st' _ Hinv1 Hx1 eq_refl Hname Hrun2)
    as (Hinv2 & Hcase2).
  split; [exact Hinv2|].
  unfold requested_sides.
  destruct Hcase2 as [[HD ->]|(HD & v & Hcol & Hvtx)].
  - split; [eexists; split; [exact Hcol1|by split]|].
    rewrite (filter_cons (fun c => D1 c <> -1)), decide_False by tauto.
    rewrite filter_nil. cbn [length]. lia.
  - split.
    + eexists. split.
      * rewrite Hcol, Hcol1, <- Hlen. apply set_EndVertex_snoc.
      * split; cbn; [done|]. split; [done|]. intros ?; done.
    + rewrite (filter_cons (fun c => D1 c <> -1)), decide_True by done.
      cbn [length]. lia.
Qed.

Lemma requested_sides_app (l1 l2 : list (@Candidate double)) :
  requested_sides (l1 ++ l2) = (requested_sides l1 + requested_sides l2)%nat.
Proof. unfold requested_sides. rewrite !filter_app, !length_app. lia. Qed.

Lemma ConvertMCParticles_loop_graph (Input todo : list (@Candidate double)) (j : nat) st st' :
  drop j Input = todo -> (j <= length Input)%nat ->
  builder_graph_state Input j st ->
  ConvertMCParticles_loop Input todo j st = Some st' ->
  builder_graph_state Input (length Input) st'.
Proof.
  revert j st. induction todo as [|cand todo IH]; intros j st Hdrop Hle Hstate Hrun.
  - injection Hrun as <-. apply drop_nil_inv in Hdrop.
    by replace (length Input) with j by lia.
  - assert (Input !! j = Some cand) as Hj.
    { rewrite <- (Nat.add_0_r j), <- lookup_drop, Hdrop. done. }
    pose proof (lookup_lt_Some _ _ _ Hj) as Hjn.
    cbn [ConvertMCParticles_loop] in Hrun.
    destruct (ConvertMCParticles_body Input j cand st) as [st1|] eqn:Hbody;
      cbn [mbind option_bind] in Hrun; [|done].
    destruct Hstate as (Hinv & Hsides & Hcount).
    assert (length (colMCParticles st) = j) as Hlen.
    { rewrite (Forall2_length _ _ _ Hsides), length_take. lia. }
    destruct (ConvertMCParticles_body_graph Input j cand st st1 Hinv Hlen Hbody)
      as (Hinv1 & (particle & Hcol & Hside) & Hcount1).
    apply (IH (S j) st1); [|lia| |exact Hrun].
    + rewrite (drop_S _ _ _ Hj) in Hdrop. by injection Hdrop.
    + split; [exact Hinv1|]. rewrite (take_S_r _ _ _ Hj). split.
      * rewrite Hcol. apply Forall2_app; [done|]. constructor; [done|constructor].
      * rewrite requested_sides_app. lia.
Qed.

Lemma ConvertMCParticles_graph (Input : list (@Candidate double)) st :
  ConvertMCParticles Input [] [] = Some st ->
  builder_graph_state Input (length Input) st.
Proof.
  intros Hrun. eapply (ConvertMCParticles_loop_graph Input Input 0); [done|lia| |exact Hrun].
  split; [|split]; cbn.
  - split; [|split]; cbn.
    + apply Forall_replicate. split; intros H; done.
    + intros i particle Hi. by rewrite lookup_nil in Hi.
    + intros v Hv. lia.
  - constructor.
  - lia.
Qed.

(** X6.  In the graph of a completed run the particle of every candidate
    carries a start vertex exactly when the candidate has a mother range
    ([M1] is not [-1]) and an end vertex exactly when it has a daughter range
    ([D1] is not [-1]), and every vertex handle a particle carries is a
    position of the vertex collection: no handle dangles. *)
Theorem builder_vertex_handles (Input : list (@Candidate double)) st :
  ConvertMCParticles Input [] [] = Some st ->
  forall (j : nat) cand,
    Input !! j = Some cand ->
    exists particle,
      colMCParticles st !! j = Some particle /\
      (StartVertex particle = None <-> M1 cand = -1) /\
      (EndVertex particle = None <-> D1 cand = -1) /\
      (forall v, StartVertex particle = Some v -> (v < length (colGenVertices st))%nat) /\
      (forall v, EndVertex particle = Some v -> (v < length (colGenVertices st))%nat).
Proof.
  intros Hrun j cand Hj.
  destruct (ConvertMCParticles_graph Input st Hrun) as ((_ & Hvalid & _) & Hsides & _).
  rewrite firstn_all in Hsides.
  destruct (Forall2_lookup_r _ _ _ _ _ Hsides Hj) as (particle & Hp & [Hs He]).
  exists particle. split; [done|]. split; [done|]. split; [done|].
  destruct (Hvalid j particle Hp) as [H1 H2]. split; [exact H1|exact H2].
Qed.

(** X7.  A completed run leaves no orphan vertex and no surplus vertex:
    every vertex of the collection is the start or the end vertex of some
    particle, and the number of vertices is at most the number of mother
    ranges plus the number of daughter ranges of the input; an input without
    any range creates no vertex. *)
Theorem builder_vertices_are_referenced (Input : list (@Candidate double)) st :
  ConvertMCParticles Input [] [] = Some st ->
  (forall v, (v < length (colGenVertices st))%nat ->
     exists (j : nat) particle,
       colMCParticles st !! j = Some particle /\
       (StartVertex particle = Some v \/ EndVertex particle = Some v)) /\
  (length (colGenVertices st) <=
   length (filter (fun cand => M1 cand <> (-1)%Z) Input) +
   length (filter (fun cand => D1 cand <> (-1)%Z) Input))%nat /\
  (Forall (fun cand => M1 cand = -1 /\ D1 cand = -1) Input -> colGenVertices st = []).
Proof.
  intros Hrun.
  destruct (ConvertMCParticles_graph Input st Hrun) as ((_ & _ & Href) & _ & Hcount).
  rewrite firstn_all in Hcount. unfold requested_sides in Hcount.
  split; [exact Href|]. split; [exact Hcount|].
  intros Hnone.
  assert (filter (fun cand => M1 cand <> -1) Input = []) as H1.
  { clear -Hnone. induction Hnone as [|c l [Hc _] _ IH]; [done|].
    by rewrite filter_cons, decide_False, IH by tauto. }
  assert (filter (fun cand => D1 cand <> -1) Input = []) as H2.
  { clear -Hnone. induction Hnone as [|c l [_ Hc] _ IH]; [done|].
    by rewrite filter_cons, decide_False, IH by tauto. }
  rewrite H1, H2 in Hcount. cbn in Hcount.
  destruct (colGenVertices st); [done|cbn in Hcount; lia].
Qed.

End GraphProperties.
(** ** Transcription and bounds of the builder *)

Lemma mark_mothers_length (n : nat) (iMother j : Z) (vec vec' : list (Z * Z)) :
  mark_mothers n iMother j vec = Some vec' -> length vec' = length vec.
Proof.
  revert iMother vec. induction n as [|n IH]; intros iMother vec Hrun;
    [by injection Hrun as <-|].
  cbn [mark_mothers] in Hrun.
  destruct (vec_at vec iMother) as [s|]; cbn [mbind option_bind] in Hrun; [|done].
  rewrite (IH _ _ Hrun). destruct (s.2 =? -1); [|done].
  unfold vec_set. apply length_insert.
Qed.

Lemma mark_daughters_length (n : nat) (iDaughter j : Z) (vec vec' : list (Z * Z)) :
  mark_daughters n iDaughter j vec = Some vec' -> length vec' = length vec.
Proof.
  revert iDaughter vec. induction n as [|n IH]; intros iDaughter vec Hrun;
    [by injection Hrun as <-|].
  cbn [mark_daughters] in Hrun.
  destruct (0 <=? iDaughter); cbn [mbind option_bind] in Hrun; [|by apply IH in Hrun].
  destruct (vec_at vec iDaughter) as [s|]; cbn [mbind option_bind] in Hrun; [|done].
  rewrite (IH _ _ Hrun). destruct (s.2 =? -1); [|done].
  unfold vec_set. apply length_insert.
Qed.

(** The mother loop reads the side table at every index of its range: a range
    that leaves the table makes it read outside. *)
Lemma mark_mothers_outside (n : nat) (iMother j : Z) (vec : list (Z * Z)) (k : Z) :
  iMother <= k < iMother + Z.of_nat n ->
  k < 0 \/ Z.of_nat (length vec) <= k ->
  mark_mothers n iMother j vec = None.
Proof.
  revert iMother vec. induction n as [|n IH]; intros iMother vec Hk Hout; [lia|].
  cbn [mark_mothers].
  destruct (vec_at vec iMother) as [s|] eqn:Hs; cbn [mbind option_bind]; [|done].
  assert (0 <= iMother < Z.of_nat (length vec)) as Hin.
  { unfold vec_at in Hs. destruct (Z.ltb_spec iMother 0); [done|].
    apply lookup_lt_Some in Hs. lia. }
  apply IH; [lia|]. destruct (s.2 =? -1); [|done].
  unfold vec_set. rewrite length_insert. done.
Qed.

(** The daughter loop skips negative indices and reads the side table at
    every other index of its range. *)
Lemma mark_daughters_outside (n : nat) (iDaughter j : Z) (vec : list (Z * Z)) (k : Z) :
  iDaughter <= k < iDaughter + Z.of_nat n ->
  Z.of_nat (length vec) <= k ->
  mark_daughters n iDaughter j vec = None.
Proof.
  revert iDaughter vec. induction n as [|n IH]; intros iDaughter vec Hk Hout; [lia|].
  cbn [mark_daughters].
  destruct (Z.leb_spec 0 iDaughter); cbn [mbind option_bind]; [|apply IH; lia].
  destruct (vec_at vec iDaughter) as [s|] eqn:Hs; cbn [mbind option_bind]; [|done].
  assert (0 <= iDaughter < Z.of_nat (length vec)) as Hin.
  { unfold vec_at in Hs. destruct (Z.ltb_spec iDaughter 0); [done|].
    apply lookup_lt_Some in Hs. lia. }
  apply IH; [lia|]. destruct (s.2 =? -1); [|done].
  unfold vec_set. rewrite length_insert. done.
Qed.

Section BuilderBounds.

Context {double : Type}.

Implicit Types (cand : @Candidate double) (st : @BuilderState double).

Lemma production_vertex_table_length cand (j : Z) (p : nat) (id : Z) st st' :
  production_vertex cand j p id st = Some st' ->
  length (vecPartProdVtxIDDecVtxID st') = length (vecPartProdVtxIDDecVtxID st).
Proof.
  unfold production_vertex.
  destruct (M1 cand =? -1); [by intros [= <-]|].
  destruct (negb (id =? -1)).
  - destruct (vec_at (colMCParticles st) id) as [m|]; cbn; [|done].
    destruct (mark_mothers _ _ _ _) as [vec|] eqn:Hrun; cbn; [|done].
    intros [= <-]. cbn. by apply mark_mothers_length in Hrun.
  - cbn. destruct (mark_mothers _ _ _ _) as [vec|] eqn:Hrun; cbn; [|done].
    intros [= <-]. cbn. by apply mark_mothers_length in Hrun.
Qed.

Lemma decay_vertex_table_length (Input : list (@Candidate double)) cand (j : Z) (p : nat)
    (id : Z) st st' :
  decay_vertex Input cand j p id st = Some st' ->
  length (vecPartProdVtxIDDecVtxID st') = length (vecPartProdVtxIDDecVtxID st).
Proof.
  unfold decay_vertex.
  destruct (D1 cand =? -1); [by intros [= <-]|].
  destruct (negb (id =? -1)).
  - destruct (vec_at (colMCParticles st) id) as [m|]; cbn; [|done].
    destruct (mark_daughters _ _ _ _) as [vec|] eqn:Hrun; cbn; [|done].
    intros [= <-]. cbn. by apply mark_daughters_length in Hrun.
  - destruct (vec_at Input (D1 cand)) as [daughter|]; cbn; [|done].
    destruct (mark_daughters _ _ _ _) as [vec|] eqn:Hrun; cbn; [|done].
    intros [= <-]. cbn. by apply mark_daughters_length in Hrun.
Qed.

Lemma ConvertMCParticles_body_table_length (Input : list (@Candidate double)) (j : nat)
    cand st st' :
  ConvertMCParticles_body Input j cand st = Some st' ->
  length (vecPartProdVtxIDDecVtxID st') = length (vecPartProdVtxIDDecVtxID st).
Proof.
  unfold ConvertMCParticles_body.
  destruct (vec_at (vecPartProdVtxIDDecVtxID st) (Z.of_nat j)) as [s|]; cbn; [|done].
  destruct (production_vertex _ _ _ _ _) as [st1|] eqn:H1; cbn; [|done].
  intros H2. apply decay_vertex_table_length in H2.
  apply production_vertex_table_length in H1. rewrite H2, H1. done.
Qed.

(** A range that reaches outside the input makes the iteration of its
    candidate leave the side table. *)
Lemma ConvertMCParticles_body_outside (Input : list (@Candidate double)) (j : nat) cand st :
  (M1 cand <> -1 /\ M1 cand <= M2 cand /\
   (M1 cand < 0 \/ Z.of_nat (length (vecPartProdVtxIDDecVtxID st)) <= M2 cand)) \/
  (D1 cand <> -1 /\ D1 cand <= D2 cand /\
   Z.of_nat (length (vecPartProdVtxIDDecVtxID st)) <= D2 cand) ->
  ConvertMCParticles_body Input j cand st = None.
Proof.
  intros Hout. unfold ConvertMCParticles_body.
  destruct (vec_at (vecPartProdVtxIDDecVtxID st) (Z.of_nat j)) as [s|]; cbn; [|done].
  match goal with |- context [production_vertex ?c ?jz ?p ?id ?s0] =>
    destruct (production_vertex c jz p id s0) as [st1|] eqn:H1 end; cbn; [|done].
  pose proof (production_vertex_table_length _ _ _ _ _ _ H1) as Hlen1. cbn in Hlen1.
  destruct Hout as [(HM & Hle & Hout)|(HD & Hle & Hout)].
  - exfalso. revert H1. unfold production_vertex.
    destruct (Z.eqb_spec (M1 cand) (-1)); [done|].
    assert (forall vec, length vec = length (vecPartProdVtxIDDecVtxID st) ->
              mark_mothers (trip_count (M1 cand) (M2 cand)) (M1 cand) (Z.of_nat j) vec = None)
      as Hfail.
    { intros vec Hvec. unfold trip_count.
      destruct Hout as [Hneg|Hbig].
      - apply (mark_mothers_outside _ _ _ _ (M1 cand)); [lia|by left].
      - apply (mark_mothers_outside _ _ _ _ (M2 cand)); [lia|right; lia]. }
    destruct (negb (s.1 =? -1)).
    + destruct (vec_at _ s.1) as [m|]; cbn; [|done]. by rewrite Hfail.
    + cbn. by rewrite Hfail.
  - unfold decay_vertex. destruct (Z.eqb_spec (D1 cand) (-1)); [done|].
    assert (mark_daughters (trip_count (D1 cand) (D2 cand)) (D1 cand) (Z.of_nat j)
              (vecPartProdVtxIDDecVtxID st1) = None) as Hfail.
    { unfold trip_count. apply (mark_daughters_outside _ _ _ _ (D2 cand)); lia. }
    destruct (negb (s.2 =? -1)).
    + destruct (vec_at _ s.2) as [m|]; cbn; [|done]. by rewrite Hfail.
    + destruct (vec_at Input (D1 cand)) as [daughter|]; cbn; [|done]. by rewrite Hfail.
Qed.

Lemma ConvertMCParticles_loop_outside (Input todo : list (@Candidate double)) (j : nat) st
    (k : nat) cand :
  length (vecPartProdVtxIDDecVtxID st) = length Input ->
  todo !! k = Some cand ->
  (M1 cand <> -1 /\ M1 cand <= M2 cand /\
   (M1 cand < 0 \/ Z.of_nat (length Input) <= M2 cand)) \/
  (D1 cand <> -1 /\ D1 cand <= D2 cand /\ Z.of_nat (length Input) <= D2 cand) ->
  ConvertMCParticles_loop Input todo j st = None.
Proof.
  revert j st k. induction todo as [|c todo IH]; intros j st k Hlen Hk Hout; [done|].
  cbn [ConvertMCParticles_loop].
  destruct k as [|k].
  - injection Hk as ->. rewrite ConvertMCParticles_body_outside; [done|].
    by rewrite Hlen.
  - destruct (ConvertMCParticles_body Input j c st) as [st1|] eqn:Hbody; cbn; [|done].
    apply (IH _ _ k); [|done|done].
    by rewrite (ConvertMCParticles_body_table_length _ _ _ _ _ Hbody).
Qed.

(** X8.  The particle of every candidate transcribes the candidate: [PID]
    as type, [Status], [Charge], the momentum components and mass, and the
    position as vertex of the core. *)
Theorem builder_cores_are_transcribed (Input : list (@Candidate double)) st :
  ConvertMCParticles Input [] [] = Some st ->
  forall (j : nat) cand,
    Input !! j = Some cand ->
    exists particle,
      colMCParticles st !! j = Some particle /\
      Type_ (Core particle) = PID cand /\
      Status_ (Core particle) = Status cand /\
      Charge_ (Core particle) = Charge cand /\
      P4 (Core particle) =
        {| lvPx := Px (Momentum cand); lvPy := Py (Momentum cand);
           lvPz := Pz (Momentum cand); lvMass := M (Momentum cand) |} /\
      Vertex (Core particle) =
        {| ptX := X (Position cand); ptY := Y (Position cand); ptZ := Z_ (Position cand) |}.
Proof.
  intros Hrun j cand Hj.
  apply ConvertMCParticles_loop_Core in Hrun. cbn in Hrun.
  assert ((Core <$> colMCParticles st) !! j = Some (genealogy_core cand)) as Hc.
  { by rewrite Hrun, list_lookup_fmap, Hj. }
  rewrite list_lookup_fmap in Hc.
  destruct (colMCParticles st !! j) as [particle|]; [|done].
  injection Hc as Hc. exists particle. split; [done|]. by rewrite Hc.
Qed.

(** X9.  The builder does not guard the ranges it is given.  When some
    candidate has a non-empty mother range that starts below 0 or ends at or
    after the number of candidates, or a non-empty daughter range that ends
    at or after the number of candidates, the run does not return a result:
    it accesses one of its containers outside its bounds, which is the side
    table, the particle collection, or the input array, whose [At] then
    yields the null pointer that the position of the daughter is read
    through. *)
Theorem builder_reads_outside_on_wide_range (Input : list (@Candidate double))
    (k : nat) cand :
  Input !! k = Some cand ->
  (M1 cand <> -1 /\ M1 cand <= M2 cand /\
   (M1 cand < 0 \/ Z.of_nat (length Input) <= M2 cand)) \/
  (D1 cand <> -1 /\ D1 cand <= D2 cand /\ Z.of_nat (length Input) <= D2 cand) ->
  ConvertMCParticles Input [] [] = None.
Proof.
  intros Hk Hout. unfold ConvertMCParticles.
  apply (ConvertMCParticles_loop_outside Input Input 0 _ k cand); [|done|done].
  cbn. by rewrite length_replicate.
Qed.

End BuilderBounds.

(** ** One event through [execute] *)

Section ExecuteProperties.

Context {double : Type}.
Variable double_of_int : Z -> double.
Variable unlinked_core : option (@BareParticle double).
Variable energy_of : @LorentzVector double -> double.
Variable size_declaration : SizeDeclaration.

Implicit Types (colMC : list (@MCParticle double)).






End ExecuteProperties.
(** * The smearing of generated particles *)

Section SmearProperties.

Context {float double ToolState Others : Type}.
Variable nonzero : float -> bool.
Variable double_of_float : float -> double.
Variable float_of_double : double -> float.
Variable smearMomentum : ToolState -> @Hep3Vector double -> Z -> ToolState * @Hep3Vector double.

Local Abbreviation particle := (@EdmMCParticle float Others).
Local Abbreviation run simTracker coll tool :=
  (SmearGenParticles_execute nonzero double_of_float float_of_double smearMomentum
     simTracker coll tool).

Lemma SmearGenParticles_snoc (simTracker : bool) (coll : list particle) (x : particle) tool :
  run simTracker (coll ++ [x]) tool =
  SmearGenParticles_body nonzero double_of_float float_of_double smearMomentum
    simTracker x (run simTracker coll tool).
Proof. unfold SmearGenParticles_execute. by rewrite fold_left_app. Qed.

(** X11.  The smeared collection holds, in input order, one clone of every
    input particle that has a non-zero charge or the PDG code [-211], or of
    every input particle when the tracker simulation is off, and of no other
    particle; a clone differs from its original at most in the momentum;
    [n_part] is the size of the output, which never exceeds the size of the
    input. *)
Theorem smeared_particles_are_the_kept_ones (simTracker : bool) (coll : list particle)
    (tool : ToolState) :
  let out := run simTracker coll tool in
  Forall2 same_but_momentum (particles out) (filter (fun p => kept nonzero simTracker p = true) coll) /\
  n_part out = Z.of_nat (length (particles out)) /\
  (length (particles out) <= length coll)%nat /\
  (simTracker = false -> length (particles out) = length coll) /\
  (simTracker = true ->
   Forall (fun p => nonzero (getCharge p) = true \/ getPDG p = -211) (particles out)).
Proof.
  cbn zeta.
  assert (Forall2 same_but_momentum (particles (run simTracker coll tool))
            (filter (fun p => kept nonzero simTracker p = true) coll) /\
          n_part (run simTracker coll tool) =
            Z.of_nat (length (particles (run simTracker coll tool)))) as [Hsel Hcount].
  { induction coll as [|x coll [IH1 IH2]] using rev_ind; [by split; [constructor|]|].
    rewrite SmearGenParticles_snoc, filter_app, filter_cons, filter_nil.
    unfold SmearGenParticles_body.
    destruct (kept nonzero simTracker x) eqn:Hx.
    - rewrite decide_True by done. cbn. split.
      + apply Forall2_app; [done|]. constructor; [by repeat split|constructor].
      + rewrite length_app. cbn. lia.
    - rewrite decide_False by (by intros ?). rewrite app_nil_r. by split. }
  split; [exact Hsel|]. split; [exact Hcount|].
  pose proof (Forall2_length _ _ _ Hsel) as Hlen.
  split; [rewrite Hlen; apply length_filter|]. split.
  - intros ->. rewrite Hlen. f_equal.
    clear. induction coll as [|x coll IH]; [done|].
    rewrite filter_cons, decide_True, IH; [done|].
    unfold kept. by rewrite orb_true_r.
  - intros ->. apply Forall_forall. intros p Hp.
    apply list_elem_of_lookup in Hp. destruct Hp as [i Hi].
    destruct (Forall2_lookup_l _ _ _ _ _ Hsel Hi) as (orig & Horig & Hc & Hpdg & _).
    apply list_elem_of_lookup_2, list_elem_of_filter in Horig. destruct Horig as [Hkept _].
    unfold kept in Hkept. rewrite orb_false_r in Hkept.
    apply orb_true_iff in Hkept. rewrite Hc, Hpdg.
    destruct Hkept as [?|Hk]; [by left|right]. by apply Z.eqb_eq.
Qed.

End SmearProperties.

(** X11, witness: the photon is dropped when the tracker is simulated, and
    the pion written with charge 0 is kept through its PDG code. *)
Lemma smeared_particles_are_the_kept_ones_witness :
  getPDG <$> particles (SmearGenParticles_execute sample_nonzero id id sample_smearing
                          true sample_generated 0%nat) = [11; -211] /\
  Forall (fun p => sample_nonzero (getCharge p) = true \/ getPDG p = -211)
    (particles (SmearGenParticles_execute sample_nonzero id id sample_smearing
                  true sample_generated 0%nat)).
Proof.
  split; [vm_compute; reflexivity|].
  destruct (smeared_particles_are_the_kept_ones sample_nonzero id id sample_smearing
              true sample_generated 0%nat) as (_ & _ & _ & _ & Hcharged).
  exact (Hcharged eq_refl).
Defined.

(** * The Papas algorithm *)







(** ** The properties on sample events *)

(** X2, witness: a photon whose only reference is an intermediate candidate
    pointing at truth particle 7. *)
Lemma photon_status_by_hit_count_witness :
  ([photon_with [reference 41 [8]]] !! 0%nat = Some (photon_with [reference 41 [8]]) /\
   ConvertPhotons id (take 0 [photon_with [reference 41 [8]]]) (truth_particles 10)
     fresh_reco = Returned fresh_reco) /\
  exists p,
    colParticles (state_reached (photon_run [reference 41 [8]])) !! 0%nat = Some p /\
    Bits p = Assigned MatchInCascade /\
    Bits p <> Assigned Matched.
Proof.
  split; [split; reflexivity|].
  destruct (photon_status_by_hit_count id [photon_with [reference 41 [8]]]
              (truth_particles 10) fresh_reco 0%nat _ fresh_reco eq_refl eq_refl)
    as (p & Hp & _ & Hcascade & _ & Hnever & _).
  exists p. split; [exact Hp|]. split; [|exact Hnever].
  apply Hcascade. split; reflexivity.
Defined.

(** X4, witness: an electron whose first reference is the identifier 6. *)
Lemma association_links_well_formed_witness :
  ([electron_with [reference 6 []]] !! 0%nat = Some (electron_with [reference 6 []]) /\
   ConvertParticles_upto None sample_energy SizeIsInt 0 [electron_with [reference 6 []]]
     (truth_particles 10) fresh_reco =
     Returned (announce_entries [electron_with [reference 6 []]] fresh_reco)) /\
  exists r,
    ascColParticlesToMC (state_reached (electron_run SizeIsInt None [reference 6 []]))
      !! 0%nat = Some r /\
    (forall h, Rec r = Some h -> h = 0%nat) /\
    (forall i, Sim r = Some i -> 0 <= i < 10 /\ Rec r = Some 0%nat).
Proof.
  split; [split; reflexivity|].
  destruct (proj1 (association_links_well_formed id None sample_energy SizeIsInt)
              [electron_with [reference 6 []]] (truth_particles 10) fresh_reco 0%nat _ _
              eq_refl eq_refl)
    as (r & Hr & Hrec & Hsim & _).
  exists r. split; [exact Hr|]. split; [exact Hrec|exact Hsim].
Defined.

(** X5, witness: the same electron. *)
Lemma reconstructed_cores_are_transcribed_witness :
  ([electron_with [reference 6 []]] !! 0%nat = Some (electron_with [reference 6 []]) /\
   ConvertParticles_upto None sample_energy SizeIsInt 0 [electron_with [reference 6 []]]
     (truth_particles 10) fresh_reco =
     Returned (announce_entries [electron_with [reference 6 []]] fresh_reco)) /\
  exists p,
    colParticles (state_reached (electron_run SizeIsInt None [reference 6 []])) !! 0%nat =
      Some p /\
    Type_ p = 11 /\ Status_ p = 1 /\ Charge_ p = -1 /\
    P4 p = {| lvPx := 1; lvPy := 2; lvPz := 3; lvMass := 4 |}.
Proof.
  split; [split; reflexivity|].
  destruct (proj1 (reconstructed_cores_are_transcribed id None sample_energy SizeIsInt)
              [electron_with [reference 6 []]] (truth_particles 10) fresh_reco 0%nat _ _
              eq_refl eq_refl)
    as (p & Hp & Ht & Hs & Hc & Hm & _).
  exists p. split; [exact Hp|]. split; [exact Ht|]. split; [exact Hs|].
  split; [exact Hc|exact Hm].
Defined.

(** X6, witness: the family of [mother_first]. *)
Lemma builder_vertex_handles_witness :
  exists st,
    ConvertMCParticles mother_first [] [] = Some st /\
    forall (j : nat) cand,
      mother_first !! j = Some cand ->
      exists particle,
        colMCParticles st !! j = Some particle /\
        (StartVertex particle = None <-> M1 cand = -1) /\
        (EndVertex particle = None <-> D1 cand = -1) /\
        (forall v, StartVertex particle = Some v -> (v < length (colGenVertices st))%nat) /\
        (forall v, EndVertex particle = Some v -> (v < length (colGenVertices st))%nat).
Proof.
  assert (exists st, ConvertMCParticles mother_first [] [] = Some st) as [st Hst].
  { eexists. vm_compute. reflexivity. }
  exists st. split; [exact Hst|]. exact (builder_vertex_handles mother_first st Hst).
Defined.

(** X7, witness: the chain of [grand_daughter_first]. *)
Lemma builder_vertices_are_referenced_witness :
  exists st,
    ConvertMCParticles grand_daughter_first [] [] = Some st /\
    (forall v, (v < length (colGenVertices st))%nat ->
       exists (j : nat) particle,
         colMCParticles st !! j = Some particle /\
         (StartVertex particle = Some v \/ EndVertex particle = Some v)) /\
    (length (colGenVertices st) <= 4)%nat.
Proof.
  assert (exists st, ConvertMCParticles grand_daughter_first [] [] = Some st) as [st Hst].
  { eexists. vm_compute. reflexivity. }
  exists st. split; [exact Hst|].
  destruct (builder_vertices_are_referenced grand_daughter_first st Hst) as (Href & Hcount & _).
  split; [exact Href|exact Hcount].
Defined.

(** X8, witness: the pair of [mother_then_daughter]. *)
Lemma builder_cores_are_transcribed_witness :
  exists st,
    ConvertMCParticles mother_then_daughter [] [] = Some st /\
    forall (j : nat) cand,
      mother_then_daughter !! j = Some cand ->
      exists particle,
        colMCParticles st !! j = Some particle /\
        Type_ (Core particle) = PID cand /\
        Status_ (Core particle) = Status cand /\
        Charge_ (Core particle) = Charge cand /\
        P4 (Core particle) =
          {| lvPx := Px (Momentum cand); lvPy := Py (Momentum cand);
             lvPz := Pz (Momentum cand); lvMass := M (Momentum cand) |} /\
        Vertex (Core particle) =
          {| ptX := X (Position cand); ptY := Y (Position cand);
             ptZ := Z_ (Position cand) |}.
Proof.
  assert (exists st, ConvertMCParticles mother_then_daughter [] [] = Some st) as [st Hst].
  { eexists. vm_compute. reflexivity. }
  exists st. split; [exact Hst|].
  exact (builder_cores_are_transcribed mother_then_daughter st Hst).
Defined.

(** X9, witness: a daughter range that ends at index 5 of a two-entry
    array. *)
Lemma builder_reads_outside_on_wide_range_witness :
  daughters_past_the_end !! 0%nat = Some (genealogy_candidate (-1) (-1) 1 5 5 50) /\
  (D1 (genealogy_candidate (-1) (-1) 1 5 5 50) <> -1 /\
   D1 (genealogy_candidate (-1) (-1) 1 5 5 50) <= D2 (genealogy_candidate (-1) (-1) 1 5 5 50) /\
   Z.of_nat (length daughters_past_the_end) <= D2 (genealogy_candidate (-1) (-1) 1 5 5 50)) /\
  ConvertMCParticles daughters_past_the_end [] [] = None.
Proof.
  assert (D1 (genealogy_candidate (-1) (-1) 1 5 5 50) <> -1 /\
          D1 (genealogy_candidate (-1) (-1) 1 5 5 50)
            <= D2 (genealogy_candidate (-1) (-1) 1 5 5 50) /\
          Z.of_nat (length daughters_past_the_end)
            <= D2 (genealogy_candidate (-1) (-1) 1 5 5 50)) as Hwide.
  { cbn. lia. }
  split; [reflexivity|]. split; [exact Hwide|].
  exact (builder_reads_outside_on_wide_range daughters_past_the_end 0%nat _ eq_refl
           (or_intror Hwide)).
Defined.


(** X15, witness: a photon whose only reference (identifier 41) is an
    intermediate candidate referring to the identifier 8: the photon is
    linked to truth particle 7. *)
Lemma photon_cascade_precedence_witness :
  ([photon_with [reference 41 [8]]] !! 0%nat = Some (photon_with [reference 41 [8]]) /\
   refs_one_based [reference 41 [8]] /\
   direct_hits 10 [reference 41 [8]] = 0%nat /\
   cascade_hits 10 [reference 41 [8]] = 1%nat) /\
  exists p,
    colParticles (state_reached (photon_run [reference 41 [8]])) !! 0%nat = Some p /\
    Bits p = Assigned MatchInCascade /\
    ascColParticlesToMC (state_reached (photon_run [reference 41 [8]])) !! 0%nat =
      Some {| Rec := Some 0%nat; Sim := Some 7 |}.
Proof.
  assert (refs_one_based [reference 41 [8]]) as H41.
  { apply Forall_cons_2; [|apply Forall_nil_2]. split; [unfold one_based; cbn; lia|].
    apply Forall_cons_2; [unfold one_based; lia|apply Forall_nil_2]. }
  split; [split; [reflexivity|split; [exact H41|split; reflexivity]]|].
  destruct (photon_cascade_precedence id [photon_with [reference 41 [8]]]
              (truth_particles 10) fresh_reco 0%nat _ fresh_reco eq_refl eq_refl H41)
    as (_ & _ & Hcascade).
  destruct (Hcascade eq_refl eq_refl) as (p & r & uid & Hp & Hb & _ & _ & Hlist & _ & Hr).
  assert ([7] = [uid - 1]) as Hseven by exact Hlist.
  injection Hseven as Huid.
  exists p. split; [exact Hp|]. split; [exact Hb|].
  rewrite <- Huid in Hr. exact Hr.
Defined.
(** ** Families listed mothers first *)

Lemma vec_at_nonneg {A : Type} (v : list A) (i : Z) (x : A) :
  vec_at v i = Some x -> 0 <= i.
Proof. unfold vec_at. destruct (Z.ltb_spec i 0); [discriminate|lia]. Qed.

(** The mother loop runs to its end on a range inside the side table. *)
Lemma mark_mothers_runs (n : nat) (iMother j : Z) (vec : list (Z * Z)) :
  0 <= iMother -> iMother + Z.of_nat n <= Z.of_nat (length vec) ->
  is_Some (mark_mothers n iMother j vec).
Proof.
  revert iMother vec. induction n as [|n IH]; intros iMother vec H0 Hn; [by eexists|].
  cbn [mark_mothers].
  destruct (vec_at_in_range vec iMother) as [s ->]; [lia|]. cbn [mbind option_bind].
  apply IH; [lia|]. destruct (s.2 =? -1); [|lia].
  unfold vec_set. rewrite length_insert. lia.
Qed.

Lemma mark_daughters_runs (n : nat) (iDaughter j : Z) (vec : list (Z * Z)) :
  0 <= iDaughter -> iDaughter + Z.of_nat n <= Z.of_nat (length vec) ->
  is_Some (mark_daughters n iDaughter j vec).
Proof.
  revert iDaughter vec. induction n as [|n IH]; intros iDaughter vec H0 Hn; [by eexists|].
  cbn [mark_daughters]. destruct (Z.leb_spec 0 iDaughter); [|lia].
  destruct (vec_at_in_range vec iDaughter) as [s ->]; [lia|]. cbn [mbind option_bind].
  apply IH; [lia|]. destruct (s.2 =? -1); [|lia].
  unfold vec_set. rewrite length_insert. lia.
Qed.

(** The mother loop writes decay entries only, and only inside its range. *)
Lemma mark_mothers_writes (n : nat) (iMother j : Z) (vec vec' : list (Z * Z))
    (i : nat) (s : Z * Z) :
  mark_mothers n iMother j vec = Some vec' ->
  vec !! i = Some s ->
  exists s', vec' !! i = Some s' /\ s'.1 = s.1 /\
             (~ (iMother <= Z.of_nat i < iMother + Z.of_nat n) -> s' = s).
Proof.
  revert iMother vec s.
  induction n as [|n IH]; intros iMother vec s Hrun Hs.
  { injection Hrun as <-. by exists s. }
  cbn [mark_mothers] in Hrun.
  destruct (vec_at vec iMother) as [s0|] eqn:Hs0; cbn [mbind option_bind] in Hrun; [|done].
  pose proof (vec_at_nonneg _ _ _ Hs0) as Hnonneg.
  apply vec_at_lookup in Hs0.
  destruct (decide (i = Z.to_nat iMother)) as [->|Hne].
  - assert (s0 = s) as -> by congruence.
    destruct (IH (iMother + 1) _
                (if s.2 =? -1 then (s.1, j) else s) Hrun) as (s' & Hs' & H1 & H2).
    { destruct (s.2 =? -1); [|done].
      unfold vec_set. apply list_lookup_insert_eq. by eapply lookup_lt_Some. }
    exists s'. split; [done|]. split; [by rewrite H1; destruct (s.2 =? -1)|].
    intros Hout. exfalso. apply Hout. lia.
  - destruct (IH (iMother + 1) _ s Hrun) as (s' & Hs' & H1 & H2).
    { destruct (s0.2 =? -1); [|done].
      unfold vec_set. by rewrite list_lookup_insert_ne. }
    exists s'. split; [done|]. split; [done|].
    intros Hout. apply H2. lia.
Qed.

(** The daughter loop writes production entries only, and only inside its
    range. *)
Lemma mark_daughters_writes (n : nat) (iDaughter j : Z) (vec vec' : list (Z * Z))
    (i : nat) (s : Z * Z) :
  mark_daughters n iDaughter j vec = Some vec' ->
  vec !! i = Some s ->
  exists s', vec' !! i = Some s' /\ s'.2 = s.2 /\
             (~ (iDaughter <= Z.of_nat i < iDaughter + Z.of_nat n) -> s' = s).
Proof.
  revert iDaughter vec s.
  induction n as [|n IH]; intros iDaughter vec s Hrun Hs.
  { injection Hrun as <-. by exists s. }
  cbn [mark_daughters] in Hrun.
  destruct (Z.leb_spec 0 iDaughter); cbn [mbind option_bind] in Hrun.
  - destruct (vec_at vec iDaughter) as [s0|] eqn:Hs0; cbn [mbind option_bind] in Hrun; [|done].
    apply vec_at_lookup in Hs0.
    destruct (decide (i = Z.to_nat iDaughter)) as [->|Hne].
    + assert (s0 = s) as -> by congruence.
      destruct (IH (iDaughter + 1) _
                  (if s.2 =? -1 then (j, s.2) else s) Hrun) as (s' & Hs' & H1 & H2).
      { destruct (s.2 =? -1); [|done].
        unfold vec_set. apply list_lookup_insert_eq. by eapply lookup_lt_Some. }
      exists s'. split; [done|]. split; [by rewrite H1; destruct (s.2 =? -1)|].
      intros Hout. exfalso. apply Hout. lia.
    + destruct (IH (iDaughter + 1) _ s Hrun) as (s' & Hs' & H1 & H2).
      { destruct (s0.2 =? -1); [|done].
        unfold vec_set. by rewrite list_lookup_insert_ne. }
      exists s'. split; [done|]. split; [done|].
      intros Hout. apply H2. lia.
  - destruct (IH (iDaughter + 1) _ s Hrun Hs) as (s' & Hs' & H1 & H2).
    exists s'. split; [done|]. split; [done|].
    intros Hout. apply H2. lia.
Qed.

Section FamilyProperties.

Context {double : Type}.

Implicit Types (cand : @Candidate double) (st : @BuilderState double).

(** The production block on a candidate whose mother has been visited: the
    particle takes the end vertex of the mother, no vertex is created, and
    the side table changes at decay entries of earlier positions only. *)
Lemma production_vertex_family (Input : list (@Candidate double)) (j : nat) cand st
    (x : @MCParticle double) (s : Z * Z) :
  mothers_first Input ->
  Input !! j = Some cand ->
  family_state Input j st ->
  vecPartProdVtxIDDecVtxID st !! j = Some s ->
  StartVertex x = None -> EndVertex x = None ->
  exists vec start,
    production_vertex cand (Z.of_nat j) j s.1
      {| vecPartProdVtxIDDecVtxID := vecPartProdVtxIDDecVtxID st;
         colMCParticles := colMCParticles st ++ [x];
         colGenVertices := colGenVertices st |} =
    Some {| vecPartProdVtxIDDecVtxID := vec;
            colMCParticles :=
              colMCParticles st ++
              [{| Core := Core x; StartVertex := start; EndVertex := None |}];
            colGenVertices := colGenVertices st |} /\
    length vec = length (vecPartProdVtxIDDecVtxID st) /\
    (forall (i : nat) si,
       vecPartProdVtxIDDecVtxID st !! i = Some si ->
       exists si', vec !! i = Some si' /\ si'.1 = si.1 /\ ((j <= i)%nat -> si' = si)) /\
    (M1 cand <> -1 ->
     is_Some start /\
     exists mother,
       colMCParticles st !! Z.to_nat (M1 cand) = Some mother /\ EndVertex mother = start).
Proof.
  intros Hmf Hj (Hlen & Hcol & Htab & Hpart & Hvtx & Hcount) Hs Hx1 Hx2.
  destruct (Hmf j cand Hj) as [HM _].
  destruct (Htab j s cand Hs Hj) as [Hs1 _].
  unfold production_vertex.
  destruct (Z.eqb_spec (M1 cand) (-1)) as [Hnone|Hsome].
  { exists (vecPartProdVtxIDDecVtxID st), None. split.
    - destruct x; cbn in *; by subst.
    - split; [done|]. split; [|done]. intros i si Hi. by exists si. }
  destruct (HM Hsome) as (HM2 & Hrange & mother & Hmother & HmD & Hmr).
  unfold expected_production in Hs1. rewrite decide_True in Hs1 by done.
  rewrite Hs1.
  destruct (Z.eqb_spec (M1 cand) (-1)) as [|_]; [done|]. cbn [negb].
  destruct (lookup_lt_is_Some_2 (colMCParticles st) (Z.to_nat (M1 cand))) as [mp Hmp]; [lia|].
  assert (vec_at (colMCParticles st ++ [x]) (M1 cand) = Some mp) as Hat.
  { unfold vec_at. destruct (Z.ltb_spec (M1 cand) 0); [lia|].
    by apply lookup_app_l_Some. }
  cbn [colMCParticles vecPartProdVtxIDDecVtxID colGenVertices]. rewrite Hat.
  cbn [mbind option_bind colMCParticles vecPartProdVtxIDDecVtxID colGenVertices].
  assert (set_StartVertex j (EndVertex mp) (colMCParticles st ++ [x]) =
          colMCParticles st ++
          [{| Core := Core x; StartVertex := EndVertex mp; EndVertex := None |}]) as ->.
  { rewrite <- Hcol, set_StartVertex_snoc. by rewrite Hx2. }
  destruct (mark_mothers_runs (trip_count (M1 cand) (M2 cand)) (M1 cand) (Z.of_nat j)
              (vecPartProdVtxIDDecVtxID st)) as [vec Hvec].
  { lia. }
  { unfold trip_count. rewrite HM2. pose proof (lookup_lt_Some _ _ _ Hj). lia. }
  rewrite Hvec. cbn [mbind option_bind].
  exists vec, (EndVertex mp). split; [done|].
  split; [by apply mark_mothers_length in Hvec|]. split.
  - intros i si Hi.
    destruct (mark_mothers_writes _ _ _ _ _ i si Hvec Hi) as (si' & Hsi' & H1 & H2).
    exists si'. split; [done|]. split; [done|]. intros Hle. apply H2.
    unfold trip_count. rewrite HM2. lia.
  - intros _. split.
    + destruct (Hpart _ mp mother Hmp Hmother) as [Hend _]. rewrite Hend by done. by eexists.
    + by exists mp.
Qed.


(** The decay block on a candidate whose daughters come later: a candidate
    with a daughter range gets a new end vertex, and the side table changes
    at the production entries of the daughter range only. *)
Lemma decay_vertex_family (Input : list (@Candidate double)) (j : nat) cand
    (vec : list (Z * Z)) col (x : @MCParticle double) vtx :
  mothers_first Input ->
  Input !! j = Some cand ->
  length vec = length Input ->
  length col = j ->
  EndVertex x = None ->
  exists vec',
    decay_vertex Input cand (Z.of_nat j) j (-1)
      {| vecPartProdVtxIDDecVtxID := vec;
         colMCParticles := col ++ [x];
         colGenVertices := vtx |} =
    Some {| vecPartProdVtxIDDecVtxID := vec';
            colMCParticles :=
              col ++
              [{| Core := Core x; StartVertex := StartVertex x;
                  EndVertex := if decide (D1 cand <> -1) then Some (length vtx) else None |}];
            colGenVertices := vtx ++ decay_vertices Input [cand] |} /\
    length vec' = length vec /\
    length (decay_vertices Input [cand]) = length (filter (fun c => D1 c <> -1) [cand]) /\
    (forall (i : nat) si,
       vec !! i = Some si ->
       exists si', vec' !! i = Some si' /\ si'.2 = si.2 /\
         (~ (D1 cand <> -1 /\ D1 cand <= Z.of_nat i <= D2 cand) -> si' = si) /\
         (D1 cand <> -1 -> D1 cand <= Z.of_nat i <= D2 cand -> si.2 = -1 ->
          si'.1 = Z.of_nat j)).
Proof.
  intros Hmf Hj Hlen Hcol Hx.
  destruct (Hmf j cand Hj) as [_ HD].
  unfold decay_vertex.
  destruct (Z.eqb_spec (D1 cand) (-1)) as [Hnone|Hsome].
  { exists vec. unfold decay_vertices. cbn [omap list_omap].
    rewrite !decide_False by tauto. rewrite app_nil_r.
    split; [destruct x; cbn in *; by subst|].
    split; [done|]. split.
    - by rewrite filter_cons, decide_False, filter_nil by tauto.
    - intros i si Hi. exists si.
      split; [done|]. split; [done|]. split; [done|]. done. }
  destruct (HD Hsome) as (Hafter & Hend & Hdaughters).
  cbn [Z.eqb Pos.eqb negb].
  destruct (vec_at_in_range Input (D1 cand)) as [daughter Hdaughter]; [lia|].
  rewrite Hdaughter.
  cbn [mbind option_bind colMCParticles vecPartProdVtxIDDecVtxID colGenVertices].
  assert (set_EndVertex j (Some (length vtx)) (col ++ [x]) =
          col ++
          [{| Core := Core x; StartVertex := StartVertex x;
              EndVertex := Some (length vtx) |}]) as ->.
  { by rewrite <- Hcol, set_EndVertex_snoc. }
  destruct (mark_daughters_runs (trip_count (D1 cand) (D2 cand)) (D1 cand) (Z.of_nat j) vec)
    as [vec' Hvec].
  { lia. }
  { unfold trip_count. lia. }
  rewrite Hvec. cbn [mbind option_bind].
  exists vec'. unfold decay_vertices. cbn [omap list_omap].
  rewrite !decide_True by done. rewrite Hdaughter. cbn [mbind option_bind].
  split; [done|].
  split; [by apply mark_daughters_length in Hvec|]. split.
  { by rewrite filter_cons, decide_True, filter_nil by done. }
  intros i si Hi.
  destruct (mark_daughters_writes _ _ _ _ _ i si Hvec Hi) as (si' & Hsi' & H1 & H2).
  exists si'. split; [done|]. split; [done|]. split.
  - intros Hout. apply H2. unfold trip_count. lia.
  - intros _ Hin Hunknown.
    rewrite (mark_daughters_marks _ _ _ _ _ i si Hvec) in Hsi'; [| |done|done].
    + by injection Hsi' as <-.
    + unfold trip_count. lia.
Qed.

(** One iteration on a mothers-first input. *)
Lemma ConvertMCParticles_body_family (Input : list (@Candidate double)) (j : nat) cand st :
  mothers_first Input ->
  Input !! j = Some cand ->
  family_state Input j st ->
  exists st',
    ConvertMCParticles_body Input j cand st = Some st' /\
    family_state Input (S j) st'.
Proof.
  intros Hmf Hj Hstate.
  pose proof Hstate as (Hlen & Hcol & Htab & Hpart & Hvtx & Hcount).
  pose proof (lookup_lt_Some _ _ _ Hj) as Hjn.
  destruct (lookup_lt_is_Some_2 (vecPartProdVtxIDDecVtxID st) j) as [s Hs]; [lia|].
  destruct (Htab j s cand Hs Hj) as [_ Hs2]. specialize (Hs2 (le_n _)).
  unfold ConvertMCParticles_body.
  assert (vec_at (vecPartProdVtxIDDecVtxID st) (Z.of_nat j) = Some s) as ->.
  { unfold vec_at. destruct (Z.ltb_spec (Z.of_nat j) 0); [lia|]. by rewrite Nat2Z.id. }
  cbn [mbind option_bind]. rewrite Hcol.
  destruct (production_vertex_family Input j cand st
              {| Core := genealogy_core cand; StartVertex := None; EndVertex := None |} s
              Hmf Hj Hstate Hs eq_refl eq_refl)
    as (vec1 & start & -> & Hlen1 & Htab1 & Hstart).
  cbn [mbind option_bind Core]. rewrite Hs2.
  destruct (decay_vertex_family Input j cand vec1 (colMCParticles st)
              {| Core := genealogy_core cand; StartVertex := start; EndVertex := None |}
              (colGenVertices st) Hmf Hj)
    as (vec2 & -> & Hlen2 & Hvtx2 & Htab2); [lia|done|done|].
  cbn [Core StartVertex].
  eexists. split; [done|].
  destruct (Hmf j cand Hj) as [HM HD].
  split; [cbn; lia|]. split; [cbn; rewrite length_app; cbn; lia|].
  split; [|split; [|split]].
  - cbn [vecPartProdVtxIDDecVtxID]. intros i s2 c Hi Hc.
    destruct (lookup_lt_is_Some_2 (vecPartProdVtxIDDecVtxID st) i) as [s0 Hs0].
    { apply lookup_lt_Some in Hi. lia. }
    destruct (Htab i s0 c Hs0 Hc) as [H01 H02].
    destruct (Htab1 i s0 Hs0) as (s1 & Hs1 & H11 & H12).
    destruct (Htab2 i s1 Hs1) as (s2' & Hs2' & H21 & H22 & H23).
    assert (s2' = s2) as -> by congruence.
    split.
    + unfold expected_production in *.
      destruct (decide (D1 cand <> -1 /\ D1 cand <= Z.of_nat i <= D2 cand)) as [[Hd Hin]|Hout].
      * destruct (HD Hd) as (Hafter & _ & Hdaughters).
        rewrite (Hdaughters i c Hin Hc).
        rewrite decide_True by lia.
        apply H23; [done|done|].
        rewrite H12 by lia. apply H02. lia.
      * rewrite (H22 Hout), H11, H01.
        destruct (decide (0 <= M1 c < Z.of_nat j)); [by rewrite decide_True by lia|].
        destruct (decide (0 <= M1 c < Z.of_nat (S j))) as [Hnow|]; [|done].
        exfalso. assert (M1 c = Z.of_nat j) as Hmother by lia.
        destruct (Hmf i c Hc) as [HMc _].
        destruct HMc as (_ & _ & mother & Hmother' & HmD & Hmr); [lia|].
        rewrite Hmother, Nat2Z.id, Hj in Hmother'. injection Hmother' as <-.
        apply Hout. done.
    + intros Hle. rewrite H21, H12 by lia. apply H02. lia.
  - cbn [colMCParticles]. intros i particle c Hi Hc.
    destruct (decide (i < j)%nat) as [Hlt|Hge].
    + rewrite lookup_app_l in Hi by lia.
      destruct (Hpart i particle c Hi Hc) as [He Hs0]. split; [done|].
      intros Hm. destruct (Hs0 Hm) as (Hsome & mother & Hmother & Heq).
      split; [done|]. exists mother. split; [|done]. by apply lookup_app_l_Some.
    + assert (i = j) as ->.
      { apply lookup_lt_Some in Hi. rewrite length_app in Hi. cbn in Hi. lia. }
      rewrite lookup_app_r, Hcol, Nat.sub_diag in Hi by lia.
      injection Hi as <-. assert (c = cand) as -> by congruence.
      cbn [StartVertex EndVertex]. split.
      { intros Hd. by rewrite decide_True, Hvtx by done. }
      intros Hm. destruct (Hstart Hm) as (Hsome & mother & Hmother & Heq).
      split; [done|]. exists mother. split; [|done]. by apply lookup_app_l_Some.
  - cbn [colGenVertices]. rewrite (take_S_r _ _ _ Hj), Hvtx.
    unfold decay_vertices. by rewrite omap_app.
  - cbn [colGenVertices].
    rewrite (take_S_r _ _ _ Hj), filter_app, !length_app. lia.
Qed.

Lemma ConvertMCParticles_loop_family (Input todo : list (@Candidate double)) (j : nat) st :
  mothers_first Input ->
  drop j Input = todo -> (j <= length Input)%nat ->
  family_state Input j st ->
  exists st',
    ConvertMCParticles_loop Input todo j st = Some st' /\
    family_state Input (length Input) st'.
Proof.
  intros Hmf. revert j st. induction todo as [|cand todo IH]; intros j st Hdrop Hle Hstate.
  - exists st. split; [done|].
    apply drop_nil_inv in Hdrop.
    by replace (length Input) with j by lia.
  - assert (Input !! j = Some cand) as Hj.
    { rewrite <- (Nat.add_0_r j), <- lookup_drop, Hdrop. done. }
    pose proof (lookup_lt_Some _ _ _ Hj) as Hjn.
    destruct (ConvertMCParticles_body_family Input j cand st Hmf Hj Hstate)
      as (st' & Hrun & Hstate').
    cbn [ConvertMCParticles_loop]. rewrite Hrun. cbn [mbind option_bind].
    apply IH; [|lia|done].
    rewrite (drop_S _ _ _ Hj) in Hdrop. by injection Hdrop.
Qed.

Lemma family_state_initially (Input : list (@Candidate double)) :
  family_state Input 0
    {| vecPartProdVtxIDDecVtxID := replicate (length Input) (-1, -1);
       colMCParticles := [];
       colGenVertices := [] |}.
Proof.
  split; [cbn; by rewrite length_replicate|]. split; [done|]. split; [|split; [|done]].
  - cbn. intros i s c Hi Hc. apply lookup_replicate in Hi as [-> _].
    unfold expected_production. rewrite decide_False by lia. done.
  - cbn. intros i particle c Hi. by rewrite lookup_nil in Hi.
Qed.

(** X13.  On a genealogy listed mothers first (every candidate with a mother
    range names one mother, listed before it, whose daughter range contains
    it, and the daughters of a range come later and name that mother) the
    builder runs to completion, creates exactly one vertex per candidate with
    a daughter range, and shares it: the start vertex of every candidate with
    a mother is the end vertex of its mother, so that siblings hold the same
    start vertex. *)
Theorem mothers_first_families_share_vertices (Input : list (@Candidate double)) :
  mothers_first Input ->
  exists st,
    ConvertMCParticles Input [] [] = Some st /\
    length (colGenVertices st) = length (filter (fun cand => D1 cand <> -1) Input) /\
    (forall (j : nat) cand,
       Input !! j = Some cand -> M1 cand <> -1 ->
       exists particle mother v,
         colMCParticles st !! j = Some particle /\
         colMCParticles st !! Z.to_nat (M1 cand) = Some mother /\
         StartVertex particle = Some v /\ EndVertex mother = Some v) /\
    (forall (j1 j2 : nat) c1 c2 p1 p2,
       Input !! j1 = Some c1 -> Input !! j2 = Some c2 ->
       M1 c1 <> -1 -> M1 c2 = M1 c1 ->
       colMCParticles st !! j1 = Some p1 -> colMCParticles st !! j2 = Some p2 ->
       StartVertex p1 = StartVertex p2).
Proof.
  intros Hmf.
  destruct (ConvertMCParticles_loop_family Input Input 0
              {| vecPartProdVtxIDDecVtxID := replicate (length Input) (-1, -1);
                 colMCParticles := [];
                 colGenVertices := [] |} Hmf eq_refl)
    as (st & Hrun & Hlen & Hcol & Htab & Hpart & _ & Hvtx);
    [lia|apply family_state_initially|].
  assert (forall (j : nat) cand,
            Input !! j = Some cand -> M1 cand <> -1 ->
            exists particle mother v,
              colMCParticles st !! j = Some particle /\
              colMCParticles st !! Z.to_nat (M1 cand) = Some mother /\
              StartVertex particle = Some v /\ EndVertex mother = Some v) as Hshare.
  { intros j cand Hj Hm.
    destruct (lookup_lt_is_Some_2 (colMCParticles st) j) as [particle Hp].
    { apply lookup_lt_Some in Hj. lia. }
    destruct (Hpart j particle cand Hp Hj) as [_ Hs].
    destruct (Hs Hm) as ([v Hv] & mother & Hmother & Heq).
    exists particle, mother, v. split; [done|]. split; [done|]. split; [done|congruence]. }
  exists st. split; [exact Hrun|]. split; [by rewrite firstn_all in Hvtx|].
  split; [exact Hshare|].
  intros j1 j2 c1 c2 p1 p2 H1 H2 Hm Heq Hp1 Hp2.
  destruct (Hshare j1 c1 H1 Hm) as (q1 & m1 & v1 & Hq1 & Hm1 & Hs1 & He1).
  destruct (Hshare j2 c2 H2) as (q2 & m2 & v2 & Hq2 & Hm2 & Hs2 & He2); [congruence|].
  rewrite Heq in Hm2. congruence.
Qed.

(** X14.  On a genealogy listed mothers first the vertex collection is
    exactly the list of decays: one vertex for every candidate with a
    daughter range, in input order, at the position of the candidate's first
    daughter and with the time of the candidate itself (not of the daughter);
    the end vertex of such a candidate is that vertex. *)
Theorem mothers_first_vertices_are_the_decays (Input : list (@Candidate double)) :
  mothers_first Input ->
  exists st,
    ConvertMCParticles Input [] [] = Some st /\
    colGenVertices st = decay_vertices Input Input /\
    (forall (j : nat) cand,
       Input !! j = Some cand -> D1 cand <> -1 ->
       exists particle daughter v,
         colMCParticles st !! j = Some particle /\
         Input !! Z.to_nat (D1 cand) = Some daughter /\
         EndVertex particle = Some v /\
         colGenVertices st !! v =
           Some {| vPosition := point_of (Position daughter);
                   Ctau := T (Position cand) |}).
Proof.
  intros Hmf.
  destruct (ConvertMCParticles_loop_family Input Input 0
              {| vecPartProdVtxIDDecVtxID := replicate (length Input) (-1, -1);
                 colMCParticles := [];
                 colGenVertices := [] |} Hmf eq_refl)
    as (st & Hrun & Hlen & Hcol & Htab & Hpart & Hvtx & _);
    [lia|apply family_state_initially|].
  rewrite firstn_all in Hvtx.
  exists st. split; [exact Hrun|]. split; [exact Hvtx|].
  intros j cand Hj Hd.
  destruct (lookup_lt_is_Some_2 (colMCParticles st) j) as [particle Hp].
  { apply lookup_lt_Some in Hj. lia. }
  destruct (Hpart j particle cand Hp Hj) as [Hend _].
  destruct (Hmf j cand Hj) as [_ HD]. destruct (HD Hd) as (Hafter & _ & _).
  destruct (vec_at_in_range Input (D1 cand)) as [daughter Hdaughter]; [lia|].
  exists particle, daughter, (length (decay_vertices Input (take j Input))).
  split; [done|]. split; [by apply vec_at_lookup|]. split; [by apply Hend|].
  pose proof (take_drop_middle Input j cand Hj) as Hsplit.
  assert (decay_vertices Input Input =
          decay_vertices Input (take j Input) ++
          decay_vertices Input (cand :: drop (S j) Input)) as Hparts.
  { unfold decay_vertices. rewrite <- omap_app. by rewrite Hsplit. }
  rewrite Hvtx, Hparts, lookup_app_r, Nat.sub_diag by lia.
  unfold decay_vertices. cbn [omap list_omap].
  rewrite decide_True by done. rewrite Hdaughter. done.
Qed.

End FamilyProperties.

(** The family of [two_generations] is listed mothers first. *)
Lemma two_generations_mothers_first : mothers_first two_generations.
Proof.
  intros j cand Hj.
  destruct j as [|[|[|[|j]]]]; cbn in Hj; [| | | |discriminate];
    injection Hj as <-; cbn; (split; [intros Hm|intros Hd]); try done.
  - split; [lia|]. split; [lia|].
    intros d daughter Hin Hdaughter.
    destruct d as [|[|[|[|d]]]]; cbn in Hdaughter; try lia;
      injection Hdaughter as <-; reflexivity.
  - split; [done|]. split; [lia|]. eexists. split; [reflexivity|]. cbn. lia.
  - split; [lia|]. split; [lia|].
    intros d daughter Hin Hdaughter.
    destruct d as [|[|[|[|d]]]]; cbn in Hdaughter; try lia;
      injection Hdaughter as <-; reflexivity.
  - split; [done|]. split; [lia|]. eexists. split; [reflexivity|]. cbn. lia.
  - split; [done|]. split; [lia|]. eexists. split; [reflexivity|]. cbn. lia.
Qed.

(** X13, witness: a mother at position 0 with the daughters 1 and 2, the
    first of which decays into the candidate at position 3. *)
Lemma mothers_first_families_share_vertices_witness :
  mothers_first two_generations /\
  exists st,
    ConvertMCParticles two_generations [] [] = Some st /\
    length (colGenVertices st) = 2%nat /\
    forall (p1 p2 : @MCParticle Z),
      colMCParticles st !! 1%nat = Some p1 -> colMCParticles st !! 2%nat = Some p2 ->
      StartVertex p1 = StartVertex p2.
Proof.
  split; [exact two_generations_mothers_first|].
  destruct (mothers_first_families_share_vertices two_generations
              two_generations_mothers_first)
    as (st & Hrun & Hcount & _ & Hsiblings).
  exists st. split; [exact Hrun|]. split; [exact Hcount|].
  intros p1 p2 Hp1 Hp2.
  apply (Hsiblings 1%nat 2%nat (genealogy_candidate 0 0 3 3 10 100)
           (genealogy_candidate 0 0 (-1) (-1) 10 100) p1 p2);
    [reflexivity|reflexivity|cbn; lia|reflexivity|exact Hp1|exact Hp2].
Defined.

(** X14, witness: the same family has two decays, of the candidates at
    positions 0 and 1. *)
Lemma mothers_first_vertices_are_the_decays_witness :
  mothers_first two_generations /\
  exists st,
    ConvertMCParticles two_generations [] [] = Some st /\
    colGenVertices st =
      [ {| vPosition := {| ptX := 10; ptY := 10; ptZ := 10 |}; Ctau := 50 |};
        {| vPosition := {| ptX := 20; ptY := 20; ptZ := 20 |}; Ctau := 100 |} ].
Proof.
  split; [exact two_generations_mothers_first|].
  destruct (mothers_first_vertices_are_the_decays two_generations
              two_generations_mothers_first)
    as (st & Hrun & Hvtx & _).
  exists st. split; [exact Hrun|]. rewrite Hvtx. reflexivity.
Defined.
